(** * ETF price response lag analysis (qqqBot/etf_lag_analysis.py)

    A shallow embedding of the tick-series engine of [etf_lag_analysis.py]:
    nearest-tick lookup by binary search, nearest-rank percentile, the
    rolling leverage-ratio sampler, the move/lag detector and the
    stop-trigger simulator, together with the properties of the
    specification that concern them.  The loop and sort of [load_ticks],
    [filter_market_hours], the reports of parts 2 and 3 and the session
    guard are embedded as well, with the calls into the Python library
    (string parsing, [datetime]) taken as parameters.

    Number model.  Timestamps are Python integers (epoch milliseconds) and
    are embedded as [Z].  Prices and every quantity derived from them are
    Python floats, and are embedded twice.  The first part of the file reads
    them as exact rationals [Q], compared with [Qeq]/[Qlt]/[Qle]: this
    reading serves the properties of the lookups, the strides, the sorts,
    the counts and the order of the reported figures.  The module [F64]
    reads them as IEEE 754 binary64 values, the arithmetic the program
    runs: it serves the properties that depend on the values the program
    computes (the high-water marks, the trigger band, the 90% catch-up
    test, the nearest-rank index, the recorded figures).  Exceptions the
    source can raise ([IndexError], [KeyError], [ZeroDivisionError],
    [StatisticsError], [OverflowError], [ValueError]) are results of the
    [result] monad.  The one [while] loop is bounded by a fuel argument;
    [find_nearest_idx_total] shows that the bound is never hit. *)

From Stdlib Require Import ZArith QArith Qround Qabs Lia Lqa.
From Stdlib Require Import Floats.
From stdpp Require Import base option list gmap sorting strings.

(* A decimal float literal denotes the nearest binary64 value, as in Python. *)
Set Warnings "-inexact-float".

Local Open Scope Z_scope.

(** ** Results and exceptions *)

Inductive exn : Set :=
  | IndexError          (* list index out of range *)
  | KeyError            (* dict key missing *)
  | ZeroDivisionError   (* float division by zero *)
  | StatisticsError     (* [statistics.mean] of no data *)
  | OverflowError       (* [int] of an infinite float *)
  | ValueError          (* [int] of a NaN *)
  | OutOfFuel.          (* the bound of a modelled [while] loop was hit *)

Inductive result (A : Type) : Type :=
  | Ok (a : A)
  | Raise (e : exn).
Arguments Ok {A} a.
Arguments Raise {A} e.

#[global] Instance result_ret : MRet result := λ A, @Ok A.
#[global] Instance result_bind : MBind result := λ A B f m,
  match m with
  | Ok a => f a
  | Raise e => Raise e
  end.

(** [r] has a value: the computation raised nothing. *)
Definition is_Ok {A} (r : result A) : Prop := ∃ a, r = Ok a.

(** ** Ticks and tick series *)

(** A tick is the tuple [(epoch_ms, price)] built by [load_ticks]. *)
Abbreviation Tick := (Z * Q)%type.

(** [ticks[i]] for a non-negative index. *)
Definition tick_at (ticks : list Tick) (i : nat) : result Tick :=
  match ticks !! i with
  | Some tk => Ok tk
  | None => Raise IndexError
  end.

(** [ticks.sort(key=lambda x: x[0])]: timestamps never decrease. *)
Fixpoint sorted_by_time (ticks : list Tick) : bool :=
  match ticks with
  | [] => true
  | tk :: rest =>
      match rest with
      | [] => true
      | tk' :: _ => (tk.1 <=? tk'.1) && sorted_by_time rest
      end
  end.

(** ** find_nearest_idx *)

(** The loop [while lo < hi: ...] of [find_nearest_idx]; [fuel] bounds the
    number of iterations. *)
Fixpoint bisect_loop (fuel : nat) (ticks : list Tick) (target_ms : Z)
    (lo hi : nat) : result nat :=
  if decide (lo < hi)%nat then
    match fuel with
    | O => Raise OutOfFuel
    | S fuel' =>
        let mid := ((lo + hi) / 2)%nat in
        tk ← tick_at ticks mid;
        if decide (tk.1 < target_ms)
        then bisect_loop fuel' ticks target_ms (mid + 1) hi
        else bisect_loop fuel' ticks target_ms lo mid
    end
  else Ok lo.

Definition find_nearest_idx (ticks : list Tick) (target_ms : Z) : result nat :=
  let n := length ticks in
  if decide (n = 0)%nat then Ok 0%nat
  else
    lo ← bisect_loop n ticks target_ms 0 (n - 1);
    if decide (0 < lo)%nat then
      t_lo ← tick_at ticks lo;
      t_prev ← tick_at ticks (lo - 1);
      if decide (Z.abs (t_lo.1 - target_ms) > Z.abs (t_prev.1 - target_ms))
      then Ok (lo - 1)%nat
      else Ok lo
    else Ok lo.

(** [price_at_time]: the nearest tick itself. *)
Definition price_at_time (ticks : list Tick) (ms : Z) : result Tick :=
  idx ← find_nearest_idx ticks ms;
  tick_at ticks idx.

(** ** Float arithmetic on exact rationals *)

#[global] Instance Qeq_decision (x y : Q) : Decision (x == y)%Q := Qeq_dec x y.
#[global] Instance Qle_decision (x y : Q) : Decision (x <= y)%Q :=
  decide (Qnum x * QDen y ≤ Qnum y * QDen x).
#[global] Instance Qlt_decision (x y : Q) : Decision (x < y)%Q :=
  decide (Qnum x * QDen y < Qnum y * QDen x).

(** [a / b] on floats: raises on a zero divisor. *)
Definition fdiv (a b : Q) : result Q :=
  if decide (b == 0)%Q then Raise ZeroDivisionError else Ok (a / b)%Q.

(** [(p1 - p0) / p0 * 100], the percentage move from [p0] to [p1]. *)
Definition pct_change (p0 p1 : Q) : result Q :=
  d ← fdiv (p1 - p0) p0;
  Ok (d * 100)%Q.

(** [int(x)]: truncation toward zero. *)
Definition py_int (x : Q) : Z := Z.quot (Qnum x) (Z.pos (Qden x)).

(** Nearest integer, ties to the even one. *)
Definition round_half_even (x : Q) : Z :=
  let f := Qfloor x in
  match (x - inject_Z f ?= 1 # 2)%Q with
  | Lt => f
  | Gt => f + 1
  | Eq => if Z.even f then f else f + 1
  end.

(** [round(x, ndigits)]. *)
Definition py_round (x : Q) (ndigits : nat) : Q :=
  let scale := inject_Z (10 ^ Z.of_nat ndigits) in
  (inject_Z (round_half_even (x * scale)) / scale)%Q.

(** [range(start, stop, step)] for a positive [step]. *)
Definition py_range (start stop step : nat) : list nat :=
  (λ k, start + k * step)%nat <$> seq 0 ((stop - start + step - 1) / step)%nat.

(** ** Statistics utilities *)

Definition percentile (sorted_list : list Q) (pct : Q) : result Q :=
  match sorted_list with
  | [] => Ok 0%Q
  | _ :: _ =>
      let idx := py_int (inject_Z (Z.of_nat (length sorted_list)) * pct / 100)%Q in
      let idx := Z.max 0 (Z.min idx (Z.of_nat (length sorted_list) - 1)) in
      match sorted_list !! Z.to_nat idx with
      | Some x => Ok x
      | None => Raise IndexError
      end
  end.

Definition Qsum (xs : list Q) : Q := foldr Qplus 0%Q xs.

(** [statistics.mean]. *)
Definition mean (xs : list Q) : result Q :=
  match xs with
  | [] => Raise StatisticsError
  | _ :: _ => Ok (Qsum xs / inject_Z (Z.of_nat (length xs)))%Q
  end.

(** [sorted(xs)] on floats. *)
Definition sorted (xs : list Q) : list Q := merge_sort Qle xs.

(** ** Part 1: rolling leverage ratio *)

(** One iteration of the sampling loop over [qqq[i]].  [Ok None] is a
    [continue] (or the final guard failing), [Ok (Some (t, s))] the pair
    appended to [t_ratios] and [s_ratios]. *)
Definition ratio_sample (qqq tqqq sqqq : list Tick) (window_ms : Z) (i : nat)
    : result (option (Q * Q)) :=
  '(q0_ms, q0_p) ← tick_at qqq i;
  '(q1_ms, q1_p) ← price_at_time qqq (q0_ms + window_ms);
  let actual_gap := q1_ms - q0_ms in
  if decide (inject_Z actual_gap < inject_Z window_ms * 0.5
             ∨ inject_Z window_ms * 1.5 < inject_Z actual_gap)%Q
  then Ok None
  else
    q_pct ← pct_change q0_p q1_p;
    if decide (Qabs q_pct < 0.005)%Q then Ok None
    else
      '(t0_ms, t0_p) ← price_at_time tqqq q0_ms;
      '(t1_ms, t1_p) ← price_at_time tqqq (q0_ms + window_ms);
      t_pct ← pct_change t0_p t1_p;
      '(s0_ms, s0_p) ← price_at_time sqqq q0_ms;
      '(s1_ms, s1_p) ← price_at_time sqqq (q0_ms + window_ms);
      s_pct ← pct_change s0_p s1_p;
      if decide (¬ q_pct == 0)%Q then
        t_ratio ← fdiv t_pct q_pct;
        s_ratio ← fdiv s_pct q_pct;
        Ok (Some (t_ratio, s_ratio))
      else Ok None.

(** The loop [for i in range(0, len(qqq), step)] threading the two lists. *)
Fixpoint collect_ratios (qqq tqqq sqqq : list Tick) (window_ms : Z)
    (idxs : list nat) (t_ratios s_ratios : list Q) : result (list Q * list Q) :=
  match idxs with
  | [] => Ok (t_ratios, s_ratios)
  | i :: rest =>
      r ← ratio_sample qqq tqqq sqqq window_ms i;
      match r with
      | Some (t_ratio, s_ratio) =>
          collect_ratios qqq tqqq sqqq window_ms rest
            (t_ratios ++ [t_ratio]) (s_ratios ++ [s_ratio])
      | None => collect_ratios qqq tqqq sqqq window_ms rest t_ratios s_ratios
      end
  end.

(** The figures printed for one window. *)
Record WindowStats : Type := {
  ws_n : nat;
  t_med : Q; t_p10 : Q; t_p90 : Q; t_mae : Q;
  s_med : Q; s_p10 : Q; s_p90 : Q; s_mae : Q
}.

Inductive WindowReport : Type :=
  | Reported (st : WindowStats)
  | InsufficientData (n : nat).

Definition window_report (t_ratios s_ratios : list Q) : result WindowReport :=
  if decide (10 < length t_ratios)%nat then
    let t_sorted := sorted t_ratios in
    let s_sorted := sorted s_ratios in
    t_med ← percentile t_sorted 50;
    t_p10 ← percentile t_sorted 10;
    t_p90 ← percentile t_sorted 90;
    s_med ← percentile s_sorted 50;
    s_p10 ← percentile s_sorted 10;
    s_p90 ← percentile s_sorted 90;
    t_mae ← mean ((λ r, Qabs (r - 3)) <$> t_ratios);
    s_mae ← mean ((λ r, Qabs (r - -3)) <$> s_ratios);
    Ok (Reported {|
      ws_n := length t_ratios;
      t_med := py_round t_med 3; t_p10 := py_round t_p10 3;
      t_p90 := py_round t_p90 3; t_mae := py_round t_mae 3;
      s_med := py_round s_med 3; s_p10 := py_round s_p10 3;
      s_p90 := py_round s_p90 3; s_mae := py_round s_mae 3 |})
  else Ok (InsufficientData (length t_ratios)).

(** The body of [for window_sec in [5, 10, 30, 60]]. *)
Definition rolling_ratio (qqq tqqq sqqq : list Tick) (window_sec : Z)
    : result WindowReport :=
  let window_ms := window_sec * 1000 in
  let step := Nat.max 1 (length qqq / 500) in
  '(t_ratios, s_ratios) ←
    collect_ratios qqq tqqq sqqq window_ms (py_range 0 (length qqq) step) [] [];
  window_report t_ratios s_ratios.

(** ** Part 2: price response lag *)

Definition move_threshold_pct : Q := 0.03.
Definition move_window_ms : Z := 10000.
Definition watch_steps : list Z := [0; 1000; 2000; 5000; 10000; 20000; 30000].

Inductive Direction : Set := UP | DOWN.

(** The dict appended to [move_events]. *)
Record MoveEvent : Type := {
  direction : Direction;
  qqq_move_pct : Q;
  expected_tqqq : Q;
  tqqq_at_end : Q;
  t_achieved_pct : Q;
  t_catchup_ms : Z;
  expected_sqqq : Q;
  sqqq_at_end : Q;
  s_achieved_pct : Q
}.

(** [d[key]] on a dict keyed by offsets. *)
Definition dict_get (d : gmap Z Q) (key : Z) : result Q :=
  match d !! key with
  | Some v => Ok v
  | None => Raise KeyError
  end.

(** The loop filling [t_responses] and [s_responses]. *)
Fixpoint fill_responses (tqqq sqqq : list Tick) (q0_ms : Z) (t0_p s0_p : Q)
    (offsets : list Z) (t_responses s_responses : gmap Z Q)
    : result (gmap Z Q * gmap Z Q) :=
  match offsets with
  | [] => Ok (t_responses, s_responses)
  | offset :: rest =>
      let check_ms := q0_ms + move_window_ms + offset in
      t_check ← price_at_time tqqq check_ms;
      s_check ← price_at_time sqqq check_ms;
      t_actual_pct ← pct_change t0_p t_check.2;
      s_actual_pct ← pct_change s0_p s_check.2;
      fill_responses tqqq sqqq q0_ms t0_p s0_p rest
        (<[offset := t_actual_pct]> t_responses)
        (<[offset := s_actual_pct]> s_responses)
  end.

(** [(actual / expected * 100) if expected != 0 else 100]. *)
Definition pct_of_expected (actual expected : Q) : result Q :=
  if decide (¬ expected == 0)%Q then
    d ← fdiv actual expected;
    Ok (d * 100)%Q
  else Ok 100%Q.

(** The catch-up scan: [t_catchup_ms] starts at [-1] and the loop breaks at
    the first offset whose ratio reaches 90. *)
Fixpoint catchup_scan (t_responses : gmap Z Q) (expected_tqqq : Q)
    (offsets : list Z) : result Z :=
  match offsets with
  | [] => Ok (-1)
  | offset :: rest =>
      t_pct ← dict_get t_responses offset;
      ratio ← pct_of_expected t_pct expected_tqqq;
      if decide (90 <= ratio)%Q then Ok offset
      else catchup_scan t_responses expected_tqqq rest
  end.

(** One iteration of the detection loop over [qqq[i]]: [Ok None] is a
    [continue], [Ok (Some e)] the event appended to [move_events]. *)
Definition detect_move (qqq tqqq sqqq : list Tick) (i : nat)
    : result (option MoveEvent) :=
  '(q0_ms, q0_p) ← tick_at qqq i;
  '(q1_ms, q1_p) ← price_at_time qqq (q0_ms + move_window_ms);
  let gap := q1_ms - q0_ms in
  if decide (gap < 5000 ∨ gap > 15000) then Ok None
  else
    q_pct ← pct_change q0_p q1_p;
    if decide (Qabs q_pct < move_threshold_pct)%Q then Ok None
    else
      let direction := if decide (0 < q_pct)%Q then UP else DOWN in
      let expected_tqqq := (q_pct * 3)%Q in
      let expected_sqqq := (q_pct * -3)%Q in
      '(t0_ms, t0_p) ← price_at_time tqqq q0_ms;
      '(s0_ms, s0_p) ← price_at_time sqqq q0_ms;
      '(t_responses, s_responses) ←
        fill_responses tqqq sqqq q0_ms t0_p s0_p watch_steps ∅ ∅;
      t_at_end ← dict_get t_responses 0;
      s_at_end ← dict_get s_responses 0;
      t_achieved ← pct_of_expected t_at_end expected_tqqq;
      s_achieved ← pct_of_expected s_at_end expected_sqqq;
      t_catchup_ms ← catchup_scan t_responses expected_tqqq watch_steps;
      Ok (Some {|
        direction := direction;
        qqq_move_pct := py_round q_pct 4;
        expected_tqqq := py_round expected_tqqq 4;
        tqqq_at_end := py_round t_at_end 4;
        t_achieved_pct := py_round t_achieved 1;
        t_catchup_ms := t_catchup_ms;
        expected_sqqq := py_round expected_sqqq 4;
        sqqq_at_end := py_round s_at_end 4;
        s_achieved_pct := py_round s_achieved 1 |}).

(** The loop [for i in range(0, len(qqq), step)] building [move_events]. *)
Fixpoint collect_moves (qqq tqqq sqqq : list Tick) (idxs : list nat)
    (move_events : list MoveEvent) : result (list MoveEvent) :=
  match idxs with
  | [] => Ok move_events
  | i :: rest =>
      r ← detect_move qqq tqqq sqqq i;
      match r with
      | Some e => collect_moves qqq tqqq sqqq rest (move_events ++ [e])
      | None => collect_moves qqq tqqq sqqq rest move_events
      end
  end.

Definition move_lag (qqq tqqq sqqq : list Tick) : result (list MoveEvent) :=
  let step := Nat.max 1 (length qqq / 1000) in
  collect_moves qqq tqqq sqqq (py_range 0 (length qqq) step) [].

(** ** Part 3: stop-trigger scenario *)

Definition cooldown_ms : Z := 60000.

(** The dict appended to [trigger_events]. *)
Record TriggerEvent : Type := {
  qqq_drop : Q;
  tqqq_drop : Q;
  ratio : Q;
  tick_gap_ms : Z
}.

(** The variables the loop over one [stop_pct] mutates. *)
Record StopState : Type := {
  hwm : Q;
  t_hwm : Q;
  last_trigger_ms : Z;
  trigger_events : list TriggerEvent
}.

(** The block under [# Update HWMs]: returns the new [(hwm, t_hwm)]. *)
Definition update_hwms (hwm t_hwm q_p t_p : Q) : Q * Q :=
  let '(hwm, t_hwm) :=
    if decide (hwm < q_p)%Q then (q_p, t_p) else (hwm, t_hwm) in
  let t_hwm := if decide (t_hwm < t_p)%Q then t_p else t_hwm in
  (hwm, t_hwm).

(** [(hwm - p) / hwm * 100], the percentage drop of [p] from [hwm]. *)
Definition drawdown (hwm p : Q) : result Q :=
  d ← fdiv (hwm - p) hwm;
  Ok (d * 100)%Q.

(** The trigger condition of the [if] in the loop body. *)
Definition trigger_cond (stop_pct q_drop : Q) (q_ms last_trigger_ms : Z) : Prop :=
  (stop_pct <= q_drop)%Q ∧ (q_drop < stop_pct + 0.05)%Q
  ∧ q_ms - last_trigger_ms > cooldown_ms.

#[global] Instance trigger_cond_dec stop_pct q_drop q_ms last :
  Decision (trigger_cond stop_pct q_drop q_ms last).
Proof. unfold trigger_cond. apply _. Defined.

(** One iteration of the loop over [qqq[i]]. *)
Definition stop_step (stop_pct : Q) (qqq tqqq : list Tick) (st : StopState)
    (i : nat) : result StopState :=
  '(q_ms, q_p) ← tick_at qqq i;
  t_cur ← price_at_time tqqq q_ms;
  let '(hwm, t_hwm) := update_hwms (hwm st) (t_hwm st) q_p t_cur.2 in
  q_drop ← drawdown hwm q_p;
  if decide (trigger_cond stop_pct q_drop q_ms (last_trigger_ms st)) then
    t_drop ← drawdown t_hwm t_cur.2;
    ratio ← (if decide (0 < q_drop)%Q then fdiv t_drop q_drop else Ok 0%Q);
    Ok {| hwm := q_p;
          t_hwm := t_cur.2;
          last_trigger_ms := q_ms;
          trigger_events := trigger_events st ++ [ {|
            qqq_drop := py_round q_drop 4;
            tqqq_drop := py_round t_drop 4;
            ratio := py_round ratio 3;
            tick_gap_ms := Z.abs (t_cur.1 - q_ms) |} ] |}
  else
    Ok {| hwm := hwm;
          t_hwm := t_hwm;
          last_trigger_ms := last_trigger_ms st;
          trigger_events := trigger_events st |}.

(** The loop [for i in range(1, len(qqq), step)]. *)
Fixpoint stop_loop (stop_pct : Q) (qqq tqqq : list Tick) (st : StopState)
    (idxs : list nat) : result StopState :=
  match idxs with
  | [] => Ok st
  | i :: rest =>
      st' ← stop_step stop_pct qqq tqqq st i;
      stop_loop stop_pct qqq tqqq st' rest
  end.

(** The body of [for stop_pct in [0.2, 0.5]] up to the end of the loop. *)
Definition stop_trigger (stop_pct : Q) (qqq tqqq : list Tick) : result StopState :=
  q_first ← tick_at qqq 0;
  t_first ← tick_at tqqq 0;
  let st := {| hwm := q_first.2; t_hwm := t_first.2;
               last_trigger_ms := 0; trigger_events := [] |} in
  let step := Nat.max 1 (length qqq / 3000) in
  stop_loop stop_pct qqq tqqq st (py_range 1 (length qqq) step).

(** *** Observations on a run of the simulator *)

(** A trigger was recorded by the step from [st] to [st']. *)
Definition fired (st st' : StopState) : Prop :=
  ∃ ev, trigger_events st' = trigger_events st ++ [ev].

(** The timestamps of the ticks at which [stop_loop] records a trigger. *)
Fixpoint trigger_times (stop_pct : Q) (qqq tqqq : list Tick) (st : StopState)
    (idxs : list nat) : list Z :=
  match idxs with
  | [] => []
  | i :: rest =>
      match stop_step stop_pct qqq tqqq st i, tick_at qqq i with
      | Ok st', Ok (q_ms, _) =>
          (if decide (length (trigger_events st) < length (trigger_events st'))%nat
           then [q_ms] else [])
          ++ trigger_times stop_pct qqq tqqq st' rest
      | _, _ => []
      end
  end.

(** ** Loading and filtering ticks *)

(** [list.sort(key=...)] and [sorted(..., key=...)]: the stable ascending
    sort, written as insertion from the right; [leb x y] tells whether the
    key of [x] is at most the key of [y]. *)
Fixpoint insert_by {A : Type} (leb : A → A → bool) (x : A) (l : list A) : list A :=
  match l with
  | [] => [x]
  | y :: rest => if leb x y then x :: y :: rest else y :: insert_by leb x rest
  end.

Definition stable_sort {A : Type} (leb : A → A → bool) (l : list A) : list A :=
  foldr (insert_by leb) [] l.

(** [row[i]] on a row of the CSV reader. *)
Definition row_at (row : list string) (i : nat) : result string :=
  match row !! i with
  | Some field => Ok field
  | None => Raise IndexError
  end.

(** The body of the loop of [load_ticks] over one row.  [float_of_str] is
    Python's [float] on a string and [iso_timestamp s] stands for
    [datetime.fromisoformat(s).timestamp()]; both belong to the Python
    library and are parameters. *)
Definition parse_row (float_of_str iso_timestamp : string → result Q)
    (row : list string) : result Tick :=
  ts_str ← row_at row 0;
  price_str ← row_at row 2;
  price ← float_of_str price_str;
  ts ← iso_timestamp ts_str;
  Ok (py_int (ts * 1000), price).

Fixpoint parse_rows (float_of_str iso_timestamp : string → result Q)
    (rows : list (list string)) (ticks : list Tick) : result (list Tick) :=
  match rows with
  | [] => Ok ticks
  | row :: rest =>
      tk ← parse_row float_of_str iso_timestamp row;
      parse_rows float_of_str iso_timestamp rest (ticks ++ [tk])
  end.

(** [load_ticks] from the rows the reader yields after the header: the
    loop, then [ticks.sort(key=lambda x: x[0])]. *)
Definition load_ticks (float_of_str iso_timestamp : string → result Q)
    (rows : list (list string)) : result (list Tick) :=
  ticks ← parse_rows float_of_str iso_timestamp rows [];
  Ok (stable_sort (λ a b : Tick, a.1 <=? b.1) ticks).

(** [filter_market_hours].  [int_of_str] is Python's [int] on a string and
    [utc_timestamp y m d H M S] stands for
    [datetime(y, m, d, H, M, S, tzinfo=timezone.utc).timestamp()]; both
    belong to the Python library and are parameters. *)
Definition filter_market_hours (int_of_str : string → result Z)
    (utc_timestamp : Z → Z → Z → Z → Z → Z → result Q)
    (ticks : list Tick) (date_str : string) : result (list Tick) :=
  year ← int_of_str (String.substring 0 4 date_str);
  month ← int_of_str (String.substring 4 2 date_str);
  day ← int_of_str (String.substring 6 2 date_str);
  mkt_open ← utc_timestamp year month day 14 30 0;
  mkt_close ← utc_timestamp year month day 21 0 0;
  let open_ms := py_int (mkt_open * 1000) in
  let close_ms := py_int (mkt_close * 1000) in
  Ok (filter (λ tk : Tick, open_ms ≤ tk.1 ≤ close_ms) ticks).

(** ** The reports of parts 2 and 3 *)

(** The figures printed after the detection loop. *)
Record MoveReport : Type := {
  mr_detected : nat;
  t_ach_med : Q; t_ach_p10 : Q; t_ach_p90 : Q;
  s_ach_med : Q; s_ach_p10 : Q; s_ach_p90 : Q;
  cu_immediate : nat; cu_within_1s : nat; cu_within_5s : nat;
  cu_within_10s : nat; cu_within_30s : nat; cu_never : nat;
  worst_t : list MoveEvent;
  worst_s : list MoveEvent
}.

(** The block [if move_events: ... else: ...]; [None] is the line
    "No QQQ moves detected above threshold". *)
Definition move_report (move_events : list MoveEvent) : result (option MoveReport) :=
  match move_events with
  | [] => Ok None
  | _ :: _ =>
      let t_achieved_all := sorted (t_achieved_pct <$> move_events) in
      let s_achieved_all := sorted (s_achieved_pct <$> move_events) in
      t_ach_med ← percentile t_achieved_all 50;
      t_ach_p10 ← percentile t_achieved_all 10;
      t_ach_p90 ← percentile t_achieved_all 90;
      s_ach_med ← percentile s_achieved_all 50;
      s_ach_p10 ← percentile s_achieved_all 10;
      s_ach_p90 ← percentile s_achieved_all 90;
      let catchups := filter (λ e, 0 ≤ t_catchup_ms e) move_events in
      let no_catchup := filter (λ e, t_catchup_ms e < 0) move_events in
      Ok (Some {|
        mr_detected := length move_events;
        t_ach_med := py_round t_ach_med 1;
        t_ach_p10 := py_round t_ach_p10 1;
        t_ach_p90 := py_round t_ach_p90 1;
        s_ach_med := py_round s_ach_med 1;
        s_ach_p10 := py_round s_ach_p10 1;
        s_ach_p90 := py_round s_ach_p90 1;
        cu_immediate := length (filter (λ e, t_catchup_ms e = 0) catchups);
        cu_within_1s := length (filter (λ e, t_catchup_ms e ≤ 1000) catchups);
        cu_within_5s := length (filter (λ e, t_catchup_ms e ≤ 5000) catchups);
        cu_within_10s := length (filter (λ e, t_catchup_ms e ≤ 10000) catchups);
        cu_within_30s := length (filter (λ e, t_catchup_ms e ≤ 30000) catchups);
        cu_never := length no_catchup;
        worst_t :=
          take 5 (stable_sort
                    (λ a b, Qle_bool (t_achieved_pct a) (t_achieved_pct b))
                    move_events);
        worst_s :=
          take 5 (stable_sort
                    (λ a b, Qle_bool (s_achieved_pct a) (s_achieved_pct b))
                    move_events) |})
  end.

(** [xs[i]] on a list of floats, for a non-negative index. *)
Definition float_at (xs : list Q) (i : nat) : result Q :=
  match xs !! i with
  | Some x => Ok x
  | None => Raise IndexError
  end.

(** [xs[-1]]. *)
Definition float_last (xs : list Q) : result Q :=
  match last xs with
  | Some x => Ok x
  | None => Raise IndexError
  end.

(** The figures printed for one stop threshold. *)
Record StopReport : Type := {
  sr_n : nat;
  r_mean : Q; r_med : Q; r_min : Q; r_max : Q
}.

(** The block [if trigger_events: ... else: ...]; [None] is the line
    "no trigger events". *)
Definition stop_report (trigger_events : list TriggerEvent)
    : result (option StopReport) :=
  match trigger_events with
  | [] => Ok None
  | _ :: _ =>
      let ratios := sorted (ratio <$> trigger_events) in
      r_med ← percentile ratios 50;
      r_min ← float_at ratios 0;
      r_max ← float_last ratios;
      r_mean ← mean ratios;
      Ok (Some {|
        sr_n := length trigger_events;
        r_mean := py_round r_mean 3;
        r_med := py_round r_med 3;
        r_min := py_round r_min 3;
        r_max := py_round r_max 3 |})
  end.

(** ** One session *)

Inductive SessionReport : Type :=
  | TooFewTicks
  | Analysed (windows : list WindowReport) (moves : option MoveReport)
             (stops : list (option StopReport)).

(** The body of [for date in DATES] once the three series are loaded and
    filtered: the guard on the tick counts, then the three parts. *)
Definition analyse_session (qqq tqqq sqqq : list Tick) : result SessionReport :=
  if decide (length qqq < 100 ∨ length tqqq < 100 ∨ length sqqq < 100)%nat
  then Ok TooFewTicks
  else
    windows ← mapM (rolling_ratio qqq tqqq sqqq) [5; 10; 30; 60];
    move_events ← move_lag qqq tqqq sqqq;
    moves ← move_report move_events;
    stops ← mapM (λ stop_pct,
                    st ← stop_trigger stop_pct qqq tqqq;
                    stop_report (trigger_events st)) [0.2; 0.5]%Q;
    Ok (Analysed windows moves stops).

(** ** Reference notions used to state the properties *)

(** The percentage move of a derived series between its anchor price [p0]
    and its tick nearest [q0_ms + move_window_ms + offset]. *)
Definition response_at (derived : list Tick) (q0_ms : Z) (p0 : Q) (offset : Z)
    : result Q :=
  chk ← price_at_time derived (q0_ms + move_window_ms + offset);
  pct_change p0 chk.2.

(** Response of a derived series at [offset], divided by the expected move
    [reference move * leverage], times 100, for the detection at [qqq[i]]. *)
Definition spec_ratio_at (qqq derived : list Tick) (leverage : Q) (i : nat)
    (offset : Z) : result Q :=
  '(q0_ms, q0_p) ← tick_at qqq i;
  '(q1_ms, q1_p) ← price_at_time qqq (q0_ms + move_window_ms);
  q_pct ← pct_change q0_p q1_p;
  '(d0_ms, d0_p) ← price_at_time derived q0_ms;
  response ← response_at derived q0_ms d0_p offset;
  d ← fdiv response (q_pct * leverage);
  Ok (d * 100)%Q.

(** First offset of the ladder at which the ratio reaches 90, else [-1]. *)
Fixpoint spec_first_reaching (ratio_at : Z → result Q) (offsets : list Z)
    : result Z :=
  match offsets with
  | [] => Ok (-1)
  | offset :: rest =>
      r ← ratio_at offset;
      if decide (90 <= r)%Q then Ok offset
      else spec_first_reaching ratio_at rest
  end.

(** The catch-up offset of a derived series as the specification words it. *)
Definition spec_catchup_offset_ms (qqq derived : list Tick) (leverage : Q)
    (i : nat) : result Z :=
  spec_first_reaching (spec_ratio_at qqq derived leverage i) watch_steps.

(** Running maximum of a start value and the prices seen after it. *)
Definition running_max (start : Q) (prices : list Q) : Q :=
  foldl (λ m p, if decide (m < p)%Q then p else m) start prices.

(** The acceptance conditions of the rolling sampler at [qqq[i]]: the gap to
    the reference tick nearest [T + window] lies within [0.5, 1.5] times the
    window and the reference move is at least the 0.005% noise floor. *)
Definition sample_accepted (qqq : list Tick) (window_ms : Z) (i : nat) : Prop :=
  ∃ q0_ms q0_p q1_ms q1_p q_pct,
    tick_at qqq i = Ok (q0_ms, q0_p)
    ∧ price_at_time qqq (q0_ms + window_ms) = Ok (q1_ms, q1_p)
    ∧ (inject_Z window_ms * 0.5 <= inject_Z (q1_ms - q0_ms))%Q
    ∧ (inject_Z (q1_ms - q0_ms) <= inject_Z window_ms * 1.5)%Q
    ∧ pct_change q0_p q1_p = Ok q_pct
    ∧ (0.005 <= Qabs q_pct)%Q.

(** The prices the simulator reads at [qqq[i]]: the reference price and the
    price of the derived tick nearest in time. *)
Definition observe (qqq tqqq : list Tick) (i : nat) : result (Q * Q) :=
  '(q_ms, q_p) ← tick_at qqq i;
  t_cur ← price_at_time tqqq q_ms;
  Ok (q_p, t_cur.2).

(** The two high-water marks after a run of HWM updates without trigger. *)
Definition hwm_run (hwm t_hwm : Q) (obs : list (Q * Q)) : Q * Q :=
  foldl (λ acc o, update_hwms acc.1 acc.2 o.1 o.2) (hwm, t_hwm) obs.

(** Each time of the list is more than the cooldown after the one before
    it, the first one after [last]. *)
Fixpoint spaced (last : Z) (times : list Z) : Prop :=
  match times with
  | [] => True
  | t :: rest => t - last > cooldown_ms ∧ spaced t rest
  end.

(** The figures of a recorded trigger are in their natural ranges: the
    reference drawdown within the rounded band, the derived drawdown between
    0 and 100, the ratio and the tick gap not negative. *)
Definition event_in_range (stop_pct : Q) (ev : TriggerEvent) : Prop :=
  (py_round stop_pct 4 <= qqq_drop ev)%Q
  ∧ (qqq_drop ev <= py_round (stop_pct + 0.05) 4)%Q
  ∧ (0 <= tqqq_drop ev)%Q ∧ (tqqq_drop ev <= 100)%Q
  ∧ (0 <= ratio ev)%Q
  ∧ 0 ≤ tick_gap_ms ev.

(** ** Sample series *)

(** A reference move of +1% over ten seconds. *)
Definition qqq_up : list Tick := [(0, 100%Q); (10000, 101%Q)].

(** A long series at 50% of the expected +3% when the move ends and at 95%
    five seconds later. *)
Definition tqqq_lag : list Tick :=
  [(0, 100%Q); (10000, 101.5%Q); (15000, 102.85%Q); (40000, 103%Q)].

(** An inverse series stuck at 50% of the expected -3%. *)
Definition sqqq_stuck : list Tick :=
  [(0, 100%Q); (10000, 98.5%Q); (40000, 98.5%Q)].

(** An inverse series at 50% when the move ends and at 100% five seconds
    later. *)
Definition sqqq_late : list Tick :=
  [(0, 100%Q); (10000, 98.5%Q); (15000, 97%Q); (40000, 97%Q)].

(** The event recorded for [qqq_up] and [tqqq_lag] with either inverse
    series. *)
Definition lagging_event : MoveEvent := {|
  direction := UP;
  qqq_move_pct := py_round 1 4;
  expected_tqqq := py_round 3 4;
  tqqq_at_end := py_round 1.5 4;
  t_achieved_pct := py_round 50 1;
  t_catchup_ms := 5000;
  expected_sqqq := py_round (-3) 4;
  sqqq_at_end := py_round (-1.5) 4;
  s_achieved_pct := py_round 50 1 |}.

(** Ticks every five seconds on a straight price line. *)
Definition ramp (base slope : Q) (n : nat) : list Tick :=
  (λ k, (5000 * Z.of_nat k, (base + slope * inject_Z (Z.of_nat k))%Q)) <$> seq 0 n.

Definition qqq_ramp : list Tick := ramp 100 1 20.
Definition tqqq_ramp : list Tick := ramp 100 3 20.
Definition sqqq_ramp : list Tick := ramp 100 (-3) 20.

(** The reference makes a new high at the last tick while the long series
    is below its earlier peak. *)
Definition qqq_new_high : list Tick := [(0, 100%Q); (1000, 100%Q); (2000, 101%Q)].
Definition tqqq_off_peak : list Tick := [(0, 50%Q); (1000, 60%Q); (2000, 55%Q)].

(** Two drops of exactly 0.5% from the high-water mark, the second seen
    exactly 60 s after the first and again one millisecond later. *)
Definition qqq_cool : list Tick :=
  [(0, 100%Q); (100000, 99.5%Q); (160000, 99.0025%Q); (160001, 99.0025%Q)].
Definition tqqq_cool : list Tick :=
  [(0, 100%Q); (100000, 98.5%Q); (160000, 97%Q); (160001, 97%Q)].

(** The state of the simulator on [qqq_cool] before its loop. *)
Definition cool_start : StopState :=
  {| hwm := 100; t_hwm := 100; last_trigger_ms := 0; trigger_events := [] |}.

(** A reference falling from 100 to 99 in eleven ticks a second apart. *)
Definition qqq_fall : list Tick :=
  (λ k, (100000 + 1000 * Z.of_nat k, (100 - 0.1 * inject_Z (Z.of_nat k))%Q))
    <$> seq 0 11.
Definition tqqq_fall : list Tick :=
  (λ k, (100000 + 1000 * Z.of_nat k, (100 - 0.3 * inject_Z (Z.of_nat k))%Q))
    <$> seq 0 11.

(** Stand-ins for the library parsers in examples: a field is read as its
    length, a date as a fixed day, a time of day as its seconds. *)
Definition sample_number (field : string) : result Q :=
  Ok (inject_Z (Z.of_nat (String.length field))).
Definition sample_int (field : string) : result Z :=
  Ok (Z.of_nat (String.length field)).
Definition sample_utc (year month day hour minute second : Z) : result Q :=
  Ok (inject_Z (hour * 3600 + minute * 60 + second)).

(** Ticks before, at the edges of, inside and after the window of
    [sample_utc]: 14:30 is 52 200 s and 21:00 is 75 600 s. *)
Definition day_ticks : list Tick :=
  [(52199999, 1%Q); (52200000, 2%Q); (60000000, 3%Q); (75600000, 4%Q);
   (75600001, 5%Q)].

(** Three series of one hundred ticks, the least a session analyses. *)
Definition qqq_100 : list Tick := ramp 100 1 100.
Definition tqqq_100 : list Tick := ramp 100 3 100.
Definition sqqq_100 : list Tick := ramp 1000 (-3) 100.

(** * The engine on binary64 floats *)

(** The functions above read prices as exact rationals.  The module below
    embeds the same source functions with prices and every quantity derived
    from them as IEEE 754 binary64 values, the Python [float]: [+], [-],
    [*], [/] round to nearest (ties to even), comparisons with a NaN are
    false, and division by a zero of either sign raises.  An [int] operand
    of a mixed expression ([* 100], [* 3], [* -3], [>= 90], [!= 0]) is the
    float of the same value.  The builtin [round] belongs to the Python
    library and is a parameter of the functions that call it. *)
Module F64.

Abbreviation Tick := (Z * float)%type.

(** [ticks[i]] for a non-negative index. *)
Definition tick_at (ticks : list Tick) (i : nat) : result Tick :=
  match ticks !! i with
  | Some tk => Ok tk
  | None => Raise IndexError
  end.

(** The loop [while lo < hi: ...] of [find_nearest_idx]. *)
Fixpoint bisect_loop (fuel : nat) (ticks : list Tick) (target_ms : Z)
    (lo hi : nat) : result nat :=
  if decide (lo < hi)%nat then
    match fuel with
    | O => Raise OutOfFuel
    | S fuel' =>
        let mid := ((lo + hi) / 2)%nat in
        tk ← tick_at ticks mid;
        if decide (tk.1 < target_ms)
        then bisect_loop fuel' ticks target_ms (mid + 1) hi
        else bisect_loop fuel' ticks target_ms lo mid
    end
  else Ok lo.

Definition find_nearest_idx (ticks : list Tick) (target_ms : Z) : result nat :=
  let n := length ticks in
  if decide (n = 0)%nat then Ok 0%nat
  else
    lo ← bisect_loop n ticks target_ms 0 (n - 1);
    if decide (0 < lo)%nat then
      t_lo ← tick_at ticks lo;
      t_prev ← tick_at ticks (lo - 1);
      if decide (Z.abs (t_lo.1 - target_ms) > Z.abs (t_prev.1 - target_ms))
      then Ok (lo - 1)%nat
      else Ok lo
    else Ok lo.

Definition price_at_time (ticks : list Tick) (ms : Z) : result Tick :=
  idx ← find_nearest_idx ticks ms;
  tick_at ticks idx.

(** ** Float arithmetic *)

(** [a / b]: raises on a divisor equal to zero ([0.0] or [-0.0]). *)
Definition fdiv (a b : float) : result float :=
  if (b =? 0)%float then Raise ZeroDivisionError else Ok (a / b)%float.

(** [(p1 - p0) / p0 * 100]. *)
Definition pct_change (p0 p1 : float) : result float :=
  d ← fdiv (p1 - p0) p0;
  Ok (d * 100)%float.

(** The rational a finite float stands for, in lowest terms; [None] for an
    infinity or a NaN. *)
Definition exact (x : float) : option Q :=
  match Prim2SF x with
  | S754_zero _ => Some 0%Q
  | S754_finite s m e =>
      let n := if s then Z.neg m else Z.pos m in
      Some (if 0 <=? e then inject_Z (n * 2 ^ e)
            else Qred (Qmake n (Z.to_pos (2 ^ (- e)))))
  | S754_infinity _ | S754_nan => None
  end.

(** [int(x)] on a float: truncation toward zero of its value;
    [OverflowError] for an infinity and [ValueError] for a NaN. *)
Definition int_of_float (x : float) : result Z :=
  match Prim2SF x with
  | S754_infinity _ => Raise OverflowError
  | S754_nan => Raise ValueError
  | _ => Ok (py_int (default 0%Q (exact x)))
  end.

(** [float(n)] for a list length (lists have fewer than [2 ^ 63]
    elements). *)
Definition float_of_nat (n : nat) : float :=
  PrimFloat.of_uint63 (Uint63.of_Z (Z.of_nat n)).

(** ** percentile *)

(** [pct] is read as a float.  The call sites pass the ints 50, 10 and 90:
    there [len * pct] is an exact int product and [/ 100] its correctly
    rounded quotient, which the float product and quotient below also give
    as long as [len * pct] is below [2 ^ 53]. *)
Definition percentile (sorted_list : list float) (pct : float) : result float :=
  match sorted_list with
  | [] => Ok 0%float
  | _ :: _ =>
      idx ← int_of_float (float_of_nat (length sorted_list) * pct / 100)%float;
      let idx := Z.max 0 (Z.min idx (Z.of_nat (length sorted_list) - 1)) in
      match sorted_list !! Z.to_nat idx with
      | Some x => Ok x
      | None => Raise IndexError
      end
  end.

(** ** Part 2: price response lag *)

Definition move_threshold_pct : float := 0.03.

(** The dict appended to [move_events]. *)
Record MoveEvent : Type := {
  direction : Direction;
  qqq_move_pct : float;
  expected_tqqq : float;
  tqqq_at_end : float;
  t_achieved_pct : float;
  t_catchup_ms : Z;
  expected_sqqq : float;
  sqqq_at_end : float;
  s_achieved_pct : float
}.

(** [d[key]] on a dict keyed by offsets. *)
Definition dict_get (d : gmap Z float) (key : Z) : result float :=
  match d !! key with
  | Some v => Ok v
  | None => Raise KeyError
  end.

(** The loop filling [t_responses] and [s_responses]. *)
Fixpoint fill_responses (tqqq sqqq : list Tick) (q0_ms : Z) (t0_p s0_p : float)
    (offsets : list Z) (t_responses s_responses : gmap Z float)
    : result (gmap Z float * gmap Z float) :=
  match offsets with
  | [] => Ok (t_responses, s_responses)
  | offset :: rest =>
      let check_ms := q0_ms + move_window_ms + offset in
      t_check ← price_at_time tqqq check_ms;
      s_check ← price_at_time sqqq check_ms;
      t_actual_pct ← pct_change t0_p t_check.2;
      s_actual_pct ← pct_change s0_p s_check.2;
      fill_responses tqqq sqqq q0_ms t0_p s0_p rest
        (<[offset := t_actual_pct]> t_responses)
        (<[offset := s_actual_pct]> s_responses)
  end.

(** [(actual / expected * 100) if expected != 0 else 100]. *)
Definition pct_of_expected (actual expected : float) : result float :=
  if negb (expected =? 0)%float then
    d ← fdiv actual expected;
    Ok (d * 100)%float
  else Ok 100%float.

(** The catch-up scan: [t_catchup_ms] starts at [-1] and the loop breaks at
    the first offset whose ratio reaches 90. *)
Fixpoint catchup_scan (t_responses : gmap Z float) (expected_tqqq : float)
    (offsets : list Z) : result Z :=
  match offsets with
  | [] => Ok (-1)
  | offset :: rest =>
      t_pct ← dict_get t_responses offset;
      ratio ← pct_of_expected t_pct expected_tqqq;
      if (90 <=? ratio)%float then Ok offset
      else catchup_scan t_responses expected_tqqq rest
  end.

(** ** Part 3: stop-trigger scenario *)

(** The dict appended to [trigger_events]. *)
Record TriggerEvent : Type := {
  qqq_drop : float;
  tqqq_drop : float;
  ratio : float;
  tick_gap_ms : Z
}.

(** The variables the loop over one [stop_pct] mutates. *)
Record StopState : Type := {
  hwm : float;
  t_hwm : float;
  last_trigger_ms : Z;
  trigger_events : list TriggerEvent
}.

(** The block under [# Update HWMs]: returns the new [(hwm, t_hwm)]. *)
Definition update_hwms (hwm t_hwm q_p t_p : float) : float * float :=
  let '(hwm, t_hwm) :=
    if (hwm <? q_p)%float then (q_p, t_p) else (hwm, t_hwm) in
  let t_hwm := if (t_hwm <? t_p)%float then t_p else t_hwm in
  (hwm, t_hwm).

(** [(hwm - p) / hwm * 100]. *)
Definition drawdown (hwm p : float) : result float :=
  d ← fdiv (hwm - p) hwm;
  Ok (d * 100)%float.

(** The condition of the [if] in the loop body:
    [q_drop >= stop_pct and q_drop < (stop_pct + 0.05)
     and (q_ms - last_trigger_ms) > cooldown_ms]. *)
Definition trigger_cond (stop_pct q_drop : float) (q_ms last_trigger_ms : Z) : bool :=
  (stop_pct <=? q_drop)%float && (q_drop <? stop_pct + 0.05)%float
  && bool_decide (q_ms - last_trigger_ms > cooldown_ms).

Section with_round.

(** [round x ndigits] stands for Python's [round(x, ndigits)] on a float. *)
Variable round : float → Z → float.

(** One iteration of the detection loop over [qqq[i]]: [Ok None] is a
    [continue], [Ok (Some e)] the event appended to [move_events]. *)
Definition detect_move (qqq tqqq sqqq : list Tick) (i : nat)
    : result (option MoveEvent) :=
  '(q0_ms, q0_p) ← tick_at qqq i;
  '(q1_ms, q1_p) ← price_at_time qqq (q0_ms + move_window_ms);
  let gap := q1_ms - q0_ms in
  if decide (gap < 5000 ∨ gap > 15000) then Ok None
  else
    q_pct ← pct_change q0_p q1_p;
    if (PrimFloat.abs q_pct <? move_threshold_pct)%float then Ok None
    else
      let direction := if (0 <? q_pct)%float then UP else DOWN in
      let expected_tqqq := (q_pct * 3)%float in
      let expected_sqqq := (q_pct * -3)%float in
      '(t0_ms, t0_p) ← price_at_time tqqq q0_ms;
      '(s0_ms, s0_p) ← price_at_time sqqq q0_ms;
      '(t_responses, s_responses) ←
        fill_responses tqqq sqqq q0_ms t0_p s0_p watch_steps ∅ ∅;
      t_at_end ← dict_get t_responses 0;
      s_at_end ← dict_get s_responses 0;
      t_achieved ← pct_of_expected t_at_end expected_tqqq;
      s_achieved ← pct_of_expected s_at_end expected_sqqq;
      t_catchup_ms ← catchup_scan t_responses expected_tqqq watch_steps;
      Ok (Some {|
        direction := direction;
        qqq_move_pct := round q_pct 4;
        expected_tqqq := round expected_tqqq 4;
        tqqq_at_end := round t_at_end 4;
        t_achieved_pct := round t_achieved 1;
        t_catchup_ms := t_catchup_ms;
        expected_sqqq := round expected_sqqq 4;
        sqqq_at_end := round s_at_end 4;
        s_achieved_pct := round s_achieved 1 |}).

(** The loop [for i in range(0, len(qqq), step)] building [move_events]. *)
Fixpoint collect_moves (qqq tqqq sqqq : list Tick) (idxs : list nat)
    (move_events : list MoveEvent) : result (list MoveEvent) :=
  match idxs with
  | [] => Ok move_events
  | i :: rest =>
      r ← detect_move qqq tqqq sqqq i;
      match r with
      | Some e => collect_moves qqq tqqq sqqq rest (move_events ++ [e])
      | None => collect_moves qqq tqqq sqqq rest move_events
      end
  end.

Definition move_lag (qqq tqqq sqqq : list Tick) : result (list MoveEvent) :=
  let step := Nat.max 1 (length qqq / 1000) in
  collect_moves qqq tqqq sqqq (py_range 0 (length qqq) step) [].

(** One iteration of the loop over [qqq[i]]. *)
Definition stop_step (stop_pct : float) (qqq tqqq : list Tick) (st : StopState)
    (i : nat) : result StopState :=
  '(q_ms, q_p) ← tick_at qqq i;
  t_cur ← price_at_time tqqq q_ms;
  let '(hwm, t_hwm) := update_hwms (hwm st) (t_hwm st) q_p t_cur.2 in
  q_drop ← drawdown hwm q_p;
  if trigger_cond stop_pct q_drop q_ms (last_trigger_ms st) then
    t_drop ← drawdown t_hwm t_cur.2;
    ratio ← (if (0 <? q_drop)%float then fdiv t_drop q_drop else Ok 0%float);
    Ok {| hwm := q_p;
          t_hwm := t_cur.2;
          last_trigger_ms := q_ms;
          trigger_events := trigger_events st ++ [ {|
            qqq_drop := round q_drop 4;
            tqqq_drop := round t_drop 4;
            ratio := round ratio 3;
            tick_gap_ms := Z.abs (t_cur.1 - q_ms) |} ] |}
  else
    Ok {| hwm := hwm;
          t_hwm := t_hwm;
          last_trigger_ms := last_trigger_ms st;
          trigger_events := trigger_events st |}.

(** The loop [for i in range(1, len(qqq), step)]. *)
Fixpoint stop_loop (stop_pct : float) (qqq tqqq : list Tick) (st : StopState)
    (idxs : list nat) : result StopState :=
  match idxs with
  | [] => Ok st
  | i :: rest =>
      st' ← stop_step stop_pct qqq tqqq st i;
      stop_loop stop_pct qqq tqqq st' rest
  end.

(** The body of [for stop_pct in [0.2, 0.5]] up to the end of the loop. *)
Definition stop_trigger (stop_pct : float) (qqq tqqq : list Tick)
    : result StopState :=
  q_first ← tick_at qqq 0;
  t_first ← tick_at tqqq 0;
  let st := {| hwm := q_first.2; t_hwm := t_first.2;
               last_trigger_ms := 0; trigger_events := [] |} in
  let step := Nat.max 1 (length qqq / 3000) in
  stop_loop stop_pct qqq tqqq st (py_range 1 (length qqq) step).

(** The timestamps of the ticks at which [stop_loop] records a trigger. *)
Fixpoint trigger_times (stop_pct : float) (qqq tqqq : list Tick) (st : StopState)
    (idxs : list nat) : list Z :=
  match idxs with
  | [] => []
  | i :: rest =>
      match stop_step stop_pct qqq tqqq st i, tick_at qqq i with
      | Ok st', Ok (q_ms, _) =>
          (if decide (length (trigger_events st) < length (trigger_events st'))%nat
           then [q_ms] else [])
          ++ trigger_times stop_pct qqq tqqq st' rest
      | _, _ => []
      end
  end.

End with_round.

(** *** Reference notions *)

(** A trigger was recorded by the step from [st] to [st']. *)
Definition fired (st st' : StopState) : Prop :=
  ∃ ev, trigger_events st' = trigger_events st ++ [ev].

(** The prices the simulator reads at [qqq[i]]: the reference price and the
    price of the derived tick nearest in time. *)
Definition observe (qqq tqqq : list Tick) (i : nat) : result (float * float) :=
  '(q_ms, q_p) ← tick_at qqq i;
  t_cur ← price_at_time tqqq q_ms;
  Ok (q_p, t_cur.2).

(** Running maximum of a start value and the prices seen after it, by the
    comparison [>] of the program. *)
Definition running_max (start : float) (prices : list float) : float :=
  foldl (λ m p, if (m <? p)%float then p else m) start prices.

(** The two high-water marks after a run of HWM updates without trigger. *)
Definition hwm_run (hwm t_hwm : float) (obs : list (float * float))
    : float * float :=
  foldl (λ acc o, update_hwms acc.1 acc.2 o.1 o.2) (hwm, t_hwm) obs.

(** A price a feed can deliver: above zero and finite. *)
Definition is_price (x : float) : bool :=
  (0 <? x)%float && (x <? infinity)%float.

(** A float that is zero, or positive and finite with an exponent of at
    most [k]: its value lies in [0, 2 ^ (k + 53)). *)
Definition nonneg_below (k : Z) (x : float) : Prop :=
  match Prim2SF x with
  | S754_zero _ => True
  | S754_finite s m e => s = false ∧ e ≤ k
  | S754_infinity _ | S754_nan => False
  end.

(** The reference move the detector measures at [qqq[i]]. *)
Definition reference_move (qqq : list Tick) (i : nat) : result float :=
  '(q0_ms, q0_p) ← tick_at qqq i;
  '(q1_ms, q1_p) ← price_at_time qqq (q0_ms + move_window_ms);
  pct_change q0_p q1_p.

(** The percentage move of a derived series between its tick nearest the
    start of the reference move at [qqq[i]] and its tick nearest the end of
    the move plus [offset]. *)
Definition response_at (qqq derived : list Tick) (i : nat) (offset : Z)
    : result float :=
  '(q0_ms, q0_p) ← tick_at qqq i;
  '(d0_ms, d0_p) ← price_at_time derived q0_ms;
  chk ← price_at_time derived (q0_ms + move_window_ms + offset);
  pct_change d0_p chk.2.

(** The ratio the detector computes for a derived series at [offset]: the
    response over the expected move [reference move * leverage], times 100,
    and 100 when the expected move equals zero. *)
Definition ratio_at (qqq derived : list Tick) (leverage : float) (i : nat)
    (offset : Z) : result float :=
  q_pct ← reference_move qqq i;
  response ← response_at qqq derived i offset;
  pct_of_expected response (q_pct * leverage)%float.

(** First offset of the ladder at which the computed ratio compares [>= 90],
    else [-1]. *)
Fixpoint first_reaching (ratio_at : Z → result float) (offsets : list Z)
    : result Z :=
  match offsets with
  | [] => Ok (-1)
  | offset :: rest =>
      r ← ratio_at offset;
      if (90 <=? r)%float then Ok offset
      else first_reaching ratio_at rest
  end.

(** The catch-up offset of a derived series. *)
Definition catchup_offset_ms (qqq derived : list Tick) (leverage : float)
    (i : nat) : result Z :=
  first_reaching (ratio_at qqq derived leverage i) watch_steps.

(** The series with each price replaced by the rational it stands for (0
    for a price that is not finite). *)
Definition exact_ticks (ticks : list Tick) : list (Z * Q) :=
  (λ tk, (tk.1, default 0%Q (exact tk.2))) <$> ticks.

(** *** A model of [round] *)

(** The float nearest [z / d] (ties to even). *)
Definition nearest_quotient (z : Z) (d : positive) : float :=
  match z with
  | Z0 => 0%float
  | Z.pos p => SF2Prim (SFdiv prec emax (S754_finite false p 0) (S754_finite false d 0))
  | Z.neg p => SF2Prim (SFdiv prec emax (S754_finite true p 0) (S754_finite false d 0))
  end.

(** [round(x, ndigits)] as CPython computes it for a float: the value of [x]
    is rounded to [ndigits] decimals, ties to even, and the decimal obtained
    is converted to the nearest float; infinities and NaNs are returned as
    they are, and a result that rounds to zero keeps the sign of [x]. *)
Definition py_round (x : float) (ndigits : Z) : float :=
  match exact x with
  | Some q =>
      let scale := 10 ^ ndigits in
      let z := round_half_even (q * inject_Z scale) in
      if z =? 0 then (if (x <? 0)%float then (-0)%float
                      else if (x =? 0)%float then x else 0%float)
      else nearest_quotient z (Z.to_pos scale)
  | None => x
  end.

(** *** Sample series *)

(** A reference move of +1% over ten seconds. *)
Definition qqq_up : list Tick := [(0, 100%float); (10000, 101%float)].

(** A long series at 50% of the expected +3% when the move ends and at 95%
    five seconds later. *)
Definition tqqq_lag : list Tick :=
  [(0, 100%float); (10000, 101.5%float); (15000, 102.85%float); (40000, 103%float)].

(** An inverse series stuck at 50% of the expected -3%. *)
Definition sqqq_stuck : list Tick :=
  [(0, 100%float); (10000, 98.5%float); (40000, 98.5%float)].

(** An inverse series at 50% of the expected -3% when the move ends and at
    100% five seconds later. *)
Definition sqqq_late : list Tick :=
  [(0, 100%float); (10000, 98.5%float); (15000, 97%float); (40000, 97%float)].

(** A reference move of 150 to 152 and a long series moving 250 to 259:
    3.6% where 4% is expected, 90% in real arithmetic. *)
Definition qqq_ninety : list Tick := [(0, 150%float); (10000, 152%float)].
Definition tqqq_ninety : list Tick := [(0, 250%float); (10000, 259%float)].
Definition sqqq_ninety : list Tick := [(0, 100%float); (10000, 96%float)].

(** The reference makes a new high at the last tick while the long series
    is below its earlier peak. *)
Definition qqq_new_high : list Tick :=
  [(0, 100%float); (1000, 100%float); (2000, 101%float)].
Definition tqqq_off_peak : list Tick :=
  [(0, 50%float); (1000, 60%float); (2000, 55%float)].

(** Two drops from the high-water mark into the band of threshold 0.5, the
    second seen 60 s after the first and again one millisecond later. *)
Definition qqq_cool : list Tick :=
  [(0, 100%float); (100000, 99.5%float); (160000, 99.0025%float);
   (160001, 99.0025%float)].
Definition tqqq_cool : list Tick :=
  [(0, 100%float); (100000, 98.5%float); (160000, 97%float); (160001, 97%float)].

(** The state of the simulator on [qqq_cool] before its loop. *)
Definition cool_start : StopState :=
  {| hwm := 100; t_hwm := 100; last_trigger_ms := 0; trigger_events := [] |}.

End F64.

(** * Properties *)

(** ** The result monad *)

Lemma result_bind_Ok {A B} (f : A → result B) (m : result A) (b : B) :
  m ≫= f = Ok b ↔ ∃ a, m = Ok a ∧ f a = Ok b.
Proof.
  destruct m as [a|e]; simpl; split.
  - intros H. by exists a.
  - by intros (a' & [= <-] & H).
  - done.
  - by intros (a' & [=] & _).
Qed.

Lemma tick_at_Ok ticks i tk : tick_at ticks i = Ok tk ↔ ticks !! i = Some tk.
Proof. unfold tick_at. destruct (ticks !! i); split; congruence. Qed.

Lemma tick_at_lt ticks i :
  (i < length ticks)%nat → ∃ tk, tick_at ticks i = Ok tk ∧ ticks !! i = Some tk.
Proof.
  intros Hi. destruct (lookup_lt_is_Some_2 ticks i Hi) as [tk Htk].
  exists tk. split; [by apply tick_at_Ok | done].
Qed.

(** Splitting a [bind] found in a hypothesis. *)
Ltac bind_inv H :=
  let a := fresh "a" in
  let Ha := fresh "Ha" in
  apply result_bind_Ok in H; destruct H as (a & Ha & H).

(** ** Sorted tick series *)

Lemma sorted_by_time_cons tk ticks :
  sorted_by_time (tk :: ticks) = true →
  sorted_by_time ticks = true ∧ ∀ j tj, ticks !! j = Some tj → tk.1 ≤ tj.1.
Proof.
  revert tk. induction ticks as [|tk' rest IH]; intros tk Hs.
  - split; [done | intros j tj Hj; by rewrite lookup_nil in Hj].
  - change (sorted_by_time (tk :: tk' :: rest))
      with ((tk.1 <=? tk'.1) && sorted_by_time (tk' :: rest)) in Hs.
    apply andb_true_iff in Hs as [Hle Hs]. apply Z.leb_le in Hle.
    split; [done|]. intros [|j] tj Hj.
    + injection Hj as <-. done.
    + destruct (IH tk' Hs) as [_ Hall]. specialize (Hall j tj Hj). lia.
Qed.

Lemma sorted_by_time_lookup ticks i j ti tj :
  sorted_by_time ticks = true → (i ≤ j)%nat →
  ticks !! i = Some ti → ticks !! j = Some tj → ti.1 ≤ tj.1.
Proof.
  revert i j. induction ticks as [|tk rest IH]; intros i j Hs Hij Hi Hj.
  - by rewrite lookup_nil in Hi.
  - destruct (sorted_by_time_cons _ _ Hs) as [Hs' Hall].
    destruct i as [|i], j as [|j]; simpl in *.
    + injection Hi as <-. injection Hj as <-. lia.
    + injection Hi as <-. by eapply Hall.
    + lia.
    + eapply (IH i j); [done | lia | done | done].
Qed.

(** ** Binary search *)

Lemma half_bounds lo hi :
  (lo < hi)%nat → (lo ≤ (lo + hi) / 2 < hi)%nat.
Proof.
  intros Hlt. pose proof (Nat.div_mod_eq (lo + hi) 2) as Hdm.
  pose proof (Nat.mod_upper_bound (lo + hi) 2). lia.
Qed.

Section bisect.
Variable ticks : list Tick.
Variable target_ms : Z.
Hypothesis Hsorted : sorted_by_time ticks = true.

(** The loop ends within [hi - lo] iterations on the first index of
    [lo..hi] whose timestamp is not below the target, or on [hi]. *)
Lemma bisect_loop_spec fuel lo hi :
  (lo ≤ hi)%nat → (hi < length ticks)%nat → (hi - lo ≤ fuel)%nat →
  ∃ r, bisect_loop fuel ticks target_ms lo hi = Ok r
    ∧ (lo ≤ r ≤ hi)%nat
    ∧ (∀ j tj, (lo ≤ j < r)%nat → ticks !! j = Some tj → tj.1 < target_ms)
    ∧ ((r < hi)%nat → ∀ tr, ticks !! r = Some tr → target_ms ≤ tr.1).
Proof.
  revert lo hi. induction fuel as [|fuel IH]; intros lo hi Hle Hhi Hfuel.
  - assert (lo = hi) as -> by lia. exists hi. simpl.
    destruct (decide (hi < hi)%nat); [lia|].
    split; [done|]. split; [lia|]. split; intros; lia.
  - cbn -[Nat.div]. destruct (decide (lo < hi)%nat) as [Hlt|Hnlt].
    + pose proof (half_bounds lo hi Hlt) as Hmid.
      set (mid := ((lo + hi) / 2)%nat) in *.
      destruct (tick_at_lt ticks mid) as (tk & -> & Hlk); [lia|]. cbn -[Nat.div].
      destruct (decide (tk.1 < target_ms)) as [Hbelow|Habove].
      * destruct (IH (mid + 1)%nat hi) as (r & Hr & Hrng & Hlow & Hup);
          [lia | lia | lia |].
        exists r. split; [done|]. split; [lia|]. split; [|done].
        intros j tj Hj Hlj. destruct (decide (j ≤ mid)%nat) as [Hjm|Hjm].
        -- pose proof (sorted_by_time_lookup ticks j mid tj tk Hsorted Hjm Hlj Hlk).
           lia.
        -- apply (Hlow j tj); [lia | done].
      * destruct (IH lo mid) as (r & Hr & Hrng & Hlow & Hup); [lia | lia | lia |].
        exists r. split; [done|]. split; [lia|]. split; [done|].
        intros _ tr Htr. destruct (decide (r < mid)%nat) as [Hrm|Hrm].
        -- by apply Hup.
        -- assert (Hrm' : r = mid) by lia. rewrite Hrm' in Htr.
           assert (tr = tk) as -> by congruence. lia.
    + assert (lo = hi) as -> by lia. exists hi.
      split; [done|]. split; [lia|]. split; intros; lia.
Qed.
End bisect.

(** What [find_nearest_idx] computes on a non-empty sorted series: the
    bisection index [lo], and the choice between [lo] and [lo - 1]. *)
Lemma find_nearest_idx_spec (ticks : list Tick) (target_ms : Z) :
  ticks ≠ [] → sorted_by_time ticks = true →
  ∃ lo t_lo,
    ticks !! lo = Some t_lo
    ∧ (∀ j tj, (j < lo)%nat → ticks !! j = Some tj → tj.1 < target_ms)
    ∧ ((lo < length ticks - 1)%nat → target_ms ≤ t_lo.1)
    ∧ ((lo = 0%nat ∧ find_nearest_idx ticks target_ms = Ok 0%nat)
       ∨ (∃ t_prev, (0 < lo)%nat ∧ ticks !! (lo - 1)%nat = Some t_prev
            ∧ find_nearest_idx ticks target_ms =
              Ok (if decide (Z.abs (t_lo.1 - target_ms) > Z.abs (t_prev.1 - target_ms))
                  then (lo - 1)%nat else lo))).
Proof.
  intros Hne Hs. unfold find_nearest_idx.
  assert (0 < length ticks)%nat as Hlen by (destruct ticks; [done | simpl; lia]).
  destruct (decide (length ticks = 0%nat)) as [?|_]; [lia|].
  destruct (bisect_loop_spec ticks target_ms Hs (length ticks) 0 (length ticks - 1))
    as (lo & -> & Hrng & Hlow & Hup); [lia | lia | lia |].
  destruct (tick_at_lt ticks lo) as (t_lo & Htlo & Hlk); [lia|].
  exists lo, t_lo. split; [done|]. split.
  { intros j tj Hj. apply Hlow. lia. }
  split. { intros Hlt. by apply Hup. }
  simpl. destruct (decide (0 < lo)%nat) as [Hpos|Hzero].
  - right. destruct (tick_at_lt ticks (lo - 1)) as (t_prev & Htp & Hlkp); [lia|].
    exists t_prev. split; [done|]. split; [done|].
    rewrite Htlo, Htp. simpl.
    by destruct (decide (Z.abs (t_lo.1 - target_ms) > Z.abs (t_prev.1 - target_ms))).
  - left. split; [lia|]. by replace lo with 0%nat by lia.
Qed.

(** The index returned on a non-empty sorted series is in range. *)
Lemma find_nearest_idx_in_range (ticks : list Tick) (target_ms : Z) :
  ticks ≠ [] → sorted_by_time ticks = true →
  ∃ idx tk, find_nearest_idx ticks target_ms = Ok idx ∧ ticks !! idx = Some tk.
Proof.
  intros Hne Hs.
  destruct (find_nearest_idx_spec ticks target_ms Hne Hs)
    as (lo & t_lo & Hlk & _ & _ & [[-> Hres] | (t_prev & Hpos & Hlkp & Hres)]).
  - by exists 0%nat, t_lo.
  - destruct (decide (Z.abs (t_lo.1 - target_ms) > Z.abs (t_prev.1 - target_ms))).
    + by exists (lo - 1)%nat, t_prev.
    + by exists lo, t_lo.
Qed.

(** Whatever the order of the ticks, the loop stays within [lo..hi] and
    ends before the bound on its iterations is hit. *)
Lemma bisect_loop_in_range (ticks : list Tick) (target_ms : Z) (fuel lo hi : nat) :
  (lo ≤ hi)%nat → (hi < length ticks)%nat → (hi - lo ≤ fuel)%nat →
  ∃ r, bisect_loop fuel ticks target_ms lo hi = Ok r ∧ (lo ≤ r ≤ hi)%nat.
Proof.
  revert lo hi. induction fuel as [|fuel IH]; intros lo hi Hle Hhi Hfuel.
  - assert (lo = hi) as -> by lia. exists hi. simpl.
    destruct (decide (hi < hi)%nat); [lia|]. split; [done | lia].
  - cbn -[Nat.div]. destruct (decide (lo < hi)%nat) as [Hlt|Hnlt].
    + pose proof (half_bounds lo hi Hlt) as Hmid.
      set (mid := ((lo + hi) / 2)%nat) in *.
      destruct (tick_at_lt ticks mid) as (tk & -> & Hlk); [lia|]. cbn -[Nat.div].
      destruct (decide (tk.1 < target_ms)).
      * destruct (IH (mid + 1)%nat hi) as (r & Hr & Hrng); [lia | lia | lia |].
        exists r. split; [done | lia].
      * destruct (IH lo mid) as (r & Hr & Hrng); [lia | lia | lia |].
        exists r. split; [done | lia].
    + exists lo. split; [done | lia].
Qed.

(** [find_nearest_idx] raises nothing, and its index is in range on a
    non-empty series. *)
Lemma find_nearest_idx_bound (ticks : list Tick) (target_ms : Z) :
  ticks ≠ [] →
  ∃ r, find_nearest_idx ticks target_ms = Ok r ∧ (r < length ticks)%nat.
Proof.
  intros Hne. unfold find_nearest_idx.
  assert (0 < length ticks)%nat as Hlen by (destruct ticks; [done | simpl; lia]).
  destruct (decide (length ticks = 0%nat)) as [?|_]; [lia|].
  destruct (bisect_loop_in_range ticks target_ms (length ticks) 0 (length ticks - 1))
    as (lo & -> & Hrng); [lia | lia | lia |].
  simpl. destruct (decide (0 < lo)%nat) as [Hpos|_]; [|exists lo; split; [done | lia]].
  destruct (tick_at_lt ticks lo) as (t_lo & -> & _); [lia|].
  destruct (tick_at_lt ticks (lo - 1)) as (t_prev & -> & _); [lia|]. simpl.
  destruct (decide (Z.abs (t_lo.1 - target_ms) > Z.abs (t_prev.1 - target_ms))).
  - exists (lo - 1)%nat. split; [done | lia].
  - exists lo. split; [done | lia].
Qed.

Lemma find_nearest_idx_total (ticks : list Tick) (target_ms : Z) :
  is_Ok (find_nearest_idx ticks target_ms).
Proof.
  destruct ticks as [|tk rest].
  - by exists 0%nat.
  - destruct (find_nearest_idx_bound (tk :: rest) target_ms) as (r & Hr & _);
      [done | by exists r].
Qed.

(** The nearest tick is found in every non-empty series. *)
Lemma price_at_time_total (ticks : list Tick) (ms : Z) :
  ticks ≠ [] → ∃ tk, price_at_time ticks ms = Ok tk ∧ tk ∈ ticks.
Proof.
  intros Hne.
  destruct (find_nearest_idx_bound ticks ms Hne) as (r & Hr & Hlt).
  destruct (tick_at_lt ticks r Hlt) as (tk & Htk & Hlk).
  exists tk. split.
  - unfold price_at_time. rewrite Hr. simpl. done.
  - by eapply list_elem_of_lookup_2.
Qed.

(** ** C1 *)

(** C1. On a non-empty series sorted by timestamp, [find_nearest_idx]
    returns the index of a tick whose timestamp is at minimal absolute
    distance from the query among all ticks; a query before the first tick
    gives index 0, a query after the last tick gives the last index. *)
Theorem find_nearest_idx_nearest (ticks : list Tick) (target_ms : Z) :
  ticks ≠ [] → sorted_by_time ticks = true →
  ∃ r tr,
    find_nearest_idx ticks target_ms = Ok r
    ∧ ticks !! r = Some tr
    ∧ (∀ j tj, ticks !! j = Some tj →
         Z.abs (tr.1 - target_ms) ≤ Z.abs (tj.1 - target_ms))
    ∧ (∀ t_first, ticks !! 0%nat = Some t_first → target_ms < t_first.1 → r = 0%nat)
    ∧ (∀ t_last, last ticks = Some t_last → t_last.1 < target_ms →
         r = (length ticks - 1)%nat).
Proof.
  intros Hne Hs.
  destruct (find_nearest_idx_spec ticks target_ms Hne Hs)
    as (lo & t_lo & Hlk & Hlow & Hup & Hres).
  pose proof (lookup_lt_Some _ _ _ Hlk) as Hlo_lt.
  (* every tick from [lo] on is at least as far from the target as [lo] *)
  assert (Hright : ∀ j tj, (lo ≤ j)%nat → ticks !! j = Some tj →
            Z.abs (t_lo.1 - target_ms) ≤ Z.abs (tj.1 - target_ms)).
  { intros j tj Hj Hlj. pose proof (lookup_lt_Some _ _ _ Hlj) as Hj_lt.
    destruct (decide (j = lo)) as [->|Hjne].
    - assert (tj = t_lo) as -> by congruence. lia.
    - pose proof (sorted_by_time_lookup ticks lo j t_lo tj Hs Hj Hlk Hlj).
      assert (target_ms ≤ t_lo.1) by (apply Hup; lia). lia. }
  destruct Hres as [[-> Hres] | (t_prev & Hpos & Hlkp & Hres)].
  - exists 0%nat, t_lo. split; [done|]. split; [done|]. split.
    { intros j tj Hlj. apply (Hright j tj); [lia | done]. }
    split; [done|]. intros t_last Hlast Hlt. rewrite last_lookup in Hlast.
    destruct (decide (0 < length ticks - 1)%nat) as [Hlong|Hshort]; [|lia].
    pose proof (sorted_by_time_lookup ticks 0 (pred (length ticks)) t_lo t_last Hs
                  ltac:(lia) Hlk Hlast).
    specialize (Hup Hlong). lia.
  - (* every tick before [lo] is at least as far as [lo - 1] *)
    assert (Hprev : t_prev.1 < target_ms) by (apply (Hlow (lo - 1)%nat); [lia | done]).
    assert (Hleft : ∀ j tj, (j < lo)%nat → ticks !! j = Some tj →
              Z.abs (t_prev.1 - target_ms) ≤ Z.abs (tj.1 - target_ms)).
    { intros j tj Hj Hlj.
      pose proof (sorted_by_time_lookup ticks j (lo - 1) tj t_prev Hs
                    ltac:(lia) Hlj Hlkp).
      pose proof (Hlow j tj Hj Hlj). lia. }
    destruct (decide (Z.abs (t_lo.1 - target_ms) > Z.abs (t_prev.1 - target_ms)))
      as [Hcloser|Hnot].
    + exists (lo - 1)%nat, t_prev. split; [done|]. split; [done|]. split.
      { intros j tj Hlj. destruct (decide (j < lo)%nat) as [Hj|Hj].
        - by apply (Hleft j tj).
        - pose proof (Hright j tj ltac:(lia) Hlj). lia. }
      split.
      { intros t_first Hfirst Hlt.
        pose proof (sorted_by_time_lookup ticks 0 (lo - 1) t_first t_prev Hs
                      ltac:(lia) Hfirst Hlkp). lia. }
      intros t_last Hlast Hlt. rewrite last_lookup in Hlast.
      pose proof (sorted_by_time_lookup ticks lo (pred (length ticks)) t_lo t_last Hs
                    ltac:(lia) Hlk Hlast).
      pose proof (sorted_by_time_lookup ticks (lo - 1) lo t_prev t_lo Hs
                    ltac:(lia) Hlkp Hlk). lia.
    + exists lo, t_lo. split; [done|]. split; [done|]. split.
      { intros j tj Hlj. destruct (decide (j < lo)%nat) as [Hj|Hj].
        - pose proof (Hleft j tj Hj Hlj). lia.
        - apply (Hright j tj); [lia | done]. }
      split.
      { intros t_first Hfirst Hlt.
        pose proof (sorted_by_time_lookup ticks 0 (lo - 1) t_first t_prev Hs
                      ltac:(lia) Hfirst Hlkp). lia. }
      intros t_last Hlast Hlt. rewrite last_lookup in Hlast.
      destruct (decide (lo < length ticks - 1)%nat) as [Hlong|Hshort]; [|lia].
      pose proof (sorted_by_time_lookup ticks lo (pred (length ticks)) t_lo t_last Hs
                    ltac:(lia) Hlk Hlast).
      specialize (Hup Hlong). lia.
Qed.

Lemma find_nearest_idx_nearest_witness :
  let ticks : list Tick := [(10, 1%Q); (20, 2%Q); (40, 3%Q)] in
  ticks ≠ [] ∧ sorted_by_time ticks = true ∧
  ∃ r tr,
    find_nearest_idx ticks 29 = Ok r
    ∧ ticks !! r = Some tr
    ∧ (∀ j tj, ticks !! j = Some tj → Z.abs (tr.1 - 29) ≤ Z.abs (tj.1 - 29))
    ∧ (∀ t_first, ticks !! 0%nat = Some t_first → 29 < t_first.1 → r = 0%nat)
    ∧ (∀ t_last, last ticks = Some t_last → t_last.1 < 29 →
         r = (length ticks - 1)%nat).
Proof.
  intros ticks. split; [done|]. split; [reflexivity|].
  apply (find_nearest_idx_nearest ticks 29); [done | reflexivity].
Defined.

Example find_nearest_idx_inside :
  find_nearest_idx [(10, 1%Q); (20, 2%Q); (40, 3%Q)] 29 = Ok 1%nat.
Proof. reflexivity. Qed.

Example find_nearest_idx_before_first :
  find_nearest_idx [(10, 1%Q); (20, 2%Q); (40, 3%Q)] 3 = Ok 0%nat.
Proof. reflexivity. Qed.

Example find_nearest_idx_after_last :
  find_nearest_idx [(10, 1%Q); (20, 2%Q); (40, 3%Q)] 99 = Ok 2%nat.
Proof. reflexivity. Qed.

Example price_at_time_empty : price_at_time [] 5 = Raise IndexError.
Proof. reflexivity. Qed.

(** ** C10 *)

(** C10. When the target lies exactly halfway between two consecutive ticks
    of distinct timestamps, [find_nearest_idx] returns the later one (the
    higher index); in general a returned tick that lies before the target is
    strictly closer to it than every tick at or after the target. *)
Theorem find_nearest_idx_tie_later (ticks : list Tick) (target_ms : Z) :
  sorted_by_time ticks = true →
  (∀ i ti tj,
     ticks !! i = Some ti → ticks !! S i = Some tj →
     ti.1 < tj.1 → target_ms - ti.1 = tj.1 - target_ms →
     find_nearest_idx ticks target_ms = Ok (S i))
  ∧ (∀ r tr,
       find_nearest_idx ticks target_ms = Ok r → ticks !! r = Some tr →
       tr.1 < target_ms →
       ∀ j tj, ticks !! j = Some tj → target_ms ≤ tj.1 →
         Z.abs (tr.1 - target_ms) < Z.abs (tj.1 - target_ms)).
Proof.
  intros Hs. split.
  - intros i ti tj Hi Hj Hlt Hmid.
    assert (ticks ≠ []) as Hne by (intros ->; by rewrite lookup_nil in Hi).
    destruct (find_nearest_idx_spec ticks target_ms Hne Hs)
      as (lo & t_lo & Hlk & Hlow & Hup & Hres).
    pose proof (lookup_lt_Some _ _ _ Hj) as Hj_lt.
    assert (lo = S i) as ->.
    { destruct (decide (S i < lo)%nat) as [Hbig|Hnbig].
      { pose proof (Hlow (S i) tj Hbig Hj). lia. }
      destruct (decide (lo ≤ i)%nat) as [Hsmall|Hnsmall]; [|lia].
      pose proof (sorted_by_time_lookup ticks lo i t_lo ti Hs Hsmall Hlk Hi).
      assert (target_ms ≤ t_lo.1) by (apply Hup; lia). lia. }
    destruct Hres as [[? _] | (t_prev & _ & Hlkp & ->)]; [lia|].
    replace (S i - 1)%nat with i in Hlkp by lia.
    assert (t_prev = ti) as -> by congruence.
    assert (t_lo = tj) as -> by congruence.
    destruct (decide (Z.abs (tj.1 - target_ms) > Z.abs (ti.1 - target_ms)));
      [lia | done].
  - intros r tr Hr Hlr Hbefore j tj Hlj Hafter.
    assert (ticks ≠ []) as Hne by (intros ->; by rewrite lookup_nil in Hlr).
    destruct (find_nearest_idx_spec ticks target_ms Hne Hs)
      as (lo & t_lo & Hlk & Hlow & Hup & Hres).
    pose proof (lookup_lt_Some _ _ _ Hlj) as Hj_lt.
    assert (lo ≤ j)%nat as Hlo_j.
    { destruct (decide (lo ≤ j)%nat) as [|Hn]; [done|].
      pose proof (Hlow j tj ltac:(lia) Hlj). lia. }
    assert (target_ms ≤ t_lo.1) as Hlo_after.
    { destruct (decide (j = lo)) as [->|Hjne].
      - assert (tj = t_lo) as -> by congruence. done.
      - apply Hup. lia. }
    pose proof (sorted_by_time_lookup ticks lo j t_lo tj Hs Hlo_j Hlk Hlj).
    destruct Hres as [[-> Hres] | (t_prev & Hpos & Hlkp & Hres)].
    + rewrite Hres in Hr. injection Hr as <-.
      assert (tr = t_lo) as -> by congruence. lia.
    + rewrite Hres in Hr. injection Hr as <-.
      destruct (decide (Z.abs (t_lo.1 - target_ms) > Z.abs (t_prev.1 - target_ms))).
      * assert (tr = t_prev) as -> by congruence. lia.
      * assert (tr = t_lo) as -> by congruence. lia.
Qed.

Lemma find_nearest_idx_tie_later_witness :
  let ticks : list Tick := [(10, 1%Q); (20, 2%Q); (40, 3%Q)] in
  sorted_by_time ticks = true
  ∧ find_nearest_idx ticks 30 = Ok 2%nat
  ∧ find_nearest_idx ticks 15 = Ok 1%nat.
Proof.
  intros ticks. split; [reflexivity|].
  destruct (find_nearest_idx_tie_later ticks 30 eq_refl) as [Htie30 _].
  destruct (find_nearest_idx_tie_later ticks 15 eq_refl) as [Htie15 _].
  split.
  - apply (Htie30 1%nat (20, 2%Q) (40, 3%Q)); [done | done | simpl; lia | simpl; lia].
  - apply (Htie15 0%nat (10, 1%Q) (20, 2%Q)); [done | done | simpl; lia | simpl; lia].
Defined.

(** ** The nearest-rank index *)

Lemma py_int_floor (x : Q) : (0 <= x)%Q → py_int x = Qfloor x.
Proof.
  destruct x as [n d]. unfold Qle, py_int, Qfloor. simpl. intros Hn.
  apply Z.quot_div_nonneg; lia.
Qed.

(** On a non-empty list and a percentage in [0, 100], the clamped
    nearest-rank index is in range and [percentile] returns its element. *)
Lemma percentile_index (sorted_list : list Q) (p : Q) :
  (0 <= p)%Q → sorted_list ≠ [] →
  let len := Z.of_nat (length sorted_list) in
  let idx := Z.max 0 (Z.min (Qfloor (inject_Z len * p / 100)) (len - 1)) in
  0 ≤ idx ≤ len - 1
  ∧ ∃ x, sorted_list !! Z.to_nat idx = Some x ∧ percentile sorted_list p = Ok x.
Proof.
  intros Hp0 Hne len idx.
  assert (0 < len) as Hlen by (destruct sorted_list; [done | unfold len; simpl; lia]).
  assert (0 ≤ idx ≤ len - 1) as Hidx by (unfold idx; lia).
  split; [done|].
  destruct (lookup_lt_is_Some_2 sorted_list (Z.to_nat idx)) as [x Hx].
  { unfold len in *. lia. }
  exists x. split; [done|].
  destruct sorted_list as [|y rest]; [done|].
  unfold percentile. rewrite py_int_floor.
  - fold len. fold idx. by rewrite Hx.
  - assert (0 <= inject_Z len)%Q by (unfold Qle; simpl; lia).
    apply Qle_shift_div_l; [reflexivity|]. rewrite Qmult_0_l.
    by apply Qmult_le_0_compat.
Qed.

Example percentile_top : percentile [1; 2; 3; 4; 5]%Q 100 = Ok 5%Q.
Proof. reflexivity. Qed.

Example percentile_p10 : percentile [1; 2; 3; 4; 5]%Q 10 = Ok 1%Q.
Proof. reflexivity. Qed.

(** ** The move/lag detector *)

Lemma fdiv_Ok a b q : fdiv a b = Ok q ↔ ¬ (b == 0)%Q ∧ q = (a / b)%Q.
Proof.
  unfold fdiv. destruct (decide (b == 0)%Q); split.
  - done.
  - by intros [? _].
  - by intros [= <-].
  - by intros [_ ->].
Qed.

Lemma pct_change_Ok p0 p1 q :
  pct_change p0 p1 = Ok q ↔ ¬ (p0 == 0)%Q ∧ q = ((p1 - p0) / p0 * 100)%Q.
Proof.
  unfold pct_change. rewrite result_bind_Ok. split.
  - intros (d & Hd & [= <-]). apply fdiv_Ok in Hd as [Hnz ->]. done.
  - intros [Hnz ->]. exists ((p1 - p0) / p0)%Q. split; [by apply fdiv_Ok | done].
Qed.

Lemma drawdown_pos (hwm p : Q) :
  (0 < hwm)%Q → drawdown hwm p = Ok ((hwm - p) / hwm * 100)%Q.
Proof.
  intros Hpos. unfold drawdown, fdiv.
  destruct (decide (hwm == 0)%Q) as [Hz|]; [|done].
  rewrite Hz in Hpos. by apply Qlt_irrefl in Hpos.
Qed.

(** With a non-zero expected move the guarded ratio is the plain quotient. *)
Lemma pct_of_expected_nonzero actual expected :
  ¬ (expected == 0)%Q →
  pct_of_expected actual expected = Ok (actual / expected * 100)%Q.
Proof.
  intros Hnz. unfold pct_of_expected, fdiv.
  destruct (decide (¬ expected == 0)%Q) as [_|Hn]; [|done].
  by destruct (decide (expected == 0)%Q).
Qed.

(** The guarded ratio never raises. *)
Lemma pct_of_expected_total actual expected :
  is_Ok (pct_of_expected actual expected).
Proof.
  unfold pct_of_expected. destruct (decide (¬ expected == 0)%Q) as [Hnz|_].
  - unfold fdiv. destruct (decide (expected == 0)%Q); [done|]. by eexists.
  - by eexists.
Qed.

(** ** C8 *)

(** C8. When the expected derived move is exactly zero the achieved
    percentage is 100 and nothing is raised, although the division itself
    would raise; the value recorded in the event, rounded to one decimal, is
    100 as well. *)
Theorem pct_of_expected_degenerate (actual expected : Q) :
  (expected == 0)%Q →
  pct_of_expected actual expected = Ok 100%Q
  ∧ fdiv actual expected = Raise ZeroDivisionError
  ∧ (py_round 100 1 == 100)%Q.
Proof.
  intros Hz. unfold pct_of_expected, fdiv.
  destruct (decide (¬ expected == 0)%Q) as [Hnz|_]; [done|].
  destruct (decide (expected == 0)%Q); [|done].
  split; [done|]. split; [done|]. reflexivity.
Qed.

Lemma pct_of_expected_degenerate_witness :
  (0 * 3 == 0)%Q
  ∧ pct_of_expected 1.5 (0 * 3) = Ok 100%Q
  ∧ fdiv 1.5 (0 * 3) = Raise ZeroDivisionError
  ∧ (py_round 100 1 == 100)%Q.
Proof.
  split; [reflexivity|].
  apply (pct_of_expected_degenerate 1.5 (0 * 3)). reflexivity.
Defined.

(** ** Accepted detections *)

(** What holds of the intermediate values when [detect_move] appends an
    event. *)
Lemma detect_move_inv (qqq tqqq sqqq : list Tick) (i : nat) (ev : MoveEvent) :
  detect_move qqq tqqq sqqq i = Ok (Some ev) →
  ∃ q0_ms q0_p q1_ms q1_p q_pct t0_ms t0_p s0_ms s0_p t_responses s_responses
    t_at_end s_at_end t_achieved s_achieved t_catchup,
    tick_at qqq i = Ok (q0_ms, q0_p)
    ∧ price_at_time qqq (q0_ms + move_window_ms) = Ok (q1_ms, q1_p)
    ∧ 5000 ≤ q1_ms - q0_ms ≤ 15000
    ∧ pct_change q0_p q1_p = Ok q_pct
    ∧ (move_threshold_pct <= Qabs q_pct)%Q
    ∧ price_at_time tqqq q0_ms = Ok (t0_ms, t0_p)
    ∧ price_at_time sqqq q0_ms = Ok (s0_ms, s0_p)
    ∧ fill_responses tqqq sqqq q0_ms t0_p s0_p watch_steps ∅ ∅
      = Ok (t_responses, s_responses)
    ∧ dict_get t_responses 0 = Ok t_at_end
    ∧ dict_get s_responses 0 = Ok s_at_end
    ∧ pct_of_expected t_at_end (q_pct * 3) = Ok t_achieved
    ∧ pct_of_expected s_at_end (q_pct * -3) = Ok s_achieved
    ∧ catchup_scan t_responses (q_pct * 3) watch_steps = Ok t_catchup
    ∧ ev = {| direction := if decide (0 < q_pct)%Q then UP else DOWN;
              qqq_move_pct := py_round q_pct 4;
              expected_tqqq := py_round (q_pct * 3) 4;
              tqqq_at_end := py_round t_at_end 4;
              t_achieved_pct := py_round t_achieved 1;
              t_catchup_ms := t_catchup;
              expected_sqqq := py_round (q_pct * -3) 4;
              sqqq_at_end := py_round s_at_end 4;
              s_achieved_pct := py_round s_achieved 1 |}.
Proof.
  unfold detect_move. intros H.
  bind_inv H. destruct a as [q0_ms q0_p].
  bind_inv H. destruct a as [q1_ms q1_p].
  destruct (decide (q1_ms - q0_ms < 5000 ∨ q1_ms - q0_ms > 15000)) as [|Hgap];
    [done|].
  bind_inv H. rename a into q_pct.
  destruct (decide (Qabs q_pct < move_threshold_pct)%Q) as [|Hmove]; [done|].
  bind_inv H. destruct a as [t0_ms t0_p].
  bind_inv H. destruct a as [s0_ms s0_p].
  bind_inv H. destruct a as [t_responses s_responses].
  bind_inv H. rename a into t_at_end.
  bind_inv H. rename a into s_at_end.
  bind_inv H. rename a into t_achieved.
  bind_inv H. rename a into s_achieved.
  bind_inv H. rename a into t_catchup.
  injection H as <-.
  exists q0_ms, q0_p, q1_ms, q1_p, q_pct, t0_ms, t0_p, s0_ms, s0_p,
    t_responses, s_responses, t_at_end, s_at_end, t_achieved, s_achieved, t_catchup.
  repeat (split; [first [done | lia | by apply Qnot_lt_le] |]). done.
Qed.

(** *** The response dicts *)

Lemma fill_responses_other tqqq sqqq q0_ms t0_p s0_p offsets :
  ∀ (t_responses s_responses t_responses' s_responses' : gmap Z Q) (o : Z),
    fill_responses tqqq sqqq q0_ms t0_p s0_p offsets t_responses s_responses
    = Ok (t_responses', s_responses') →
    o ∉ offsets →
    t_responses' !! o = t_responses !! o ∧ s_responses' !! o = s_responses !! o.
Proof.
  induction offsets as [|offset rest IH]; intros tr sr tr' sr' o H Hnotin.
  - simpl in H. by injection H as <- <-.
  - simpl in H.
    bind_inv H. bind_inv H. bind_inv H. bind_inv H.
    apply not_elem_of_cons in Hnotin as [Hne Hnotin].
    destruct (IH _ _ _ _ o H Hnotin) as [Ht Hs].
    rewrite lookup_insert_ne in Ht by done.
    rewrite lookup_insert_ne in Hs by done. done.
Qed.

(** After the loop each ladder offset is a key of both dicts, bound to the
    response of its series at that offset. *)
Lemma fill_responses_lookup tqqq sqqq q0_ms t0_p s0_p offsets :
  ∀ (t_responses s_responses t_responses' s_responses' : gmap Z Q) (o : Z),
    fill_responses tqqq sqqq q0_ms t0_p s0_p offsets t_responses s_responses
    = Ok (t_responses', s_responses') →
    o ∈ offsets →
    (∃ v, response_at tqqq q0_ms t0_p o = Ok v ∧ t_responses' !! o = Some v)
    ∧ (∃ v, response_at sqqq q0_ms s0_p o = Ok v ∧ s_responses' !! o = Some v).
Proof.
  induction offsets as [|offset rest IH]; intros tr sr tr' sr' o H Hin.
  - by apply elem_of_nil in Hin.
  - simpl in H.
    bind_inv H. rename a into t_check, Ha into Ht_check.
    bind_inv H. rename a into s_check, Ha into Hs_check.
    bind_inv H. rename a into t_actual, Ha into Ht_actual.
    bind_inv H. rename a into s_actual, Ha into Hs_actual.
    destruct (decide (o ∈ rest)) as [Hrest|Hnrest].
    + by apply (IH _ _ _ _ o H).
    + apply elem_of_cons in Hin as [->|?]; [|done].
      destruct (fill_responses_other _ _ _ _ _ _ _ _ _ _ offset H Hnrest) as [Ht Hs].
      rewrite lookup_insert_eq in Ht. rewrite lookup_insert_eq in Hs.
      unfold response_at. rewrite Ht_check, Hs_check. simpl.
      split; [by exists t_actual | by exists s_actual].
Qed.

(** *** The catch-up scan against its reference *)

Lemma catchup_scan_refines (t_responses : gmap Z Q) (expected : Q)
    (ratio_at : Z → result Q) (offsets : list Z) :
  (∀ o, o ∈ offsets →
     ∃ v, t_responses !! o = Some v ∧ ratio_at o = pct_of_expected v expected) →
  catchup_scan t_responses expected offsets = spec_first_reaching ratio_at offsets.
Proof.
  induction offsets as [|offset rest IH]; intros Hall; [done|].
  simpl. destruct (Hall offset) as (v & Hv & ->); [by left|].
  unfold dict_get. rewrite Hv. simpl.
  destruct (pct_of_expected v expected) as [r|e]; [|done]. simpl.
  destruct (decide (90 <= r)%Q); [done|].
  apply IH. intros o Ho. apply Hall. by right.
Qed.

Lemma spec_first_reaching_spec (ratio_at : Z → result Q) (offsets : list Z) (r : Z) :
  spec_first_reaching ratio_at offsets = Ok r →
  (∃ pre post ρ,
     offsets = pre ++ r :: post ∧ ratio_at r = Ok ρ ∧ (90 <= ρ)%Q
     ∧ ∀ o, o ∈ pre → ∃ ρ', ratio_at o = Ok ρ' ∧ (ρ' < 90)%Q)
  ∨ (r = -1 ∧ ∀ o, o ∈ offsets → ∃ ρ', ratio_at o = Ok ρ' ∧ (ρ' < 90)%Q).
Proof.
  revert r. induction offsets as [|offset rest IH]; intros r H.
  - simpl in H. injection H as <-. right. split; [done|].
    intros o Ho. by apply elem_of_nil in Ho.
  - simpl in H. bind_inv H. rename a into ρ0.
    destruct (decide (90 <= ρ0)%Q) as [Hreach|Hnot].
    + injection H as <-. left. exists [], rest, ρ0.
      split; [done|]. split; [done|]. split; [done|].
      intros o Ho. by apply elem_of_nil in Ho.
    + apply Qnot_le_lt in Hnot.
      destruct (IH r H) as [(pre & post & ρ & -> & Hρ & Hge & Hpre) | [-> Hall]].
      * left. exists (offset :: pre), post, ρ.
        split; [done|]. split; [done|]. split; [done|].
        intros o Ho. apply elem_of_cons in Ho as [->|Ho]; [by exists ρ0 | by apply Hpre].
      * right. split; [done|].
        intros o Ho. apply elem_of_cons in Ho as [->|Ho]; [by exists ρ0 | by apply Hall].
Qed.

(** An accepted detection has a non-zero reference move. *)
Lemma accepted_move_nonzero (q_pct : Q) :
  (move_threshold_pct <= Qabs q_pct)%Q → ¬ (q_pct == 0)%Q.
Proof.
  intros Hge Hz. rewrite Hz in Hge. unfold move_threshold_pct in Hge.
  revert Hge. apply Qlt_not_le. reflexivity.
Qed.

(** For an accepted detection, the recorded catch-up offset is the first
    ladder offset at which the long series reaches 90% of three times the
    reference move, else [-1]. *)
Lemma detect_move_catchup (qqq tqqq sqqq : list Tick) (i : nat) (ev : MoveEvent) :
  detect_move qqq tqqq sqqq i = Ok (Some ev) →
  spec_first_reaching (spec_ratio_at qqq tqqq 3 i) watch_steps
  = Ok (t_catchup_ms ev).
Proof.
  intros H. apply detect_move_inv in H
    as (q0_ms & q0_p & q1_ms & q1_p & q_pct & t0_ms & t0_p & s0_ms & s0_p
        & t_responses & s_responses & t_at_end & s_at_end & t_achieved & s_achieved
        & t_catchup & Hq0 & Hq1 & Hgap & Hqpct & Hmove & Ht0 & Hs0 & Hfill
        & Htend & Hsend & Htach & Hsach & Hscan & ->).
  cbn [t_catchup_ms]. rewrite <- Hscan. symmetry. apply catchup_scan_refines.
  intros o Ho.
  destruct (fill_responses_lookup _ _ _ _ _ _ _ _ _ _ o Hfill Ho)
    as [(v & Hresp & Hv) _].
  exists v. split; [done|].
  pose proof (accepted_move_nonzero q_pct Hmove) as Hnz.
  assert (¬ (q_pct * 3 == 0)%Q) as Hnz3.
  { intros Hz. apply Hnz. lra. }
  rewrite pct_of_expected_nonzero by done.
  unfold spec_ratio_at. rewrite Hq0. simpl. rewrite Hq1. simpl.
  rewrite Hqpct. simpl. rewrite Ht0. simpl. rewrite Hresp. simpl.
  unfold fdiv. by destruct (decide (q_pct * 3 == 0)%Q).
Qed.

(** For an accepted detection, the achieved percentages recorded for both
    derived series are the ratios at offset 0, rounded to one decimal. *)
Lemma detect_move_achieved (qqq tqqq sqqq : list Tick) (i : nat) (ev : MoveEvent) :
  detect_move qqq tqqq sqqq i = Ok (Some ev) →
  ∃ ρt ρs,
    spec_ratio_at qqq tqqq 3 i 0 = Ok ρt ∧ t_achieved_pct ev = py_round ρt 1
    ∧ spec_ratio_at qqq sqqq (-3) i 0 = Ok ρs ∧ s_achieved_pct ev = py_round ρs 1.
Proof.
  intros H. apply detect_move_inv in H
    as (q0_ms & q0_p & q1_ms & q1_p & q_pct & t0_ms & t0_p & s0_ms & s0_p
        & t_responses & s_responses & t_at_end & s_at_end & t_achieved & s_achieved
        & t_catchup & Hq0 & Hq1 & Hgap & Hqpct & Hmove & Ht0 & Hs0 & Hfill
        & Htend & Hsend & Htach & Hsach & Hscan & ->).
  cbn [t_achieved_pct s_achieved_pct].
  destruct (fill_responses_lookup _ _ _ _ _ _ _ _ _ _ 0 Hfill ltac:(by left))
    as [(vt & Hrt & Hvt) (vs & Hrs & Hvs)].
  unfold dict_get in Htend, Hsend. rewrite Hvt in Htend. rewrite Hvs in Hsend.
  injection Htend as ->. injection Hsend as ->.
  pose proof (accepted_move_nonzero q_pct Hmove) as Hnz.
  assert (¬ (q_pct * 3 == 0)%Q) as Hnz3 by (intros Hz; apply Hnz; lra).
  assert (¬ (q_pct * -3 == 0)%Q) as Hnz3' by (intros Hz; apply Hnz; lra).
  rewrite pct_of_expected_nonzero in Htach by done.
  rewrite pct_of_expected_nonzero in Hsach by done.
  injection Htach as <-. injection Hsach as <-.
  exists (t_at_end / (q_pct * 3) * 100)%Q, (s_at_end / (q_pct * -3) * 100)%Q.
  unfold spec_ratio_at. rewrite Hq0. simpl. rewrite Hq1. simpl.
  rewrite Hqpct. simpl. rewrite Ht0, Hs0. simpl. rewrite Hrt, Hrs. simpl.
  unfold fdiv.
  destruct (decide (q_pct * 3 == 0)%Q); [done|].
  destruct (decide (q_pct * -3 == 0)%Q); done.
Qed.

(** A long series at 50% of the expected move at offset 0 and at 95% at
    offset 5000 has catch-up offset 5000. *)
Example detect_move_lagging :
  spec_ratio_at qqq_up tqqq_lag 3 0 0 = Ok (15000000 # 300000)
  ∧ spec_ratio_at qqq_up tqqq_lag 3 0 5000 = Ok (285000000 # 3000000)
  ∧ ((15000000 # 300000) == 50)%Q ∧ ((285000000 # 3000000) == 95)%Q
  ∧ ∃ ev, detect_move qqq_up tqqq_lag sqqq_stuck 0 = Ok (Some ev)
          ∧ t_catchup_ms ev = 5000.
Proof.
  split; [by vm_compute|]. split; [by vm_compute|].
  split; [reflexivity|]. split; [reflexivity|].
  exists lagging_event. split; [by vm_compute | done].
Qed.

(** A long series that completes its +3% with the reference catches up at
    offset 0 with 100% achieved. *)
Example detect_move_immediate :
  ∃ ev, detect_move qqq_up [(0, 100%Q); (10000, 103%Q)] sqqq_stuck 0 = Ok (Some ev)
        ∧ t_catchup_ms ev = 0 ∧ (t_achieved_pct ev == 100)%Q.
Proof.
  eexists. split; [by vm_compute|]. split; [done | reflexivity].
Qed.

(** ** C7 *)

(** C7, as stated, fails.  With the same reference and long series, the
    inverse series [sqqq_stuck] never reaches 90% of its expected move within
    the ladder while [sqqq_late] reaches it at offset 5000, yet both
    detections emit the very same record: no reading of the record yields
    the inverse series' catch-up offset. *)
Lemma inverse_catchup_not_recorded :
  detect_move qqq_up tqqq_lag sqqq_stuck 0 = Ok (Some lagging_event)
  ∧ detect_move qqq_up tqqq_lag sqqq_late 0 = Ok (Some lagging_event)
  ∧ spec_catchup_offset_ms qqq_up sqqq_stuck (-3) 0 = Ok (-1)
  ∧ spec_catchup_offset_ms qqq_up sqqq_late (-3) 0 = Ok 5000
  ∧ ¬ ∃ read : MoveEvent → Z,
        ∀ qqq tqqq sqqq i ev,
          detect_move qqq tqqq sqqq i = Ok (Some ev) →
          spec_catchup_offset_ms qqq sqqq (-3) i = Ok (read ev).
Proof.
  assert (Hstuck : detect_move qqq_up tqqq_lag sqqq_stuck 0 = Ok (Some lagging_event))
    by by vm_compute.
  assert (Hlate : detect_move qqq_up tqqq_lag sqqq_late 0 = Ok (Some lagging_event))
    by by vm_compute.
  assert (Hcs : spec_catchup_offset_ms qqq_up sqqq_stuck (-3) 0 = Ok (-1))
    by by vm_compute.
  assert (Hcl : spec_catchup_offset_ms qqq_up sqqq_late (-3) 0 = Ok 5000)
    by by vm_compute.
  repeat (split; [done|]).
  intros [read Hread].
  pose proof (Hread _ _ _ _ _ Hstuck) as H1.
  pose proof (Hread _ _ _ _ _ Hlate) as H2.
  rewrite Hcs in H1. rewrite Hcl in H2. congruence.
Qed.

(** ** The rolling ratio sampler *)

(** What holds of the intermediate values when [ratio_sample] records a
    pair of ratios. *)
Lemma ratio_sample_inv (qqq tqqq sqqq : list Tick) (window_ms : Z) (i : nat)
    (t_ratio s_ratio : Q) :
  ratio_sample qqq tqqq sqqq window_ms i = Ok (Some (t_ratio, s_ratio)) →
  sample_accepted qqq window_ms i.
Proof.
  unfold ratio_sample. intros H.
  bind_inv H. destruct a as [q0_ms q0_p].
  bind_inv H. destruct a as [q1_ms q1_p].
  destruct (decide (inject_Z (q1_ms - q0_ms) < inject_Z window_ms * 0.5
                    ∨ inject_Z window_ms * 1.5 < inject_Z (q1_ms - q0_ms))%Q)
    as [|Hgap]; [done|].
  bind_inv H. rename a into q_pct.
  destruct (decide (Qabs q_pct < 0.005)%Q) as [|Hnoise]; [done|].
  exists q0_ms, q0_p, q1_ms, q1_p, q_pct.
  split; [done|]. split; [done|].
  split. { apply Qnot_lt_le. intros Hlt. apply Hgap. by left. }
  split. { apply Qnot_lt_le. intros Hlt. apply Hgap. by right. }
  split; [done|]. by apply Qnot_lt_le.
Qed.

(** The two lists grow in step, by the ratios of the accepted samples. *)
Lemma collect_ratios_spec (qqq tqqq sqqq : list Tick) (window_ms : Z)
    (idxs : list nat) :
  ∀ t_ratios s_ratios t_ratios' s_ratios',
    collect_ratios qqq tqqq sqqq window_ms idxs t_ratios s_ratios
    = Ok (t_ratios', s_ratios') →
    ∃ accepted : list (nat * (Q * Q)),
      t_ratios' = t_ratios ++ (accepted.*2).*1
      ∧ s_ratios' = s_ratios ++ (accepted.*2).*2
      ∧ Forall (λ a, a.1 ∈ idxs
                     ∧ ratio_sample qqq tqqq sqqq window_ms a.1 = Ok (Some a.2))
               accepted.
Proof.
  induction idxs as [|i rest IH]; intros t s t' s' H.
  - simpl in H. injection H as <- <-. exists [].
    by rewrite !app_nil_r.
  - simpl in H. bind_inv H. destruct a as [[t_ratio s_ratio]|].
    + destruct (IH _ _ _ _ H) as (accepted & -> & -> & Hall).
      exists ((i, (t_ratio, s_ratio)) :: accepted). simpl.
      rewrite <- !app_assoc. split; [done|]. split; [done|].
      constructor; [split; [by left | done]|].
      eapply Forall_impl; [exact Hall|]. intros a' [Hin Hsome]. split; [by right | done].
    + destruct (IH _ _ _ _ H) as (accepted & -> & -> & Hall).
      exists accepted. split; [done|]. split; [done|].
      eapply Forall_impl; [exact Hall|]. intros a' [Hin Hsome]. split; [by right | done].
Qed.

Lemma sorted_length (xs : list Q) : length (sorted xs) = length xs.
Proof. unfold sorted. by rewrite merge_sort_Permutation. Qed.

(** The report of a window: figures from 11 samples on, else the count. *)
Lemma window_report_spec (t_ratios s_ratios : list Q) :
  length s_ratios = length t_ratios →
  ((11 ≤ length t_ratios)%nat
   ∧ ∃ st, window_report t_ratios s_ratios = Ok (Reported st)
           ∧ ws_n st = length t_ratios)
  ∨ ((length t_ratios < 11)%nat
     ∧ window_report t_ratios s_ratios = Ok (InsufficientData (length t_ratios))).
Proof.
  intros Hlen. unfold window_report.
  destruct (decide (10 < length t_ratios)%nat) as [Hmany|Hfew]; [|right; split; [lia | done]].
  left. split; [lia|].
  assert (sorted t_ratios ≠ []) as Hnt.
  { intros Hnil. pose proof (sorted_length t_ratios) as Hl. rewrite Hnil in Hl.
    simpl in Hl. lia. }
  assert (sorted s_ratios ≠ []) as Hns.
  { intros Hnil. pose proof (sorted_length s_ratios) as Hl. rewrite Hnil in Hl.
    simpl in Hl. lia. }
  destruct (percentile_index (sorted t_ratios) 50 ltac:(done) Hnt) as (_ & ? & _ & ->).
  destruct (percentile_index (sorted t_ratios) 10 ltac:(done) Hnt) as (_ & ? & _ & ->).
  destruct (percentile_index (sorted t_ratios) 90 ltac:(done) Hnt) as (_ & ? & _ & ->).
  destruct (percentile_index (sorted s_ratios) 50 ltac:(done) Hns) as (_ & ? & _ & ->).
  destruct (percentile_index (sorted s_ratios) 10 ltac:(done) Hns) as (_ & ? & _ & ->).
  destruct (percentile_index (sorted s_ratios) 90 ltac:(done) Hns) as (_ & ? & _ & ->).
  cbn [mbind result_bind].
  destruct t_ratios as [|t0 t_rest]; [simpl in Hmany; lia|].
  destruct s_ratios as [|s0 s_rest]; [done|].
  simpl. eexists. split; [reflexivity | done].
Qed.

(** ** C9 *)

(** C9. A ratio sample is recorded only if the gap to the reference tick
    nearest [T + window] lies within [0.5, 1.5] times the window and the
    reference move is at least 0.005%; a window reports its figures only
    from 11 recorded samples on, and reports insufficient data otherwise. *)
Theorem rolling_ratio_acceptance (qqq tqqq sqqq : list Tick) (window_sec : Z) :
  let window_ms := window_sec * 1000 in
  let step := Nat.max 1 (length qqq / 500) in
  (∀ i t_ratio s_ratio,
     ratio_sample qqq tqqq sqqq window_ms i = Ok (Some (t_ratio, s_ratio)) →
     sample_accepted qqq window_ms i)
  ∧ (∀ rep,
       rolling_ratio qqq tqqq sqqq window_sec = Ok rep →
       ∃ accepted : list (nat * (Q * Q)),
         Forall (λ a, a.1 ∈ py_range 0 (length qqq) step
                      ∧ ratio_sample qqq tqqq sqqq window_ms a.1 = Ok (Some a.2)
                      ∧ sample_accepted qqq window_ms a.1) accepted
         ∧ (((11 ≤ length accepted)%nat
             ∧ ∃ st, rep = Reported st ∧ ws_n st = length accepted)
            ∨ ((length accepted < 11)%nat
               ∧ rep = InsufficientData (length accepted)))).
Proof.
  intros window_ms step. split.
  - intros i t_ratio s_ratio. apply ratio_sample_inv.
  - intros rep H. unfold rolling_ratio in H. fold window_ms step in H.
    bind_inv H. destruct a as [t_ratios s_ratios].
    apply collect_ratios_spec in Ha as (accepted & -> & -> & Hall).
    exists accepted. split.
    + eapply Forall_impl; [exact Hall|]. intros [i [t_ratio s_ratio]] [Hin Hsome].
      split; [done|]. split; [done|]. by eapply ratio_sample_inv.
    + simpl in H.
      destruct (window_report_spec ((accepted.*2).*1) ((accepted.*2).*2))
        as [(Hmany & st & Hrep & Hn) | (Hfew & Hrep)].
      * by rewrite !length_fmap.
      * left. rewrite !length_fmap in Hmany, Hn. split; [done|].
        exists st. split; [congruence | done].
      * right. rewrite !length_fmap in Hfew, Hrep. split; [done | congruence].
Qed.

Lemma rolling_ratio_acceptance_witness :
  ratio_sample qqq_ramp tqqq_ramp sqqq_ramp (5 * 1000) 3
  = Ok (Some (30900 # 10900, -30900 # 9100)%Q)
  ∧ sample_accepted qqq_ramp (5 * 1000) 3
  ∧ ∃ rep,
      rolling_ratio qqq_ramp tqqq_ramp sqqq_ramp 5 = Ok rep
      ∧ ∃ accepted : list (nat * (Q * Q)),
          Forall (λ a, a.1 ∈ py_range 0 (length qqq_ramp) 1
                       ∧ ratio_sample qqq_ramp tqqq_ramp sqqq_ramp (5 * 1000) a.1
                         = Ok (Some a.2)
                       ∧ sample_accepted qqq_ramp (5 * 1000) a.1) accepted
          ∧ (((11 ≤ length accepted)%nat
              ∧ ∃ st, rep = Reported st ∧ ws_n st = length accepted)
             ∨ ((length accepted < 11)%nat
                ∧ rep = InsufficientData (length accepted))).
Proof.
  destruct (rolling_ratio_acceptance qqq_ramp tqqq_ramp sqqq_ramp 5)
    as [Hsample Hreport].
  split; [by vm_compute|]. split.
  - apply (Hsample 3%nat (30900 # 10900)%Q (-30900 # 9100)%Q). by vm_compute.
  - destruct (rolling_ratio qqq_ramp tqqq_ramp sqqq_ramp 5) as [rep|e] eqn:Hrep.
    + exists rep. split; [done|]. by apply Hreport.
    + by vm_compute in Hrep.
Defined.

(** Nineteen of the twenty ticks of the ramp are accepted for the 5 s
    window, and figures are reported; two ticks give insufficient data. *)
Example rolling_ratio_reported :
  ∃ st, rolling_ratio qqq_ramp tqqq_ramp sqqq_ramp 5 = Ok (Reported st)
        ∧ ws_n st = 19%nat.
Proof. eexists. split; [by vm_compute | done]. Qed.

Example rolling_ratio_insufficient :
  rolling_ratio qqq_up tqqq_lag sqqq_late 10 = Ok (InsufficientData 1).
Proof. by vm_compute. Qed.

(** ** The stop-trigger simulator *)

(** The two outcomes of an iteration that raises nothing. *)
Lemma stop_step_inv (stop_pct : Q) (qqq tqqq : list Tick) (st st' : StopState)
    (i : nat) :
  stop_step stop_pct qqq tqqq st i = Ok st' →
  ∃ q_ms q_p t_cur h th q_drop,
    tick_at qqq i = Ok (q_ms, q_p)
    ∧ price_at_time tqqq q_ms = Ok t_cur
    ∧ update_hwms (hwm st) (t_hwm st) q_p t_cur.2 = (h, th)
    ∧ drawdown h q_p = Ok q_drop
    ∧ ((trigger_cond stop_pct q_drop q_ms (last_trigger_ms st)
        ∧ ∃ t_drop r,
            drawdown th t_cur.2 = Ok t_drop
            ∧ (if decide (0 < q_drop)%Q then fdiv t_drop q_drop else Ok 0%Q) = Ok r
            ∧ st' = {| hwm := q_p;
                       t_hwm := t_cur.2;
                       last_trigger_ms := q_ms;
                       trigger_events := trigger_events st ++ [ {|
                         qqq_drop := py_round q_drop 4;
                         tqqq_drop := py_round t_drop 4;
                         ratio := py_round r 3;
                         tick_gap_ms := Z.abs (t_cur.1 - q_ms) |} ] |})
       ∨ (¬ trigger_cond stop_pct q_drop q_ms (last_trigger_ms st)
          ∧ st' = {| hwm := h;
                     t_hwm := th;
                     last_trigger_ms := last_trigger_ms st;
                     trigger_events := trigger_events st |})).
Proof.
  unfold stop_step. intros H.
  bind_inv H. destruct a as [q_ms q_p].
  bind_inv H. rename a into t_cur.
  destruct (update_hwms (hwm st) (t_hwm st) q_p t_cur.2) as [h th] eqn:Hupd.
  bind_inv H. rename a into q_drop.
  exists q_ms, q_p, t_cur, h, th, q_drop.
  repeat (split; [done|]).
  destruct (decide (trigger_cond stop_pct q_drop q_ms (last_trigger_ms st)))
    as [Hcond|Hcond].
  - left. split; [done|].
    bind_inv H. rename a into t_drop.
    bind_inv H. rename a into r.
    injection H as <-. by exists t_drop, r.
  - right. split; [done|]. by injection H as <-.
Qed.

Lemma not_fired_same (st st' : StopState) :
  trigger_events st' = trigger_events st → ¬ fired st st'.
Proof.
  intros Heq [ev Hev]. rewrite Heq in Hev.
  apply (f_equal length) in Hev. rewrite length_app in Hev. simpl in Hev. lia.
Qed.

(** The list of recorded triggers only grows. *)
Lemma stop_step_events (stop_pct : Q) (qqq tqqq : list Tick) (st st' : StopState)
    (i : nat) :
  stop_step stop_pct qqq tqqq st i = Ok st' →
  (fired st st'
   ∧ length (trigger_events st') = S (length (trigger_events st)))
  ∨ (trigger_events st' = trigger_events st ∧ ¬ fired st st').
Proof.
  intros H. apply stop_step_inv in H
    as (q_ms & q_p & t_cur & h & th & q_drop & _ & _ & _ & _
        & [(_ & t_drop & r & _ & _ & ->) | (_ & ->)]).
  - left. split; [by eexists|]. simpl. rewrite length_app. simpl. lia.
  - right. split; [done|]. by apply not_fired_same.
Qed.

Lemma stop_loop_events_length (stop_pct : Q) (qqq tqqq : list Tick) (idxs : list nat) :
  ∀ st st',
    stop_loop stop_pct qqq tqqq st idxs = Ok st' →
    (length (trigger_events st) ≤ length (trigger_events st'))%nat.
Proof.
  induction idxs as [|i rest IH]; intros st st' H.
  - simpl in H. by injection H as <-.
  - simpl in H. bind_inv H. rename a into st1.
    specialize (IH _ _ H).
    destruct (stop_step_events _ _ _ _ _ _ Ha) as [[_ Hlen] | [Heq _]].
    + lia.
    + by rewrite <- Heq.
Qed.

(** ** C3 *)

(** C3, as stated, fails.  On [qqq_cool] with threshold 0.5 the first drop
    records a trigger at 100000 ms; at 160000 ms the drawdown from the reset
    HWM is again exactly 0.5, inside the band, and 60 s, the whole cooldown,
    have elapsed since the last trigger, yet no trigger is recorded. *)
Lemma cooldown_boundary_no_trigger :
  ∃ st1 st2 d,
    stop_step 0.5 qqq_cool tqqq_cool cool_start 1 = Ok st1
    ∧ fired cool_start st1
    ∧ last_trigger_ms st1 = 100000
    ∧ stop_step 0.5 qqq_cool tqqq_cool st1 2 = Ok st2
    ∧ tick_at qqq_cool 2 = Ok (160000, 99.0025%Q)
    ∧ drawdown (update_hwms (hwm st1) (t_hwm st1) 99.0025 97).1 99.0025 = Ok d
    ∧ (0.5 <= d)%Q ∧ (d < 0.5 + 0.05)%Q
    ∧ 160000 - last_trigger_ms st1 >= cooldown_ms
    ∧ ¬ fired st1 st2.
Proof.
  eexists _, _, _.
  split; [by vm_compute|]. split; [by eexists|]. split; [done|].
  split; [by vm_compute|]. split; [done|]. split; [by vm_compute|].
  split; [done|]. split; [done|]. split; [done|].
  by apply not_fired_same.
Qed.

Lemma trigger_times_spaced (stop_pct : Q) (qqq tqqq : list Tick) (idxs : list nat) :
  ∀ st, spaced (last_trigger_ms st) (trigger_times stop_pct qqq tqqq st idxs).
Proof.
  induction idxs as [|i rest IH]; intros st; [done|].
  simpl. destruct (stop_step stop_pct qqq tqqq st i) as [st'|e] eqn:Hstep; [|done].
  destruct (stop_step_inv _ _ _ _ _ _ Hstep)
    as (q_ms & q_p & t_cur & h & th & q_drop & Hq & _ & _ & _ & Hcase).
  rewrite Hq. specialize (IH st').
  destruct Hcase as [((_ & _ & Hcool) & t_drop & r & _ & _ & ->) | (_ & ->)].
  - simpl in *.
    destruct (decide (length (trigger_events st)
                      < length (trigger_events st ++ [_]))%nat) as [_|Hn].
    + simpl. done.
    + rewrite length_app in Hn. simpl in Hn. lia.
  - simpl in *.
    destruct (decide (length (trigger_events st) < length (trigger_events st))%nat);
      [lia | done].
Qed.

Lemma spaced_pairwise (times : list Z) :
  ∀ last,
    spaced last times →
    (∀ k a, times !! k = Some a → a - last > cooldown_ms)
    ∧ (∀ k l a b, (k < l)%nat → times !! k = Some a → times !! l = Some b →
         b - a > cooldown_ms).
Proof.
  induction times as [|t rest IH]; intros last Hsp.
  - split; intros *; by rewrite ?lookup_nil.
  - destruct Hsp as [Ht Hrest]. destruct (IH t Hrest) as [Hafter Hpair].
    unfold cooldown_ms in *. split.
    + intros [|k] a Hk; simpl in Hk.
      * injection Hk as <-. done.
      * pose proof (Hafter k a Hk). lia.
    + intros k [|l] a b Hkl Hk Hl; [lia|]. simpl in Hl.
      destruct k as [|k]; simpl in Hk.
      * injection Hk as <-. by apply (Hafter l).
      * apply (Hpair k l); [lia | done | done].
Qed.

(** [trigger_times] lists exactly the ticks at which the loop appends. *)
Lemma trigger_times_length (stop_pct : Q) (qqq tqqq : list Tick) (idxs : list nat) :
  ∀ st st',
    stop_loop stop_pct qqq tqqq st idxs = Ok st' →
    length (trigger_events st')
    = (length (trigger_events st)
       + length (trigger_times stop_pct qqq tqqq st idxs))%nat.
Proof.
  induction idxs as [|i rest IH]; intros st st' H.
  - simpl in H. injection H as <-. simpl. lia.
  - simpl in H. bind_inv H. rename a into st1.
    simpl. rewrite Ha. specialize (IH _ _ H).
    destruct (stop_step_inv _ _ _ _ _ _ Ha)
      as (q_ms & q_p & t_cur & h & th & q_drop & Hq & _).
    rewrite Hq.
    destruct (stop_step_events _ _ _ _ _ _ Ha) as [[_ Hlen] | [Heq _]].
    + destruct (decide (length (trigger_events st) < length (trigger_events st1))%nat);
        [|lia]. rewrite length_app. simpl. lia.
    + destruct (decide (length (trigger_events st) < length (trigger_events st1))%nat)
        as [Hlt|_].
      * rewrite Heq in Hlt. lia.
      * simpl. rewrite IH, Heq. done.
Qed.

(** A reference falling from 100 to 99 with threshold 0.5 records exactly
    one trigger, when the drawdown first reaches 0.5%: the later re-entry of
    the band falls within the cooldown. *)
Example stop_trigger_single :
  ∃ st ev, stop_trigger 0.5 qqq_fall tqqq_fall = Ok st
           ∧ trigger_events st = [ev] ∧ last_trigger_ms st = 105000
           ∧ (qqq_drop ev == 0.5)%Q.
Proof.
  eexists _, _. split; [by vm_compute|]. split; [done|]. split; [done|]. reflexivity.
Qed.

Example stop_trigger_after_cooldown :
  ∃ st, stop_trigger 0.5 qqq_cool tqqq_cool = Ok st
        ∧ length (trigger_events st) = 2%nat ∧ last_trigger_ms st = 160001.
Proof. eexists. split; [by vm_compute | done]. Qed.

(** ** High-water marks between resets *)

Lemma hwm_run_snoc (h th : Q) (obs : list (Q * Q)) (o : Q * Q) :
  hwm_run h th (obs ++ [o])
  = update_hwms (hwm_run h th obs).1 (hwm_run h th obs).2 o.1 o.2.
Proof. unfold hwm_run. by rewrite foldl_app. Qed.

Lemma running_max_snoc (start : Q) (prices : list Q) (p : Q) :
  running_max start (prices ++ [p])
  = if decide (running_max start prices < p)%Q then p else running_max start prices.
Proof. unfold running_max. by rewrite foldl_app. Qed.

Lemma update_hwms_fst (h th q t : Q) :
  (update_hwms h th q t).1 = if decide (h < q)%Q then q else h.
Proof. unfold update_hwms. by destruct (decide (h < q)%Q). Qed.

(** The reference HWM is the running maximum of the reference prices. *)
Lemma hwm_run_fst (h th : Q) (obs : list (Q * Q)) :
  (hwm_run h th obs).1 = running_max h obs.*1.
Proof.
  induction obs as [|o obs IH] using rev_ind; [done|].
  replace ((obs ++ [o]).*1) with (obs.*1 ++ [o.1]) by (by rewrite fmap_app).
  rewrite hwm_run_snoc, update_hwms_fst, running_max_snoc. by rewrite IH.
Qed.

(** The derived HWM restarts from the derived price at every new high of
    the reference, and is a running maximum from there on. *)
Lemma hwm_run_snd (h th : Q) (obs : list (Q * Q)) :
  (Forall (λ o, (o.1 <= h)%Q) obs
   ∧ (hwm_run h th obs).1 = h
   ∧ (hwm_run h th obs).2 = running_max th obs.*2)
  ∨ (∃ pre q t post,
       obs = pre ++ (q, t) :: post
       ∧ (running_max h pre.*1 < q)%Q
       ∧ Forall (λ o, (o.1 <= q)%Q) post
       ∧ (hwm_run h th obs).1 = q
       ∧ (hwm_run h th obs).2 = running_max t post.*2).
Proof.
  induction obs as [|[q t] obs IH] using rev_ind.
  - left. by repeat split.
  - rewrite hwm_run_snoc. simpl.
    pose proof (hwm_run_fst h th obs) as Hfst.
    destruct (hwm_run h th obs) as [h' th'] eqn:Hrun. simpl in *.
    unfold update_hwms. destruct (decide (h' < q)%Q) as [Hhigh|Hlow].
    + right. exists obs, q, t, []. rewrite <- Hfst. simpl.
      repeat (split; [done|]). by destruct (decide (t < t)%Q).
    + apply Qnot_lt_le in Hlow. simpl.
      destruct IH as [(Hall & -> & ->) | (pre & q0 & t0 & post & -> & Hnew & Hall & -> & ->)].
      * left. split; [|split; [done|]].
        -- apply Forall_app. split; [done|]. by constructor.
        -- replace ((obs ++ [(q, t)]).*2) with (obs.*2 ++ [t])
             by (by rewrite fmap_app).
           by rewrite running_max_snoc.
      * right. exists pre, q0, t0, (post ++ [(q, t)]).
        rewrite <- app_assoc. simpl. split; [done|]. split; [done|]. split.
        -- apply Forall_app. split; [done|]. by constructor.
        -- split; [done|].
           replace ((post ++ [(q, t)]).*2) with (post.*2 ++ [t])
             by (by rewrite fmap_app).
           by rewrite running_max_snoc.
Qed.

(** A run that records no trigger only updates the two HWMs. *)
Lemma stop_loop_quiet (stop_pct : Q) (qqq tqqq : list Tick) (idxs : list nat) :
  ∀ st st',
    stop_loop stop_pct qqq tqqq st idxs = Ok st' →
    trigger_events st' = trigger_events st →
    ∃ obs,
      Forall2 (λ i o, observe qqq tqqq i = Ok o) idxs obs
      ∧ (hwm st', t_hwm st') = hwm_run (hwm st) (t_hwm st) obs.
Proof.
  induction idxs as [|i rest IH]; intros st st' H Hsame.
  - simpl in H. injection H as <-. exists []. split; [constructor | done].
  - simpl in H. bind_inv H. rename a into st1, Ha into Hstep.
    pose proof (stop_loop_events_length _ _ _ _ _ _ H) as Hlen.
    destruct (stop_step_events _ _ _ _ _ _ Hstep) as [[_ Hgrow] | [Heq _]].
    { rewrite Hsame in Hlen. lia. }
    destruct (IH st1 st' H) as (obs & Hobs & Hrun); [congruence|].
    apply stop_step_inv in Hstep
      as (q_ms & q_p & t_cur & h & th & q_drop & Hq & Ht & Hupd & _ & Hcase).
    destruct Hcase as [(_ & t_drop & r & _ & _ & ->) | (_ & ->)].
    { simpl in Heq. apply (f_equal length) in Heq. rewrite length_app in Heq.
      simpl in Heq. lia. }
    exists ((q_p, t_cur.2) :: obs). split.
    + constructor; [|done]. unfold observe. rewrite Hq. simpl. by rewrite Ht.
    + rewrite Hrun. unfold hwm_run. simpl. by rewrite Hupd.
Qed.

(** [running_max] is the greatest of the start value and the prices. *)
Lemma running_max_spec (start : Q) (prices : list Q) :
  (start <= running_max start prices)%Q
  ∧ Forall (λ p, (p <= running_max start prices)%Q) prices
  ∧ (running_max start prices = start ∨ running_max start prices ∈ prices).
Proof.
  induction prices as [|p prices IH] using rev_ind.
  - split; [apply Qle_refl|]. split; [constructor | by left].
  - rewrite running_max_snoc. destruct IH as (Hstart & Hall & Hmem).
    destruct (decide (running_max start prices < p)%Q) as [Hlt|Hge].
    + split; [lra|]. split.
      * apply Forall_app. split.
        -- eapply Forall_impl; [exact Hall|]. intros x Hx. simpl in Hx. lra.
        -- constructor; [apply Qle_refl | constructor].
      * right. apply elem_of_app. right. by left.
    + apply Qnot_lt_le in Hge. split; [done|]. split.
      * apply Forall_app. split; [done|]. by constructor.
      * destruct Hmem as [?|Hin]; [by left|]. right. apply elem_of_app. by left.
Qed.

(** ** C2 *)

(** C2, as stated, fails for the derived HWM.  On [qqq_new_high] no trigger
    is recorded; the long series is seen at 60 and then at 55, the reference
    making a new high at the second tick, and the derived HWM ends at 55
    although the running maximum of the derived prices is 60. *)
Lemma derived_hwm_not_running_max :
  ∃ st',
    stop_trigger 0.5 qqq_new_high tqqq_off_peak = Ok st'
    ∧ trigger_events st' = []
    ∧ Forall2 (λ i o, observe qqq_new_high tqqq_off_peak i = Ok o)
        [1; 2]%nat [(100, 60); (101, 55)]%Q
    ∧ hwm st' = running_max 100 [100; 101]%Q
    ∧ t_hwm st' = 55%Q
    ∧ running_max 50 [60; 55]%Q = 60%Q
    ∧ ¬ (t_hwm st' == running_max 50 [60; 55])%Q.
Proof.
  eexists. split; [by vm_compute|]. split; [done|].
  split; [by repeat constructor|]. split; [done|]. split; [done|].
  split; [done|]. by vm_compute.
Qed.

(** ** No exception on well-formed sessions *)

Lemma pct_change_total (p0 p1 : Q) : (0 < p0)%Q → is_Ok (pct_change p0 p1).
Proof.
  intros Hpos. eexists. apply pct_change_Ok. split; [|done].
  intros Hz. rewrite Hz in Hpos. by apply Qlt_irrefl in Hpos.
Qed.

Lemma py_range_lt (start stop step i : nat) :
  (0 < step)%nat → i ∈ py_range start stop step → (i < stop)%nat.
Proof.
  intros Hstep Hin. unfold py_range in Hin.
  apply list_elem_of_fmap in Hin as (k & -> & Hk).
  apply elem_of_seq in Hk as [_ Hk]. simpl in Hk.
  pose proof (Nat.Div0.mul_div_le (stop - start + step - 1) step) as Hdiv.
  nia.
Qed.

Lemma catchup_scan_total (t_responses : gmap Z Q) (expected : Q) (offsets : list Z) :
  (∀ o, o ∈ offsets → is_Some (t_responses !! o)) →
  is_Ok (catchup_scan t_responses expected offsets).
Proof.
  induction offsets as [|offset rest IH]; intros Hall; [by eexists|].
  simpl. destruct (Hall offset) as [v Hv]; [by left|].
  unfold dict_get. rewrite Hv. simpl.
  destruct (pct_of_expected_total v expected) as [r ->]. simpl.
  destruct (decide (90 <= r)%Q); [by eexists|].
  apply IH. intros o Ho. apply Hall. by right.
Qed.

Section well_formed.
Variables qqq tqqq sqqq : list Tick.
Hypothesis Hq_pos : Forall (λ tk : Tick, (0 < tk.2)%Q) qqq.
Hypothesis Ht_pos : Forall (λ tk : Tick, (0 < tk.2)%Q) tqqq.
Hypothesis Hs_pos : Forall (λ tk : Tick, (0 < tk.2)%Q) sqqq.
Hypothesis Ht_ne : tqqq ≠ [].
Hypothesis Hs_ne : sqqq ≠ [].

Lemma price_at_time_pos (ticks : list Tick) (ms : Z) :
  ticks ≠ [] → Forall (λ tk : Tick, (0 < tk.2)%Q) ticks →
  ∃ t_ms t_p, price_at_time ticks ms = Ok (t_ms, t_p) ∧ (0 < t_p)%Q.
Proof.
  intros Hne Hpos. destruct (price_at_time_total ticks ms Hne) as ([t_ms t_p] & Hp & Hin).
  exists t_ms, t_p. split; [done|].
  rewrite Forall_forall in Hpos. apply (Hpos _ Hin).
Qed.

Lemma tick_at_pos (i : nat) :
  (i < length qqq)%nat →
  ∃ q_ms q_p, tick_at qqq i = Ok (q_ms, q_p) ∧ (0 < q_p)%Q ∧ qqq ≠ [].
Proof.
  intros Hi. destruct (tick_at_lt qqq i Hi) as ([q_ms q_p] & Htk & Hlk).
  exists q_ms, q_p. split; [done|]. split.
  - rewrite Forall_forall in Hq_pos.
    apply (Hq_pos (q_ms, q_p)). by eapply list_elem_of_lookup_2.
  - intros ->. by rewrite lookup_nil in Hlk.
Qed.

(** Rewriting with the next lookup or percentage of a loop body. *)
Ltac next_lookup ticks ms Hne Hpos :=
  let t_ms := fresh "t_ms" in
  let t_p := fresh "t_p" in
  let Heq := fresh "Heq" in
  let Hp := fresh "Hp" in
  destruct (price_at_time_pos ticks ms Hne Hpos) as (t_ms & t_p & Heq & Hp);
  rewrite Heq; cbn [mbind result_bind].

Ltac next_pct p0 p1 Hpos :=
  let q := fresh "pct" in
  let Heq := fresh "Heq" in
  destruct (pct_change_total p0 p1 Hpos) as [q Heq];
  rewrite Heq; cbn [mbind result_bind].

Lemma ratio_sample_total (window_ms : Z) (i : nat) :
  (i < length qqq)%nat → is_Ok (ratio_sample qqq tqqq sqqq window_ms i).
Proof.
  intros Hi. unfold ratio_sample.
  destruct (tick_at_pos i Hi) as (q0_ms & q0_p & -> & Hq0 & Hq_ne).
  cbn [mbind result_bind].
  next_lookup qqq (q0_ms + window_ms) Hq_ne Hq_pos.
  destruct (decide _); [by eexists|].
  next_pct q0_p t_p Hq0.
  destruct (decide (Qabs pct < 0.005)%Q) as [|Hnoise]; [by eexists|].
  next_lookup tqqq q0_ms Ht_ne Ht_pos.
  next_lookup tqqq (q0_ms + window_ms) Ht_ne Ht_pos.
  next_pct t_p0 t_p1 Hp0.
  next_lookup sqqq q0_ms Hs_ne Hs_pos.
  next_lookup sqqq (q0_ms + window_ms) Hs_ne Hs_pos.
  next_pct t_p2 t_p3 Hp2.
  destruct (decide (¬ pct == 0)%Q) as [Hnz|]; [|by eexists].
  unfold fdiv. destruct (decide (pct == 0)%Q); [done|]. by eexists.
Qed.

Lemma fill_responses_total (q0_ms : Z) (t0_p s0_p : Q) (offsets : list Z) :
  (0 < t0_p)%Q → (0 < s0_p)%Q →
  ∀ t_responses s_responses,
    is_Ok (fill_responses tqqq sqqq q0_ms t0_p s0_p offsets t_responses s_responses).
Proof.
  intros Ht0 Hs0. induction offsets as [|offset rest IH]; intros tr sr; [by eexists|].
  simpl.
  next_lookup tqqq (q0_ms + move_window_ms + offset) Ht_ne Ht_pos.
  next_lookup sqqq (q0_ms + move_window_ms + offset) Hs_ne Hs_pos.
  simpl.
  next_pct t0_p t_p Ht0.
  next_pct s0_p t_p0 Hs0.
  apply IH.
Qed.

Lemma detect_move_total (i : nat) :
  (i < length qqq)%nat → is_Ok (detect_move qqq tqqq sqqq i).
Proof.
  intros Hi. unfold detect_move.
  destruct (tick_at_pos i Hi) as (q0_ms & q0_p & -> & Hq0 & Hq_ne).
  cbn [mbind result_bind].
  next_lookup qqq (q0_ms + move_window_ms) Hq_ne Hq_pos.
  destruct (decide _); [by eexists|].
  next_pct q0_p t_p Hq0.
  destruct (decide (Qabs pct < move_threshold_pct)%Q) as [|Hmove]; [by eexists|].
  next_lookup tqqq q0_ms Ht_ne Ht_pos.
  next_lookup sqqq q0_ms Hs_ne Hs_pos.
  destruct (fill_responses_total q0_ms t_p0 t_p1 watch_steps Hp0 Hp1 ∅ ∅)
    as [[t_responses s_responses] Hfill].
  rewrite Hfill. cbn [mbind result_bind].
  assert (Hkeys : ∀ o, o ∈ watch_steps →
            is_Some (t_responses !! o) ∧ is_Some (s_responses !! o)).
  { intros o Ho.
    destruct (fill_responses_lookup _ _ _ _ _ _ _ _ _ _ o Hfill Ho)
      as [(vt & _ & Hvt) (vs & _ & Hvs)]. split; by eexists. }
  destruct (Hkeys 0 ltac:(by left)) as [[t_at_end Hte] [s_at_end Hse]].
  unfold dict_get at 1 2. rewrite Hte, Hse. cbn [mbind result_bind].
  destruct (pct_of_expected_total t_at_end (pct * 3)) as [t_achieved ->].
  destruct (pct_of_expected_total s_at_end (pct * -3)) as [s_achieved ->].
  cbn [mbind result_bind].
  destruct (catchup_scan_total t_responses (pct * 3) watch_steps) as [c ->].
  { intros o Ho. by apply Hkeys. }
  by eexists.
Qed.

(** The simulator keeps both HWMs positive and raises nothing. *)
Lemma stop_step_total (stop_pct : Q) (st : StopState) (i : nat) :
  (i < length qqq)%nat → (0 < hwm st)%Q → (0 < t_hwm st)%Q →
  ∃ st', stop_step stop_pct qqq tqqq st i = Ok st'
         ∧ (0 < hwm st')%Q ∧ (0 < t_hwm st')%Q.
Proof.
  intros Hi Hh Hth. unfold stop_step.
  destruct (tick_at_pos i Hi) as (q_ms & q_p & -> & Hq & Hq_ne).
  cbn [mbind result_bind].
  destruct (price_at_time_pos tqqq q_ms Ht_ne Ht_pos) as (t_ms & t_p & -> & Ht).
  cbn [mbind result_bind snd fst].
  assert (Hupd : ∃ h th, update_hwms (hwm st) (t_hwm st) q_p t_p = (h, th)
                         ∧ (0 < h)%Q ∧ (0 < th)%Q).
  { unfold update_hwms.
    destruct (decide (hwm st < q_p)%Q), (decide (_ < t_p)%Q); by eexists _, _. }
  destruct Hupd as (h & th & -> & Hh' & Hth').
  assert (Hdd : ∀ a b, (0 < a)%Q → drawdown a b = Ok ((a - b) / a * 100)%Q).
  { intros a b Ha. by apply drawdown_pos. }
  rewrite (Hdd h q_p Hh'). cbn [mbind result_bind].
  destruct (decide (trigger_cond _ _ _ _)); [|by eexists].
  rewrite (Hdd th t_p Hth'). cbn [mbind result_bind].
  set (q_drop := ((h - q_p) / h * 100)%Q).
  destruct (decide (0 < q_drop)%Q) as [Hqd|].
  - unfold fdiv. destruct (decide (q_drop == 0)%Q) as [Hz|].
    + rewrite Hz in Hqd. by apply Qlt_irrefl in Hqd.
    + by eexists.
  - by eexists.
Qed.

Lemma collect_ratios_total (window_ms : Z) (idxs : list nat) :
  Forall (λ i, (i < length qqq)%nat) idxs →
  ∀ t_ratios s_ratios,
    length s_ratios = length t_ratios →
    ∃ t_ratios' s_ratios',
      collect_ratios qqq tqqq sqqq window_ms idxs t_ratios s_ratios
      = Ok (t_ratios', s_ratios')
      ∧ length s_ratios' = length t_ratios'.
Proof.
  induction idxs as [|i rest IH]; intros Hall t s Hlen.
  - by exists t, s.
  - apply Forall_cons in Hall as [Hi Hall]. simpl.
    destruct (ratio_sample_total window_ms i Hi) as [r ->]. cbn [mbind result_bind].
    destruct r as [[t_ratio s_ratio]|]; apply (IH Hall); [|done].
    rewrite !length_app. simpl. lia.
Qed.

(** On well-formed series every window yields a report. *)
Lemma rolling_ratio_total (window_sec : Z) :
  is_Ok (rolling_ratio qqq tqqq sqqq window_sec).
Proof.
  unfold rolling_ratio.
  assert (Hidx : Forall (λ i, (i < length qqq)%nat)
                   (py_range 0 (length qqq) (Nat.max 1 (length qqq / 500)))).
  { apply Forall_forall. intros i Hi. eapply py_range_lt; [|exact Hi]. lia. }
  destruct (collect_ratios_total (window_sec * 1000) _ Hidx [] [] eq_refl)
    as (t_ratios & s_ratios & -> & Hlen).
  cbn [mbind result_bind].
  destruct (window_report_spec t_ratios s_ratios Hlen)
    as [(_ & st & -> & _) | (_ & ->)]; by eexists.
Qed.

Lemma collect_moves_total (idxs : list nat) :
  Forall (λ i, (i < length qqq)%nat) idxs →
  ∀ move_events, is_Ok (collect_moves qqq tqqq sqqq idxs move_events).
Proof.
  induction idxs as [|i rest IH]; intros Hall evs; [by eexists|].
  apply Forall_cons in Hall as [Hi Hall]. simpl.
  destruct (detect_move_total i Hi) as [r ->]. cbn [mbind result_bind].
  destruct r; by apply IH.
Qed.

(** On well-formed series the detector yields its list of events. *)
Lemma move_lag_total : is_Ok (move_lag qqq tqqq sqqq).
Proof.
  unfold move_lag. apply collect_moves_total.
  apply Forall_forall. intros i Hi. eapply py_range_lt; [|exact Hi]. lia.
Qed.

Lemma stop_loop_total (stop_pct : Q) (idxs : list nat) :
  Forall (λ i, (i < length qqq)%nat) idxs →
  ∀ st, (0 < hwm st)%Q → (0 < t_hwm st)%Q →
        is_Ok (stop_loop stop_pct qqq tqqq st idxs).
Proof.
  induction idxs as [|i rest IH]; intros Hall st Hh Hth; [by eexists|].
  apply Forall_cons in Hall as [Hi Hall]. simpl.
  destruct (stop_step_total stop_pct st i Hi Hh Hth) as (st' & -> & Hh' & Hth').
  cbn [mbind result_bind]. by apply IH.
Qed.

(** On well-formed series the simulator runs to its end. *)
Lemma stop_trigger_total (stop_pct : Q) :
  qqq ≠ [] → is_Ok (stop_trigger stop_pct qqq tqqq).
Proof.
  intros Hq_ne. unfold stop_trigger.
  assert (0 < length qqq)%nat as Hq_len.
  { destruct (decide (length qqq = 0%nat)) as [Hz|]; [|lia].
    by apply length_zero_iff_nil in Hz. }
  assert (0 < length tqqq)%nat as Ht_len.
  { destruct (decide (length tqqq = 0%nat)) as [Hz|]; [|lia].
    by apply length_zero_iff_nil in Hz. }
  destruct (tick_at_pos 0 Hq_len) as (q_ms & q_p & -> & Hq0 & _).
  destruct (tick_at_lt tqqq 0 Ht_len) as ([t_ms t_p] & -> & Hlk).
  cbn [mbind result_bind snd].
  apply stop_loop_total; cbn [hwm t_hwm]; [|done|].
  - apply Forall_forall. intros i Hi. eapply py_range_lt; [|exact Hi]. lia.
  - rewrite Forall_forall in Ht_pos.
    apply (Ht_pos (t_ms, t_p)). by eapply list_elem_of_lookup_2.
Qed.

End well_formed.

(** * Further properties of the lookup *)

(** On a non-empty sorted series the returned tick is nearest to the target
    and sits at the target's place in the series: ticks before it are
    earlier than the target, ticks after it are not. *)
Lemma find_nearest_idx_shape (ticks : list Tick) (target_ms : Z) (r : nat) :
  sorted_by_time ticks = true → ticks ≠ [] →
  find_nearest_idx ticks target_ms = Ok r →
  ∃ tr,
    ticks !! r = Some tr
    ∧ (∀ j tj, ticks !! j = Some tj →
         Z.abs (tr.1 - target_ms) ≤ Z.abs (tj.1 - target_ms))
    ∧ (∀ j tj, (j < r)%nat → ticks !! j = Some tj → tj.1 < target_ms)
    ∧ (∀ j tj, (r < j)%nat → ticks !! j = Some tj → target_ms ≤ tj.1).
Proof.
  intros Hs Hne Hr.
  destruct (find_nearest_idx_spec ticks target_ms Hne Hs)
    as (lo & t_lo & Hlk & Hlow & Hup & Hres).
  pose proof (lookup_lt_Some _ _ _ Hlk) as Hlo_lt.
  assert (Hafter : ∀ j tj, (lo < j)%nat → ticks !! j = Some tj →
            target_ms ≤ t_lo.1 ∧ t_lo.1 ≤ tj.1).
  { intros j tj Hj Hlj. pose proof (lookup_lt_Some _ _ _ Hlj) as Hj_lt.
    split; [apply Hup; lia|].
    apply (sorted_by_time_lookup ticks lo j t_lo tj Hs); [lia | done | done]. }
  destruct Hres as [[-> Hres] | (t_prev & Hpos & Hlkp & Hres)].
  - rewrite Hres in Hr. injection Hr as <-. exists t_lo. split; [done|]. split.
    { intros [|j] tj Hlj.
      - assert (tj = t_lo) as -> by congruence. lia.
      - destruct (Hafter (S j) tj ltac:(lia) Hlj). lia. }
    split; [intros; lia|]. intros j tj Hj Hlj.
    destruct (Hafter j tj Hj Hlj). lia.
  - assert (Hprev : t_prev.1 < target_ms) by (apply (Hlow (lo - 1)%nat); [lia | done]).
    pose proof (sorted_by_time_lookup ticks (lo - 1) lo t_prev t_lo Hs
                  ltac:(lia) Hlkp Hlk) as Hpl.
    assert (Hbefore : ∀ j tj, (j < lo)%nat → ticks !! j = Some tj →
              tj.1 < target_ms ∧ tj.1 ≤ t_prev.1).
    { intros j tj Hj Hlj. split; [by apply (Hlow j)|].
      apply (sorted_by_time_lookup ticks j (lo - 1) tj t_prev Hs); [lia | done | done]. }
    rewrite Hres in Hr. injection Hr as <-.
    destruct (decide (Z.abs (t_lo.1 - target_ms) > Z.abs (t_prev.1 - target_ms)))
      as [Hcloser|Hnot].
    + exists t_prev. split; [done|]. split.
      { intros j tj Hlj. destruct (decide (j < lo)%nat) as [Hj|Hj].
        - destruct (Hbefore j tj Hj Hlj). lia.
        - destruct (decide (j = lo)) as [->|Hjne].
          + assert (tj = t_lo) as -> by congruence. lia.
          + destruct (Hafter j tj ltac:(lia) Hlj). lia. }
      split.
      { intros j tj Hj Hlj. destruct (Hbefore j tj ltac:(lia) Hlj). done. }
      intros j tj Hj Hlj. destruct (decide (j = lo)) as [->|Hjne].
      * assert (tj = t_lo) as -> by congruence. lia.
      * destruct (Hafter j tj ltac:(lia) Hlj). lia.
    + exists t_lo. split; [done|]. split.
      { intros j tj Hlj. destruct (decide (j < lo)%nat) as [Hj|Hj].
        - destruct (Hbefore j tj Hj Hlj). lia.
        - destruct (decide (j = lo)) as [->|Hjne].
          + assert (tj = t_lo) as -> by congruence. lia.
          + destruct (Hafter j tj ltac:(lia) Hlj). lia. }
      split.
      { intros j tj Hj Hlj. by destruct (Hbefore j tj Hj Hlj). }
      intros j tj Hj Hlj. destruct (Hafter j tj Hj Hlj). lia.
Qed.

(** X1. [price_at_time] raises [IndexError] exactly on the empty series,
    where [find_nearest_idx] answers 0; on every other series, sorted or
    not, it returns one of the series' ticks. *)
Theorem price_at_time_error_iff_empty (ticks : list Tick) (ms : Z) :
  (price_at_time ticks ms = Raise IndexError ↔ ticks = [])
  ∧ (ticks ≠ [] → ∃ tk, price_at_time ticks ms = Ok tk ∧ tk ∈ ticks)
  ∧ find_nearest_idx [] ms = Ok 0%nat.
Proof.
  split; [|split; [apply price_at_time_total | done]].
  split.
  - intros Herr. destruct ticks as [|tk rest]; [done|].
    destruct (price_at_time_total (tk :: rest) ms) as (tk' & Hok & _); [done|].
    congruence.
  - by intros ->.
Qed.

(** X2. On a sorted series the returned index is the target's place: every
    tick before it is earlier than the target and every tick after it is at
    or after the target.  When some tick carries exactly the target
    timestamp, the first such tick is the one returned. *)
Theorem find_nearest_idx_placement (ticks : list Tick) (target_ms : Z) (r : nat) :
  sorted_by_time ticks = true → ticks ≠ [] →
  find_nearest_idx ticks target_ms = Ok r →
  (∀ j tj, (j < r)%nat → ticks !! j = Some tj → tj.1 < target_ms)
  ∧ (∀ j tj, (r < j)%nat → ticks !! j = Some tj → target_ms ≤ tj.1)
  ∧ (∀ k tk, ticks !! k = Some tk → tk.1 = target_ms →
       (r ≤ k)%nat ∧ ∃ tr, ticks !! r = Some tr ∧ tr.1 = target_ms).
Proof.
  intros Hs Hne Hr.
  destruct (find_nearest_idx_shape ticks target_ms r Hs Hne Hr)
    as (tr & Hlk & Hnear & Hbefore & Hafter).
  split; [done|]. split; [done|].
  intros k tk Hk Hhit. split.
  - destruct (decide (r ≤ k)%nat) as [|Hn]; [done|].
    pose proof (Hbefore k tk ltac:(lia) Hk). lia.
  - exists tr. split; [done|]. pose proof (Hnear k tk Hk). lia.
Qed.

Lemma find_nearest_idx_placement_witness :
  let ticks : list Tick := [(10, 1%Q); (20, 2%Q); (20, 3%Q); (40, 4%Q)] in
  sorted_by_time ticks = true ∧ ticks ≠ []
  ∧ find_nearest_idx ticks 20 = Ok 1%nat
  ∧ (∀ j tj, (j < 1)%nat → ticks !! j = Some tj → tj.1 < 20)
  ∧ (∀ j tj, (1 < j)%nat → ticks !! j = Some tj → 20 ≤ tj.1)
  ∧ (∀ k tk, ticks !! k = Some tk → tk.1 = 20 →
       (1 ≤ k)%nat ∧ ∃ tr, ticks !! 1%nat = Some tr ∧ tr.1 = 20).
Proof.
  intros ticks. split; [reflexivity|]. split; [done|]. split; [reflexivity|].
  apply (find_nearest_idx_placement ticks 20 1); [reflexivity | done | reflexivity].
Defined.

(** X3. On a sorted series the lookup is monotone: a later target never
    yields an earlier index. *)
Theorem find_nearest_idx_monotone (ticks : list Tick) (a b : Z) (ra rb : nat) :
  sorted_by_time ticks = true → a ≤ b →
  find_nearest_idx ticks a = Ok ra → find_nearest_idx ticks b = Ok rb →
  (ra ≤ rb)%nat.
Proof.
  intros Hs Hab Ha Hb.
  destruct ticks as [|tk rest] eqn:Hticks.
  { injection Ha as <-. injection Hb as <-. done. }
  rewrite <- Hticks in *.
  assert (ticks ≠ []) as Hne by (rewrite Hticks; done).
  destruct (find_nearest_idx_shape ticks a ra Hs Hne Ha)
    as (ta & Hlka & Hneara & Hbeforea & Haftera).
  destruct (find_nearest_idx_shape ticks b rb Hs Hne Hb)
    as (tb & Hlkb & Hnearb & Hbeforeb & Hafterb).
  destruct (decide (ra ≤ rb)%nat) as [|Hgt]; [done|]. exfalso.
  pose proof (Hbeforea rb tb ltac:(lia) Hlkb) as H1.
  pose proof (Hafterb ra ta ltac:(lia) Hlka) as H2.
  pose proof (Hneara rb tb Hlkb) as H3.
  pose proof (Hnearb ra ta Hlka) as H4.
  assert (a = b) as -> by lia.
  rewrite Ha in Hb. injection Hb as ->. lia.
Qed.

Lemma find_nearest_idx_monotone_witness :
  let ticks : list Tick := [(10, 1%Q); (20, 2%Q); (40, 3%Q)] in
  sorted_by_time ticks = true ∧ 12 ≤ 33
  ∧ find_nearest_idx ticks 12 = Ok 0%nat ∧ find_nearest_idx ticks 33 = Ok 2%nat
  ∧ (0 ≤ 2)%nat.
Proof.
  intros ticks. split; [reflexivity|]. split; [lia|].
  split; [reflexivity|]. split; [reflexivity|].
  apply (find_nearest_idx_monotone ticks 12 33 0 2); [reflexivity | lia | reflexivity | reflexivity].
Defined.

(** * Further properties of [percentile] *)

Lemma py_int_ceiling (x : Q) : (x <= 0)%Q → py_int x = Qceiling x.
Proof.
  destruct x as [n d]. unfold Qle, py_int, Qceiling, Qfloor. simpl. intros Hn.
  assert (n ≤ 0) as Hn' by lia.
  rewrite <- (Z.opp_involutive n) at 1.
  rewrite Z.quot_opp_l by lia. f_equal. apply Z.quot_div_nonneg; lia.
Qed.

(** [int()] never decreases. *)
Lemma py_int_monotone (x y : Q) : (x <= y)%Q → py_int x ≤ py_int y.
Proof.
  intros Hxy.
  destruct (Qlt_le_dec x 0) as [Hx|Hx], (Qlt_le_dec y 0) as [Hy|Hy].
  - rewrite !py_int_ceiling by lra. by apply Qceiling_resp_le.
  - rewrite (py_int_ceiling x) by lra. rewrite (py_int_floor y) by done.
    assert (Qceiling x ≤ Qceiling 0) by (apply Qceiling_resp_le; lra).
    assert (Qfloor 0 ≤ Qfloor y) by (by apply Qfloor_resp_le).
    change (Qceiling 0) with 0 in *. change (Qfloor 0) with 0 in *. lia.
  - lra.
  - rewrite !py_int_floor by lra. by apply Qfloor_resp_le.
Qed.

(** On a non-empty list, whatever the percentage, the clamped index is in
    range and [percentile] returns its element. *)
Lemma percentile_at (sorted_list : list Q) (p : Q) :
  sorted_list ≠ [] →
  let len := Z.of_nat (length sorted_list) in
  let idx := Z.max 0 (Z.min (py_int (inject_Z len * p / 100)) (len - 1)) in
  0 ≤ idx ≤ len - 1
  ∧ ∃ x, sorted_list !! Z.to_nat idx = Some x ∧ percentile sorted_list p = Ok x.
Proof.
  intros Hne len idx.
  assert (0 < len) as Hlen by (destruct sorted_list; [done | unfold len; simpl; lia]).
  assert (0 ≤ idx ≤ len - 1) as Hidx by (unfold idx; lia).
  split; [done|].
  destruct (lookup_lt_is_Some_2 sorted_list (Z.to_nat idx)) as [x Hx].
  { unfold len in *. lia. }
  exists x. split; [done|].
  destruct sorted_list as [|y rest]; [done|].
  unfold percentile. fold len. fold idx. by rewrite Hx.
Qed.

Lemma scaled_rank_monotone (len : Z) (p q : Q) :
  0 ≤ len → (p <= q)%Q →
  (inject_Z len * p / 100 <= inject_Z len * q / 100)%Q.
Proof.
  intros Hlen Hpq. unfold Qdiv. apply Qmult_le_compat_r; [|done].
  rewrite !(Qmult_comm (inject_Z len)). apply Qmult_le_compat_r; [done|].
  unfold Qle. simpl. lia.
Qed.

Example percentile_negative : percentile [1; 2; 3; 4; 5]%Q (-30) = Ok 1%Q.
Proof. reflexivity. Qed.

Example percentile_beyond : percentile [1; 2; 3; 4; 5]%Q 250 = Ok 5%Q.
Proof. reflexivity. Qed.

Lemma StronglySorted_lookup_le (l : list Q) (i j : nat) (x y : Q) :
  StronglySorted Qle l → (i ≤ j)%nat → l !! i = Some x → l !! j = Some y →
  (x <= y)%Q.
Proof.
  intros Hs. revert i j. induction Hs as [|a l Hs IH Hall]; intros i j Hij Hi Hj.
  - by rewrite lookup_nil in Hi.
  - destruct i as [|i], j as [|j]; simpl in *.
    + assert (x = y) as -> by congruence. apply Qle_refl.
    + injection Hi as <-. rewrite Forall_forall in Hall.
      apply Hall. by eapply list_elem_of_lookup_2.
    + lia.
    + apply (IH i j); [lia | done | done].
Qed.

Lemma percentile_ascending (sorted_list : list Q) (p q x y : Q) :
  StronglySorted Qle sorted_list → (p <= q)%Q →
  percentile sorted_list p = Ok x → percentile sorted_list q = Ok y →
  (x <= y)%Q.
Proof.
  intros Hs Hpq Hx Hy.
  destruct sorted_list as [|z rest] eqn:Hl.
  { injection Hx as <-. injection Hy as <-. apply Qle_refl. }
  rewrite <- Hl in *. assert (sorted_list ≠ []) as Hne by (by rewrite Hl).
  destruct (percentile_at sorted_list p Hne) as (Hip & x' & Hx' & Hpx).
  destruct (percentile_at sorted_list q Hne) as (Hiq & y' & Hy' & Hpy).
  assert (x' = x) as -> by congruence. assert (y' = y) as -> by congruence.
  set (len := Z.of_nat (length sorted_list)) in *.
  pose proof (py_int_monotone _ _ (scaled_rank_monotone len p q ltac:(lia) Hpq)).
  eapply (StronglySorted_lookup_le sorted_list); [done | | exact Hx' | exact Hy'].
  lia.
Qed.

(** X5. On a list in ascending order [percentile] is monotone in the
    percentage: a larger [p] never gives a smaller element. *)
Theorem percentile_monotone (sorted_list : list Q) (p q x y : Q) :
  StronglySorted Qle sorted_list → (p <= q)%Q →
  percentile sorted_list p = Ok x → percentile sorted_list q = Ok y →
  (x <= y)%Q.
Proof. apply percentile_ascending. Qed.

Lemma percentile_monotone_witness :
  StronglySorted Qle [1; 2; 3; 4; 5]%Q ∧ (10 <= 90)%Q
  ∧ percentile [1; 2; 3; 4; 5]%Q 10 = Ok 1%Q
  ∧ percentile [1; 2; 3; 4; 5]%Q 90 = Ok 5%Q
  ∧ (1 <= 5)%Q.
Proof.
  assert (Hs : StronglySorted Qle [1; 2; 3; 4; 5]%Q).
  { repeat (constructor; [|by repeat constructor]). constructor. }
  split; [done|]. split; [done|]. split; [reflexivity|]. split; [reflexivity|].
  apply (percentile_monotone [1; 2; 3; 4; 5]%Q 10 90 1 5 Hs); done.
Defined.

(** * Rounding *)

Lemma round_half_even_bounds (x : Q) :
  Qfloor x ≤ round_half_even x ≤ Qfloor x + 1.
Proof.
  unfold round_half_even.
  destruct (x - inject_Z (Qfloor x) ?= 1 # 2)%Q; [|lia|lia].
  destruct (Z.even (Qfloor x)); lia.
Qed.

Lemma round_half_even_monotone (x y : Q) :
  (x <= y)%Q → round_half_even x ≤ round_half_even y.
Proof.
  intros Hxy. pose proof (Qfloor_resp_le x y Hxy) as Hf.
  destruct (decide (Qfloor x = Qfloor y)) as [Heq|Hne].
  - unfold round_half_even. rewrite <- Heq.
    destruct (Qcompare_spec (x - inject_Z (Qfloor x)) (1 # 2)) as [Hx|Hx|Hx],
             (Qcompare_spec (y - inject_Z (Qfloor x)) (1 # 2)) as [Hy|Hy|Hy];
      try lia; try (destruct (Z.even (Qfloor x)); lia); exfalso; lra.
  - pose proof (round_half_even_bounds x). pose proof (round_half_even_bounds y). lia.
Qed.

Lemma scale_pos (ndigits : nat) : (0 < inject_Z (10 ^ Z.of_nat ndigits))%Q.
Proof.
  unfold Qlt. simpl. pose proof (Z.pow_pos_nonneg 10 (Z.of_nat ndigits)). lia.
Qed.

(** [round(x, n)] never decreases in [x]. *)
Lemma py_round_monotone (x y : Q) (ndigits : nat) :
  (x <= y)%Q → (py_round x ndigits <= py_round y ndigits)%Q.
Proof.
  intros Hxy. unfold py_round. pose proof (scale_pos ndigits) as Hs.
  set (scale := inject_Z (10 ^ Z.of_nat ndigits)) in *.
  unfold Qdiv. apply Qmult_le_compat_r.
  - rewrite <- Zle_Qle. apply round_half_even_monotone.
    apply Qmult_le_compat_r; [done | lra].
  - apply Qlt_le_weak. by apply Qinv_lt_0_compat.
Qed.

(** * Sample counts *)

Lemma py_range_length (start stop step : nat) :
  length (py_range start stop step) = ((stop - start + step - 1) / step)%nat.
Proof. unfold py_range. by rewrite length_fmap, length_seq. Qed.

(** A stride of [max(1, n // N)] visits fewer than [2 N] of [n] ticks. *)
Lemma stride_count (start n N : nat) :
  (0 < N)%nat →
  (length (py_range start n (Nat.max 1 (n / N))) < 2 * N)%nat.
Proof.
  intros HN. rewrite py_range_length.
  pose proof (Nat.div_mod_eq n N) as Hn.
  pose proof (Nat.mod_upper_bound n N ltac:(lia)) as Hr.
  set (k := (n / N)%nat) in *.
  set (step := Nat.max 1 k).
  assert (1 ≤ step)%nat as Hstep by lia.
  pose proof (Nat.Div0.mul_div_le (n - start + step - 1) step) as Hc.
  set (c := ((n - start + step - 1) / step)%nat) in *.
  destruct (decide (k = 0)%nat) as [Hk|Hk].
  - assert (step = 1)%nat as Hs1 by lia. rewrite Hs1 in Hc. lia.
  - assert (step = k) as Hsk by lia. rewrite Hsk in Hc.
    destruct (decide (c < 2 * N)%nat) as [|Hbig]; [done|].
    assert (2 * N ≤ c)%nat as Hge by lia.
    assert (k * (2 * N) ≤ k * c)%nat as Hmul by (apply Nat.mul_le_mono_l; lia).
    nia.
Qed.

Lemma collect_ratios_length (qqq tqqq sqqq : list Tick) (window_ms : Z)
    (idxs : list nat) :
  ∀ t_ratios s_ratios t_ratios' s_ratios',
    collect_ratios qqq tqqq sqqq window_ms idxs t_ratios s_ratios
    = Ok (t_ratios', s_ratios') →
    (length t_ratios' ≤ length t_ratios + length idxs)%nat.
Proof.
  induction idxs as [|i rest IH]; intros t s t' s' H.
  - simpl in H. injection H as <- <-. simpl. lia.
  - simpl in H. bind_inv H. destruct a as [[t_ratio s_ratio]|];
      apply IH in H; rewrite ?length_app in H; simpl in *; lia.
Qed.

Lemma collect_moves_length (qqq tqqq sqqq : list Tick) (idxs : list nat) :
  ∀ move_events move_events',
    collect_moves qqq tqqq sqqq idxs move_events = Ok move_events' →
    (length move_events' ≤ length move_events + length idxs)%nat.
Proof.
  induction idxs as [|i rest IH]; intros evs evs' H.
  - simpl in H. injection H as <-. simpl. lia.
  - simpl in H. bind_inv H. destruct a as [e|];
      apply IH in H; rewrite ?length_app in H; simpl in *; lia.
Qed.

Lemma stop_loop_events_bound (stop_pct : Q) (qqq tqqq : list Tick) (idxs : list nat) :
  ∀ st st',
    stop_loop stop_pct qqq tqqq st idxs = Ok st' →
    (length (trigger_events st') ≤ length (trigger_events st) + length idxs)%nat.
Proof.
  induction idxs as [|i rest IH]; intros st st' H.
  - simpl in H. injection H as <-. simpl. lia.
  - simpl in H. bind_inv H. rename a into st1. apply IH in H.
    destruct (stop_step_events _ _ _ _ _ _ Ha) as [[_ Hlen] | [Heq _]].
    + simpl. lia.
    + rewrite Heq in H. simpl. lia.
Qed.

(** X6. The strides bound the work whatever the size of the session: a
    window reports at least 11 and fewer than 1000 ratio samples (and at
    most 10 when it reports insufficient data), the detector records fewer
    than 2000 events and a stop threshold fewer than 6000 triggers. *)
Theorem sample_counts_bounded (qqq tqqq sqqq : list Tick) :
  (∀ window_sec rep,
     rolling_ratio qqq tqqq sqqq window_sec = Ok rep →
     match rep with
     | Reported st => (11 ≤ ws_n st < 2 * 500)%nat
     | InsufficientData n => (n ≤ 10)%nat
     end)
  ∧ (∀ move_events,
       move_lag qqq tqqq sqqq = Ok move_events →
       (length move_events < 2 * 1000)%nat)
  ∧ (∀ stop_pct st,
       stop_trigger stop_pct qqq tqqq = Ok st →
       (length (trigger_events st) < 2 * 3000)%nat).
Proof.
  split; [|split].
  - intros window_sec rep H. unfold rolling_ratio in H.
    bind_inv H. destruct a as [t_ratios s_ratios].
    pose proof (collect_ratios_length _ _ _ _ _ _ _ _ _ Ha) as Hlen.
    pose proof (stride_count 0 (length qqq) 500 ltac:(lia)) as Hstride.
    cbn [length Nat.add] in Hlen. unfold window_report in H.
    destruct (decide (10 < length t_ratios)%nat).
    + repeat (bind_inv H). injection H as <-. cbn [ws_n]. lia.
    + injection H as <-. lia.
  - intros move_events H. unfold move_lag in H.
    pose proof (collect_moves_length _ _ _ _ _ _ H) as Hlen.
    pose proof (stride_count 0 (length qqq) 1000 ltac:(lia)) as Hstride.
    cbn [length Nat.add] in Hlen. lia.
  - intros stop_pct st H. unfold stop_trigger in H.
    bind_inv H. bind_inv H.
    pose proof (stop_loop_events_bound _ _ _ _ _ _ H) as Hlen.
    pose proof (stride_count 1 (length qqq) 3000 ltac:(lia)) as Hstride.
    cbn [length Nat.add trigger_events] in Hlen. lia.
Qed.

Lemma sample_counts_bounded_witness :
  ∃ st, rolling_ratio qqq_ramp tqqq_ramp sqqq_ramp 5 = Ok (Reported st)
        ∧ (11 ≤ ws_n st < 2 * 500)%nat.
Proof.
  destruct (sample_counts_bounded qqq_ramp tqqq_ramp sqqq_ramp) as [Hwin _].
  destruct (rolling_ratio qqq_ramp tqqq_ramp sqqq_ramp 5) as [[st|n]|e] eqn:Hrep.
  - exists st. split; [done|]. apply (Hwin 5 (Reported st) Hrep).
  - by vm_compute in Hrep.
  - by vm_compute in Hrep.
Defined.

(** * Further properties of the move/lag detector *)

Lemma spec_first_reaching_cons (ratio_at : Z → result Q) (offset : Z)
    (rest : list Z) :
  spec_first_reaching ratio_at (offset :: rest)
  = ratio_at offset ≫= λ r,
      if decide (90 <= r)%Q then Ok offset else spec_first_reaching ratio_at rest.
Proof. done. Qed.

(** * Exceptions in the sampling loop *)

Lemma collect_ratios_raise (qqq tqqq sqqq : list Tick) (window_ms : Z) (e : exn)
    (idxs : list nat) :
  ∀ t_ratios s_ratios,
    collect_ratios qqq tqqq sqqq window_ms idxs t_ratios s_ratios = Raise e
    ↔ ∃ pre i post,
        idxs = pre ++ i :: post
        ∧ ratio_sample qqq tqqq sqqq window_ms i = Raise e
        ∧ Forall (λ j, is_Ok (ratio_sample qqq tqqq sqqq window_ms j)) pre.
Proof.
  induction idxs as [|i rest IH]; intros t s.
  - split; [done|]. intros (pre & j & post & Heq & _). by destruct pre.
  - simpl. destruct (ratio_sample qqq tqqq sqqq window_ms i) as [r|e'] eqn:Hi.
    + cbn [mbind result_bind].
      assert (Hrest : ∀ t' s',
                collect_ratios qqq tqqq sqqq window_ms rest t' s' = Raise e
                ↔ ∃ pre j post,
                    i :: rest = pre ++ j :: post
                    ∧ ratio_sample qqq tqqq sqqq window_ms j = Raise e
                    ∧ Forall (λ j, is_Ok (ratio_sample qqq tqqq sqqq window_ms j)) pre).
      { intros t' s'. rewrite IH. split.
        - intros (pre & j & post & -> & Hj & Hpre).
          exists (i :: pre), j, post. split; [done|]. split; [done|].
          constructor; [by exists r | done].
        - intros (pre & j & post & Heq & Hj & Hpre). destruct pre as [|i' pre].
          + injection Heq as <- _. congruence.
          + injection Heq as <- ->. apply Forall_cons in Hpre as [_ Hpre].
            by exists pre, j, post. }
      destruct r as [[t_ratio s_ratio]|]; apply Hrest.
    + cbn [mbind result_bind]. split.
      * intros [= <-]. exists [], i, rest. by repeat split.
      * intros (pre & j & post & Heq & Hj & Hpre). destruct pre as [|i' pre].
        -- injection Heq as <- _. congruence.
        -- injection Heq as <- _. apply Forall_cons in Hpre as [[r Hr] _]. congruence.
Qed.

(** X9. A window raises exactly when the sample of some tick of its stride
    raises, and then with the exception of the first such tick: the samples
    recorded before it are not reported. *)
Theorem rolling_ratio_raises_iff (qqq tqqq sqqq : list Tick) (window_sec : Z)
    (e : exn) :
  rolling_ratio qqq tqqq sqqq window_sec = Raise e
  ↔ ∃ pre i post,
      py_range 0 (length qqq) (Nat.max 1 (length qqq / 500)) = pre ++ i :: post
      ∧ ratio_sample qqq tqqq sqqq (window_sec * 1000) i = Raise e
      ∧ Forall (λ j, is_Ok (ratio_sample qqq tqqq sqqq (window_sec * 1000) j)) pre.
Proof.
  rewrite <- (collect_ratios_raise qqq tqqq sqqq (window_sec * 1000) e _ [] []).
  unfold rolling_ratio.
  destruct (collect_ratios qqq tqqq sqqq (window_sec * 1000) _ [] [])
    as [[t_ratios s_ratios]|e'] eqn:Hc; cbn [mbind result_bind];
    [|split; intros [= <-]; done].
  split; [|done]. intros Hrep. exfalso.
  apply collect_ratios_spec in Hc as (accepted & -> & -> & _).
  destruct (window_report_spec ((accepted.*2).*1) ((accepted.*2).*2))
    as [(_ & st & Hok & _) | (_ & Hok)].
  - by rewrite !length_fmap.
  - simpl in Hrep. congruence.
  - simpl in Hrep. congruence.
Qed.

(** A sampled tick of price zero, with the next tick inside the window,
    makes the window raise [ZeroDivisionError]. *)
Example rolling_ratio_zero_price :
  rolling_ratio [(0, 0%Q); (5000, 100%Q)] tqqq_ramp sqqq_ramp 5
  = Raise ZeroDivisionError.
Proof. by vm_compute. Qed.

(** * Further properties of the stop-trigger simulator *)

Lemma update_hwms_dominates (h th q t h' th' : Q) :
  update_hwms h th q t = (h', th') →
  (q <= h')%Q ∧ (t <= th')%Q ∧ (h' = h ∨ h' = q) ∧ (th' = th ∨ th' = t).
Proof.
  unfold update_hwms.
  destruct (decide (h < q)%Q) as [Hq|Hq].
  - destruct (decide (t < t)%Q); intros [= <- <-];
      repeat split; try apply Qle_refl; auto.
  - apply Qnot_lt_le in Hq.
    destruct (decide (th < t)%Q) as [Ht|Ht]; intros [= <- <-].
    + repeat split; try apply Qle_refl; auto.
    + apply Qnot_lt_le in Ht. repeat split; auto.
Qed.

Lemma drawdown_range (h p d : Q) :
  (0 < p)%Q → (p <= h)%Q → drawdown h p = Ok d → (0 <= d)%Q ∧ (d <= 100)%Q.
Proof.
  intros Hp Hph Hd. rewrite drawdown_pos in Hd by lra. injection Hd as <-.
  assert (0 <= (h - p) / h)%Q as H0.
  { apply Qle_shift_div_l; [lra|]. lra. }
  assert ((h - p) / h <= 1)%Q as H1.
  { apply Qle_shift_div_r; [lra|]. lra. }
  split; lra.
Qed.

Lemma price_at_time_elem (ticks : list Tick) (ms : Z) (tk : Tick) :
  price_at_time ticks ms = Ok tk → tk ∈ ticks.
Proof.
  intros H. destruct ticks as [|t0 rest]; [done|].
  destruct (price_at_time_total (t0 :: rest) ms) as (tk' & Hok & Hin); [done|].
  congruence.
Qed.

Section positive_prices.
Variables qqq tqqq : list Tick.
Hypothesis Hq_pos : Forall (λ tk : Tick, (0 < tk.2)%Q) qqq.
Hypothesis Ht_pos : Forall (λ tk : Tick, (0 < tk.2)%Q) tqqq.

Lemma stop_step_figures (stop_pct : Q) (st st' : StopState) (i : nat) :
  (0 < hwm st)%Q → (0 < t_hwm st)%Q →
  stop_step stop_pct qqq tqqq st i = Ok st' →
  (0 < hwm st')%Q ∧ (0 < t_hwm st')%Q
  ∧ (trigger_events st' = trigger_events st
     ∨ ∃ ev, trigger_events st' = trigger_events st ++ [ev]
             ∧ event_in_range stop_pct ev).
Proof.
  intros Hh Hth H. apply stop_step_inv in H
    as (q_ms & q_p & t_cur & h & th & q_drop & Hq & Ht & Hupd & Hdrop & Hcase).
  assert (0 < q_p)%Q as Hqp.
  { apply tick_at_Ok in Hq. apply list_elem_of_lookup_2 in Hq.
    rewrite Forall_forall in Hq_pos. apply (Hq_pos _ Hq). }
  assert (0 < t_cur.2)%Q as Htp.
  { apply price_at_time_elem in Ht.
    rewrite Forall_forall in Ht_pos. apply (Ht_pos _ Ht). }
  destruct (update_hwms_dominates _ _ _ _ _ _ Hupd) as (Hqh & Htth & Hh' & Hth').
  assert (0 < h)%Q as Hhpos by (destruct Hh' as [->| ->]; done).
  assert (0 < th)%Q as Hthpos by (destruct Hth' as [->| ->]; done).
  destruct Hcase as [(Hcond & t_drop & r & Htdrop & Hr & ->) | (_ & ->)];
    [|by repeat split; [..|left]].
  split; [done|]. split; [done|]. right. eexists. split; [done|].
  destruct Hcond as (Hlow & Hhigh & _).
  destruct (drawdown_range _ _ _ Htp Htth Htdrop) as [Ht0 Ht100].
  destruct (drawdown_range _ _ _ Hqp Hqh Hdrop) as [Hq0 _].
  unfold event_in_range. cbn [qqq_drop tqqq_drop ratio tick_gap_ms].
  split; [by apply py_round_monotone|].
  split; [apply py_round_monotone; lra|].
  split. { assert (H0 : (py_round 0 4 == 0)%Q) by reflexivity.
           rewrite <- H0. by apply py_round_monotone. }
  split. { assert (H100 : (py_round 100 4 == 100)%Q) by reflexivity.
           rewrite <- H100. by apply py_round_monotone. }
  split; [|lia].
  assert (H0 : (py_round 0 3 == 0)%Q) by reflexivity.
  rewrite <- H0. apply py_round_monotone.
  destruct (decide (0 < q_drop)%Q) as [Hqd|_]; [|injection Hr as <-; lra].
  apply fdiv_Ok in Hr as [_ ->]. apply Qle_shift_div_l; [done | lra].
Qed.

Lemma stop_loop_figures (stop_pct : Q) (idxs : list nat) :
  ∀ st st',
    (0 < hwm st)%Q → (0 < t_hwm st)%Q →
    Forall (event_in_range stop_pct) (trigger_events st) →
    stop_loop stop_pct qqq tqqq st idxs = Ok st' →
    Forall (event_in_range stop_pct) (trigger_events st').
Proof.
  induction idxs as [|i rest IH]; intros st st' Hh Hth Hall H.
  - simpl in H. by injection H as <-.
  - simpl in H. bind_inv H. rename a into st1.
    destruct (stop_step_figures stop_pct st st1 i Hh Hth Ha)
      as (Hh1 & Hth1 & [Hsame | (ev & Hev & Hin)]).
    + apply (IH st1 st'); [done | done | by rewrite Hsame | done].
    + apply (IH st1 st'); [done | done | | done].
      rewrite Hev. apply Forall_app. split; [done | by constructor].
Qed.

(** X10. With positive prices in both series, every trigger a run records
    has its figures in range: the reference drawdown within the rounded band
    of the threshold, the derived drawdown between 0 and 100 percent, and a
    ratio and a tick gap that are never negative. *)
Theorem stop_trigger_figures (stop_pct : Q) (st : StopState) :
  stop_trigger stop_pct qqq tqqq = Ok st →
  Forall (event_in_range stop_pct) (trigger_events st).
Proof.
  unfold stop_trigger. intros H.
  bind_inv H. rename a into q_first, Ha into Hqf.
  bind_inv H. rename a into t_first, Ha into Htf.
  apply stop_loop_figures in H; [done | | | by constructor]; cbn [hwm t_hwm].
  - apply tick_at_Ok in Hqf. apply list_elem_of_lookup_2 in Hqf.
    rewrite Forall_forall in Hq_pos. apply (Hq_pos _ Hqf).
  - apply tick_at_Ok in Htf. apply list_elem_of_lookup_2 in Htf.
    rewrite Forall_forall in Ht_pos. apply (Ht_pos _ Htf).
Qed.

End positive_prices.

Lemma stop_trigger_figures_witness :
  Forall (λ tk : Tick, (0 < tk.2)%Q) qqq_cool
  ∧ Forall (λ tk : Tick, (0 < tk.2)%Q) tqqq_cool
  ∧ ∃ st, stop_trigger 0.5 qqq_cool tqqq_cool = Ok st
          ∧ length (trigger_events st) = 2%nat
          ∧ Forall (event_in_range 0.5) (trigger_events st).
Proof.
  assert (Hq : Forall (λ tk : Tick, (0 < tk.2)%Q) qqq_cool) by (repeat constructor).
  assert (Ht : Forall (λ tk : Tick, (0 < tk.2)%Q) tqqq_cool) by (repeat constructor).
  split; [done|]. split; [done|].
  destruct (stop_trigger 0.5 qqq_cool tqqq_cool) as [st|e] eqn:Hrun;
    [|by vm_compute in Hrun].
  exists st. split; [done|]. split.
  - vm_compute in Hrun. by injection Hrun as <-.
  - by apply (stop_trigger_figures qqq_cool tqqq_cool Hq Ht 0.5 st).
Defined.

Lemma py_range_lookup (start stop step k x : nat) :
  py_range start stop step !! k = Some x → x = (start + k * step)%nat.
Proof.
  unfold py_range. rewrite list_lookup_fmap. intros H.
  destruct (seq 0 _ !! k) as [k'|] eqn:Hk; [|done].
  apply lookup_seq in Hk as [-> _]. simpl in H. by injection H as <-.
Qed.

Lemma py_range_ascending (start stop step k l x y : nat) :
  (k ≤ l)%nat →
  py_range start stop step !! k = Some x → py_range start stop step !! l = Some y →
  (x ≤ y)%nat.
Proof.
  intros Hkl Hx Hy. apply py_range_lookup in Hx, Hy. subst. nia.
Qed.

Section rising_reference.
Variables qqq tqqq : list Tick.
Variable stop_pct : Q.
Hypothesis Hstop : (0 < stop_pct)%Q.
Hypothesis Hrising :
  ∀ i j (a b : Tick), (i ≤ j)%nat → qqq !! i = Some a → qqq !! j = Some b →
                      (a.2 <= b.2)%Q.

Lemma stop_loop_rising (idxs : list nat) :
  ∀ st st',
    (∀ k l x y, (k ≤ l)%nat → idxs !! k = Some x → idxs !! l = Some y → (x ≤ y)%nat) →
    (∀ x (tk : Tick), x ∈ idxs → qqq !! x = Some tk → (hwm st <= tk.2)%Q) →
    stop_loop stop_pct qqq tqqq st idxs = Ok st' →
    trigger_events st' = trigger_events st.
Proof.
  induction idxs as [|i rest IH]; intros st st' Hasc Hbelow H.
  - simpl in H. by injection H as <-.
  - simpl in H. bind_inv H. rename a into st1, Ha into Hstep.
    apply stop_step_inv in Hstep
      as (q_ms & q_p & t_cur & h & th & q_drop & Hq & _ & Hupd & Hdrop & Hcase).
    apply tick_at_Ok in Hq.
    pose proof (Hbelow i (q_ms, q_p) ltac:(by left) Hq) as Hle. simpl in Hle.
    destruct (update_hwms_dominates _ _ _ _ _ _ Hupd) as (Hqh & _ & Hh' & _).
    assert (h <= q_p)%Q as Hhq by (destruct Hh' as [->| ->]; [done | apply Qle_refl]).
    assert (q_drop == 0)%Q as Hzero.
    { unfold drawdown in Hdrop. bind_inv Hdrop. injection Hdrop as <-.
      apply fdiv_Ok in Ha as [Hnz ->].
      assert (h - q_p == 0)%Q as Hdiff by lra.
      unfold Qdiv. rewrite Hdiff. ring. }
    destruct Hcase as [((Hlow & _) & _) | (_ & ->)].
    { exfalso. rewrite Hzero in Hlow. lra. }
    apply IH in H; [done | |].
    + intros k l x y Hkl Hx Hy. apply (Hasc (S k) (S l)); [lia | done | done].
    + intros x tk Hx Htk. cbn [hwm].
      assert (i ≤ x)%nat as Hix.
      { apply list_elem_of_lookup_1 in Hx as [l Hl].
        apply (Hasc 0%nat (S l)); [lia | done | done]. }
      pose proof (Hrising i x (q_ms, q_p) tk Hix Hq Htk) as Hp. simpl in Hp. lra.
Qed.

(** X11. While the reference price never falls from one tick to the next,
    no trigger is recorded, whatever the positive threshold and whatever the
    derived series does. *)
Theorem no_trigger_on_rising_reference (st : StopState) :
  stop_trigger stop_pct qqq tqqq = Ok st → trigger_events st = [].
Proof.
  unfold stop_trigger. intros H.
  bind_inv H. rename a into q_first, Ha into Hqf.
  bind_inv H. rename a into t_first, Ha into Htf.
  apply stop_loop_rising in H; [done | |].
  - intros k l x y. apply py_range_ascending.
  - intros x tk Hx Htk. cbn [hwm]. apply tick_at_Ok in Hqf.
    apply (Hrising 0 x q_first tk); [lia | done | done].
Qed.

End rising_reference.

Lemma no_trigger_on_rising_reference_witness :
  (0 < 0.5)%Q
  ∧ (∀ i j (a b : Tick), (i ≤ j)%nat →
       qqq_new_high !! i = Some a → qqq_new_high !! j = Some b → (a.2 <= b.2)%Q)
  ∧ ∃ st, stop_trigger 0.5 qqq_new_high tqqq_off_peak = Ok st
          ∧ trigger_events st = [].
Proof.
  assert (Hrising : ∀ i j (a b : Tick), (i ≤ j)%nat →
            qqq_new_high !! i = Some a → qqq_new_high !! j = Some b →
            (a.2 <= b.2)%Q).
  { intros [|[|[|i]]] [|[|[|j]]] a b Hij Ha Hb; simpl in Ha, Hb;
      try discriminate; try lia;
      injection Ha as <-; injection Hb as <-; done. }
  split; [done|]. split; [done|].
  destruct (stop_trigger 0.5 qqq_new_high tqqq_off_peak) as [st|e] eqn:Hrun;
    [|by vm_compute in Hrun].
  exists st. split; [done|].
  by apply (no_trigger_on_rising_reference qqq_new_high tqqq_off_peak 0.5
              ltac:(done) Hrising st).
Defined.

(** * The figures of the reports *)

#[global] Instance Qle_transitive : Transitive Qle := Qle_trans.
#[global] Instance Qle_total : Total Qle.
Proof. intros x y. destruct (Qlt_le_dec x y); [left; lra | by right]. Qed.

Lemma sorted_ascending (xs : list Q) : StronglySorted Qle (sorted xs).
Proof. unfold sorted. apply StronglySorted_merge_sort; apply _. Qed.

Lemma sorted_elem_of (xs : list Q) (x : Q) : x ∈ sorted xs ↔ x ∈ xs.
Proof. unfold sorted. by rewrite merge_sort_Permutation. Qed.

Lemma Qsum_nonneg (xs : list Q) : Forall (λ x, (0 <= x)%Q) xs → (0 <= Qsum xs)%Q.
Proof.
  induction 1 as [|x xs Hx _ IH]; simpl; [apply Qle_refl | lra].
Qed.

Lemma mean_nonneg (xs : list Q) (m : Q) :
  Forall (λ x, (0 <= x)%Q) xs → mean xs = Ok m → (0 <= m)%Q.
Proof.
  intros Hall Hm. destruct xs as [|x xs]; [done|]. injection Hm as <-.
  apply Qle_shift_div_l.
  - unfold Qlt. simpl. lia.
  - rewrite Qmult_0_l. by apply (Qsum_nonneg (x :: xs)).
Qed.

Lemma window_report_ordered (t_ratios s_ratios : list Q) (st : WindowStats) :
  window_report t_ratios s_ratios = Ok (Reported st) →
  (t_p10 st <= t_med st)%Q ∧ (t_med st <= t_p90 st)%Q
  ∧ (s_p10 st <= s_med st)%Q ∧ (s_med st <= s_p90 st)%Q
  ∧ (0 <= t_mae st)%Q ∧ (0 <= s_mae st)%Q.
Proof.
  unfold window_report. intros H.
  destruct (decide (10 < length t_ratios)%nat); [|done].
  bind_inv H. rename a into tm, Ha into Htm.
  bind_inv H. rename a into t10, Ha into Ht10.
  bind_inv H. rename a into t90, Ha into Ht90.
  bind_inv H. rename a into sm, Ha into Hsm.
  bind_inv H. rename a into s10, Ha into Hs10.
  bind_inv H. rename a into s90, Ha into Hs90.
  bind_inv H. rename a into tmae, Ha into Htmae.
  bind_inv H. rename a into smae, Ha into Hsmae.
  injection H as <-. simpl.
  pose proof (sorted_ascending t_ratios) as Hst.
  pose proof (sorted_ascending s_ratios) as Hss.
  assert (H0 : (py_round 0 3 == 0)%Q) by reflexivity.
  repeat split.
  - apply py_round_monotone. by apply (percentile_ascending _ 10 50 _ _ Hst).
  - apply py_round_monotone. by apply (percentile_ascending _ 50 90 _ _ Hst).
  - apply py_round_monotone. by apply (percentile_ascending _ 10 50 _ _ Hss).
  - apply py_round_monotone. by apply (percentile_ascending _ 50 90 _ _ Hss).
  - rewrite <- H0. apply py_round_monotone. eapply mean_nonneg; [|exact Htmae].
    apply Forall_fmap, Forall_forall. intros r _. apply Qabs_nonneg.
  - rewrite <- H0. apply py_round_monotone. eapply mean_nonneg; [|exact Hsmae].
    apply Forall_fmap, Forall_forall. intros r _. apply Qabs_nonneg.
Qed.

(** X12. The figures a window reports are consistent: for each derived
    series the 10th percentile is at most the median, which is at most the
    90th percentile, and the mean absolute errors are never negative. *)
Theorem rolling_ratio_figures_ordered (qqq tqqq sqqq : list Tick) (window_sec : Z)
    (st : WindowStats) :
  rolling_ratio qqq tqqq sqqq window_sec = Ok (Reported st) →
  (t_p10 st <= t_med st)%Q ∧ (t_med st <= t_p90 st)%Q
  ∧ (s_p10 st <= s_med st)%Q ∧ (s_med st <= s_p90 st)%Q
  ∧ (0 <= t_mae st)%Q ∧ (0 <= s_mae st)%Q.
Proof.
  unfold rolling_ratio. intros H. bind_inv H. destruct a as [t_ratios s_ratios].
  by apply (window_report_ordered t_ratios s_ratios).
Qed.

Lemma rolling_ratio_figures_ordered_witness :
  ∃ st, rolling_ratio qqq_ramp tqqq_ramp sqqq_ramp 5 = Ok (Reported st)
        ∧ (t_p10 st <= t_med st)%Q ∧ (t_med st <= t_p90 st)%Q
        ∧ (s_p10 st <= s_med st)%Q ∧ (s_med st <= s_p90 st)%Q
        ∧ (0 <= t_mae st)%Q ∧ (0 <= s_mae st)%Q.
Proof.
  destruct (rolling_ratio qqq_ramp tqqq_ramp sqqq_ramp 5) as [[st|n]|e] eqn:Hrep.
  - exists st. split; [done|].
    by apply (rolling_ratio_figures_ordered qqq_ramp tqqq_ramp sqqq_ramp 5).
  - by vm_compute in Hrep.
  - by vm_compute in Hrep.
Defined.

(** * Stable sorting *)

Section stable_sorting.
Context {A : Type} (leb : A → A → bool).
Hypothesis leb_total : ∀ x y, leb x y = true ∨ leb y x = true.
Hypothesis leb_trans : ∀ x y z, leb x y = true → leb y z = true → leb x z = true.

Lemma insert_by_Permutation (x : A) (l : list A) : insert_by leb x l ≡ₚ x :: l.
Proof.
  induction l as [|y rest IH]; simpl; [done|].
  destruct (leb x y); [done|]. rewrite IH. apply Permutation_swap.
Qed.

Lemma stable_sort_Permutation (l : list A) : stable_sort leb l ≡ₚ l.
Proof.
  induction l as [|x rest IH]; simpl; [done|].
  rewrite insert_by_Permutation. by rewrite IH.
Qed.

Lemma insert_by_sorted (x : A) (l : list A) :
  StronglySorted (λ a b, leb a b = true) l →
  StronglySorted (λ a b, leb a b = true) (insert_by leb x l).
Proof.
  induction 1 as [|y rest Hs IH Hall]; simpl.
  - by repeat constructor.
  - destruct (leb x y) eqn:Hxy.
    + constructor; [by constructor|]. constructor; [done|].
      eapply Forall_impl; [exact Hall|]. intros z Hz. by eapply leb_trans.
    + constructor; [done|].
      rewrite insert_by_Permutation. constructor; [|done].
      destruct (leb_total x y) as [Hc|Hc]; [congruence | done].
Qed.

Lemma stable_sort_sorted (l : list A) :
  StronglySorted (λ a b, leb a b = true) (stable_sort leb l).
Proof.
  induction l as [|x rest IH]; simpl; [constructor | by apply insert_by_sorted].
Qed.

(** A list already in order is left as it is. *)
Lemma stable_sort_id (l : list A) :
  StronglySorted (λ a b, leb a b = true) l → stable_sort leb l = l.
Proof.
  induction 1 as [|x rest Hs IH Hall]; simpl; [done|].
  rewrite IH. destruct rest as [|y rest']; [done|]. simpl.
  apply Forall_cons in Hall as [-> _]. done.
Qed.

(** Elements of equal key keep their order: whatever [a], the elements
    whose key equals that of [a] come out in the order they came in. *)
Lemma insert_by_stable (a x : A) (l : list A) :
  filter (λ y, leb a y = true ∧ leb y a = true) (insert_by leb x l)
  = filter (λ y, leb a y = true ∧ leb y a = true) (x :: l).
Proof.
  induction l as [|y rest IH]; simpl; [done|].
  destruct (leb x y) eqn:Hxy; [done|].
  rewrite filter_cons, IH, !filter_cons.
  destruct (decide (leb a y = true ∧ leb y a = true)) as [[Hay Hya]|Hny];
    destruct (decide (leb a x = true ∧ leb x a = true)) as [[Hax Hxa]|Hnx]; try done.
  pose proof (leb_trans x a y Hxa Hay). congruence.
Qed.

Lemma stable_sort_stable (a : A) (l : list A) :
  filter (λ y, leb a y = true ∧ leb y a = true) (stable_sort leb l)
  = filter (λ y, leb a y = true ∧ leb y a = true) l.
Proof.
  induction l as [|x rest IH]; simpl; [done|].
  by rewrite insert_by_stable, !filter_cons, IH.
Qed.

End stable_sorting.

Lemma time_leb_total (x y : Tick) : (x.1 <=? y.1) = true ∨ (y.1 <=? x.1) = true.
Proof. rewrite !Z.leb_le. lia. Qed.

Lemma time_leb_trans (x y z : Tick) :
  (x.1 <=? y.1) = true → (y.1 <=? z.1) = true → (x.1 <=? z.1) = true.
Proof. rewrite !Z.leb_le. lia. Qed.

Lemma sorted_by_time_intro (tk : Tick) (ticks : list Tick) :
  sorted_by_time ticks = true → Forall (λ tj : Tick, tk.1 ≤ tj.1) ticks →
  sorted_by_time (tk :: ticks) = true.
Proof.
  intros Hs Hall. destruct ticks as [|tk' rest]; [done|].
  apply Forall_cons in Hall as [Hle _].
  change (sorted_by_time (tk :: tk' :: rest))
    with ((tk.1 <=? tk'.1) && sorted_by_time (tk' :: rest)).
  apply andb_true_iff. split; [by apply Z.leb_le | done].
Qed.

Lemma sorted_by_time_iff (ticks : list Tick) :
  sorted_by_time ticks = true
  ↔ StronglySorted (λ a b : Tick, (a.1 <=? b.1) = true) ticks.
Proof.
  induction ticks as [|tk rest IH]; [split; [constructor | done]|]. split.
  - intros Hs. destruct (sorted_by_time_cons _ _ Hs) as [Hrest Hall].
    constructor; [by apply IH|]. apply Forall_forall. intros tj Hin.
    apply list_elem_of_lookup_1 in Hin as [j Hj]. apply Z.leb_le. by eapply Hall.
  - intros Hs. apply StronglySorted_inv in Hs as [Hrest Hall].
    apply sorted_by_time_intro; [by apply IH|].
    eapply Forall_impl; [exact Hall|]. intros tj Hle. by apply Z.leb_le.
Qed.

(** * Loading ticks *)

Lemma parse_rows_spec (float_of_str iso_timestamp : string → result Q)
    (rows : list (list string)) :
  ∀ ticks ticks',
    parse_rows float_of_str iso_timestamp rows ticks = Ok ticks' →
    ∃ parsed,
      ticks' = ticks ++ parsed
      ∧ Forall2 (λ row tk, parse_row float_of_str iso_timestamp row = Ok tk)
          rows parsed.
Proof.
  induction rows as [|row rest IH]; intros ticks ticks' H.
  - simpl in H. injection H as <-. exists []. by rewrite app_nil_r.
  - simpl in H. bind_inv H. rename a into tk.
    destruct (IH _ _ H) as (parsed & -> & Hall).
    exists (tk :: parsed). rewrite <- app_assoc. split; [done | by constructor].
Qed.

(** X13. When [load_ticks] returns, its series is sorted by timestamp and
    holds exactly the ticks parsed from the rows, one per row, ticks of equal
    timestamp in the order of their rows; every row then had at least three
    fields, a shorter row raising [IndexError]. *)
Theorem load_ticks_sorted (float_of_str iso_timestamp : string → result Q)
    (rows : list (list string)) (ticks : list Tick) :
  load_ticks float_of_str iso_timestamp rows = Ok ticks →
  sorted_by_time ticks = true
  ∧ length ticks = length rows
  ∧ Forall (λ row, (3 ≤ length row)%nat) rows
  ∧ ∃ parsed,
      Forall2 (λ row tk, parse_row float_of_str iso_timestamp row = Ok tk)
        rows parsed
      ∧ ticks ≡ₚ parsed
      ∧ ∀ t, filter (λ tk : Tick, tk.1 = t) ticks
             = filter (λ tk : Tick, tk.1 = t) parsed.
Proof.
  unfold load_ticks. intros H. bind_inv H. rename a into parsed'.
  injection H as <-.
  apply parse_rows_spec in Ha as (parsed & -> & Hall). simpl.
  split.
  { apply sorted_by_time_iff. apply stable_sort_sorted.
    - apply time_leb_total.
    - apply time_leb_trans. }
  split.
  { rewrite stable_sort_Permutation. symmetry. by eapply Forall2_length. }
  split.
  { clear -Hall. induction Hall as [|row tk rows parsed Hrow _ IH]; [done|].
    constructor; [|done]. unfold parse_row in Hrow.
    bind_inv Hrow. bind_inv Hrow. unfold row_at in Ha0.
    destruct (row !! 2%nat) eqn:Hlk; [|done].
    apply lookup_lt_Some in Hlk. lia. }
  exists parsed. split; [done|]. split; [apply stable_sort_Permutation|].
  intros t.
  assert (Hext : ∀ l : list Tick,
            filter (λ tk : Tick, tk.1 = t) l
            = filter (λ y : Tick, ((t, 0%Q).1 <=? y.1) = true
                                  ∧ (y.1 <=? (t, 0%Q).1) = true) l).
  { intros l. apply list_filter_iff. intros tk. simpl. rewrite !Z.leb_le. lia. }
  rewrite !Hext.
  exact (stable_sort_stable (λ a b : Tick, a.1 <=? b.1) time_leb_trans (t, 0%Q) parsed).
Qed.

Lemma load_ticks_sorted_witness :
  let rows := [["aaa"; "x"; "pp"]; ["a"; "x"; "p"]; ["aaa"; "x"; "p"]] in
  let ticks : list Tick := [(1000, 1%Q); (3000, 2%Q); (3000, 1%Q)] in
  load_ticks sample_number sample_number rows = Ok ticks
  ∧ sorted_by_time ticks = true
  ∧ length ticks = length rows.
Proof.
  intros rows ticks.
  assert (H : load_ticks sample_number sample_number rows = Ok ticks) by by vm_compute.
  split; [done|].
  destruct (load_ticks_sorted sample_number sample_number rows ticks H)
    as (Hs & Hlen & _).
  done.
Defined.

(** A row with fewer than three fields makes [load_ticks] raise. *)
Example load_ticks_short_row :
  load_ticks sample_number sample_number [["aaa"; "x"; "pp"]; ["a"; "x"]]
  = Raise IndexError.
Proof. by vm_compute. Qed.

(** * Filtering to market hours *)

Lemma StronglySorted_filter {A : Type} (R : relation A) (P : A → Prop)
    `{∀ x, Decision (P x)} (l : list A) :
  StronglySorted R l → StronglySorted R (filter P l).
Proof.
  induction 1 as [|x l Hs IH Hall]; [constructor|].
  rewrite filter_cons. destruct (decide (P x)); [|done].
  constructor; [done|]. apply Forall_forall. intros y Hy.
  apply list_elem_of_filter in Hy as [_ Hy].
  rewrite Forall_forall in Hall. by apply Hall.
Qed.

Lemma sorted_by_time_filter (P : Tick → Prop) `{∀ x, Decision (P x)}
    (ticks : list Tick) :
  sorted_by_time ticks = true → sorted_by_time (filter P ticks) = true.
Proof. rewrite !sorted_by_time_iff. apply StronglySorted_filter. Qed.

(** X14. When [filter_market_hours] returns, there is one window, fixed by
    the date alone, such that the result holds exactly the ticks of the
    input whose timestamp lies in the closed window, in their order: it is
    a sublist of the input, sorted when the input is, and a lookup in it
    returns the tick nearest the target among the input's ticks in the
    window. *)
Theorem filter_market_hours_window (int_of_str : string → result Z)
    (utc_timestamp : Z → Z → Z → Z → Z → Z → result Q)
    (ticks : list Tick) (date_str : string) (out : list Tick) :
  filter_market_hours int_of_str utc_timestamp ticks date_str = Ok out →
  ∃ open_ms close_ms,
    (∀ ticks', filter_market_hours int_of_str utc_timestamp ticks' date_str
               = Ok (filter (λ tk : Tick, open_ms ≤ tk.1 ≤ close_ms) ticks'))
    ∧ (∀ tk, tk ∈ out ↔ tk ∈ ticks ∧ open_ms ≤ tk.1 ≤ close_ms)
    ∧ out `sublist_of` ticks
    ∧ (sorted_by_time ticks = true → sorted_by_time out = true)
    ∧ (∀ ms r,
         sorted_by_time ticks = true → out ≠ [] →
         find_nearest_idx out ms = Ok r →
         ∃ tr, out !! r = Some tr
               ∧ open_ms ≤ tr.1 ≤ close_ms
               ∧ ∀ tk, tk ∈ ticks → open_ms ≤ tk.1 ≤ close_ms →
                       Z.abs (tr.1 - ms) ≤ Z.abs (tk.1 - ms)).
Proof.
  unfold filter_market_hours. intros H.
  bind_inv H. rename a into year, Ha into Hyear.
  bind_inv H. rename a into month, Ha into Hmonth.
  bind_inv H. rename a into day, Ha into Hday.
  bind_inv H. rename a into mkt_open, Ha into Hopen.
  bind_inv H. rename a into mkt_close, Ha into Hclose.
  injection H as <-.
  exists (py_int (mkt_open * 1000)), (py_int (mkt_close * 1000)).
  set (open_ms := py_int (mkt_open * 1000)).
  set (close_ms := py_int (mkt_close * 1000)).
  split.
  { intros ticks'. rewrite Hyear. cbn [mbind result_bind].
    rewrite Hmonth. cbn [mbind result_bind]. rewrite Hday. cbn [mbind result_bind].
    rewrite Hopen. cbn [mbind result_bind]. by rewrite Hclose. }
  assert (Hmem : ∀ tk : Tick,
            tk ∈ filter (λ tk : Tick, open_ms ≤ tk.1 ≤ close_ms) ticks
            ↔ tk ∈ ticks ∧ open_ms ≤ tk.1 ≤ close_ms).
  { intros tk. rewrite list_elem_of_filter. tauto. }
  split; [done|]. split; [apply sublist_filter|].
  split; [apply sorted_by_time_filter|].
  intros ms r Hs Hne Hr.
  destruct (find_nearest_idx_shape _ ms r (sorted_by_time_filter _ _ Hs) Hne Hr)
    as (tr & Hlk & Hnear & _).
  exists tr. split; [done|]. split.
  - apply list_elem_of_lookup_2 in Hlk. by apply Hmem in Hlk as [_ ?].
  - intros tk Hin Hwin.
    assert (tk ∈ filter (λ tk : Tick, open_ms ≤ tk.1 ≤ close_ms) ticks) as Hin'
      by (by apply Hmem).
    apply list_elem_of_lookup_1 in Hin' as [j Hj]. by apply (Hnear j).
Qed.

Lemma filter_market_hours_window_witness :
  filter_market_hours sample_int sample_utc day_ticks "20260209"
  = Ok [(52200000, 2%Q); (60000000, 3%Q); (75600000, 4%Q)]
  ∧ ∃ open_ms close_ms,
      ∀ tk, tk ∈ [(52200000, 2%Q); (60000000, 3%Q); (75600000, 4%Q)]
            ↔ tk ∈ day_ticks ∧ open_ms ≤ tk.1 ≤ close_ms.
Proof.
  assert (H : filter_market_hours sample_int sample_utc day_ticks "20260209"
              = Ok [(52200000, 2%Q); (60000000, 3%Q); (75600000, 4%Q)])
    by by vm_compute.
  split; [done|].
  destruct (filter_market_hours_window sample_int sample_utc day_ticks "20260209" _ H)
    as (open_ms & close_ms & _ & Hmem & _).
  by exists open_ms, close_ms.
Defined.

(** * The report of the detector *)

Lemma percentile_is_Ok (xs : list Q) (p : Q) : is_Ok (percentile xs p).
Proof.
  destruct xs as [|x rest]; [by eexists|].
  destruct (percentile_at (x :: rest) p) as (_ & y & _ & Hy); [done | by exists y].
Qed.

Lemma length_filter_mono {A : Type} (P1 P2 : A → Prop)
    `{∀ x, Decision (P1 x)} `{∀ x, Decision (P2 x)} (l : list A) :
  (∀ x, P1 x → P2 x) → (length (filter P1 l) ≤ length (filter P2 l))%nat.
Proof.
  intros Himp. induction l as [|x l IH]; [done|].
  rewrite !filter_cons.
  destruct (decide (P1 x)) as [H1|H1], (decide (P2 x)) as [H2|H2]; simpl;
    [lia | by destruct H2; apply Himp | lia | lia].
Qed.

Lemma length_filter_split (evs : list MoveEvent) :
  (length (filter (λ e, (0 ≤ t_catchup_ms e)%Z) evs)
   + length (filter (λ e, (t_catchup_ms e < 0)%Z) evs))%nat
  = length evs.
Proof.
  induction evs as [|e evs IH]; [done|].
  rewrite !filter_cons.
  destruct (decide (0 ≤ t_catchup_ms e)), (decide (t_catchup_ms e < 0)); simpl; lia.
Qed.

Lemma filter_all {A : Type} (P : A → Prop) `{∀ x, Decision (P x)} (l : list A) :
  Forall P l → filter P l = l.
Proof.
  induction 1 as [|x l Hx _ IH]; [done|].
  rewrite filter_cons. destruct (decide (P x)); [by rewrite IH | done].
Qed.

(** Every event the detector records has a catch-up offset of the ladder,
    or -1. *)
Lemma collect_moves_catchups (qqq tqqq sqqq : list Tick) (idxs : list nat) :
  ∀ move_events move_events',
    Forall (λ e, t_catchup_ms e = -1 ∨ t_catchup_ms e ∈ watch_steps) move_events →
    collect_moves qqq tqqq sqqq idxs move_events = Ok move_events' →
    Forall (λ e, t_catchup_ms e = -1 ∨ t_catchup_ms e ∈ watch_steps) move_events'.
Proof.
  induction idxs as [|i rest IH]; intros evs evs' Hall H.
  - simpl in H. by injection H as <-.
  - simpl in H. bind_inv H. destruct a as [e|]; [|by apply (IH evs)].
    apply (IH (evs ++ [e])); [|done].
    apply Forall_app. split; [done|]. constructor; [|done].
    apply detect_move_catchup in Ha.
    apply spec_first_reaching_spec in Ha
      as [(pre & post & ρ & Heq & _) | [Hm1 _]]; [right | by left].
    rewrite Heq. apply elem_of_app. right. by left.
Qed.

(** X15. The figures of the detector's report are consistent: it counts
    every event, its catch-up counts are cumulative (immediate, within 1 s,
    5 s, 10 s, 30 s, in ascending order), the percentiles of the achieved
    percentages are ordered, and for the events of a detection run the
    count within 30 s and the count of those that never caught up add up to
    the number of events. *)
Theorem move_report_consistent (move_events : list MoveEvent) (rep : MoveReport) :
  move_report move_events = Ok (Some rep) →
  mr_detected rep = length move_events
  ∧ (cu_immediate rep ≤ cu_within_1s rep)%nat
  ∧ (cu_within_1s rep ≤ cu_within_5s rep)%nat
  ∧ (cu_within_5s rep ≤ cu_within_10s rep)%nat
  ∧ (cu_within_10s rep ≤ cu_within_30s rep)%nat
  ∧ (cu_within_30s rep + cu_never rep ≤ mr_detected rep)%nat
  ∧ (t_ach_p10 rep <= t_ach_med rep)%Q ∧ (t_ach_med rep <= t_ach_p90 rep)%Q
  ∧ (s_ach_p10 rep <= s_ach_med rep)%Q ∧ (s_ach_med rep <= s_ach_p90 rep)%Q
  ∧ (∀ qqq tqqq sqqq,
       move_lag qqq tqqq sqqq = Ok move_events →
       (cu_within_30s rep + cu_never rep)%nat = mr_detected rep).
Proof.
  unfold move_report. intros H.
  destruct move_events as [|e0 rest] eqn:Hevs; [done|]. rewrite <- Hevs in *.
  bind_inv H. rename a into tm, Ha into Htm.
  bind_inv H. rename a into t10, Ha into Ht10.
  bind_inv H. rename a into t90, Ha into Ht90.
  bind_inv H. rename a into sm, Ha into Hsm.
  bind_inv H. rename a into s10, Ha into Hs10.
  bind_inv H. rename a into s90, Ha into Hs90.
  injection H as <-.
  cbn [mr_detected cu_immediate cu_within_1s cu_within_5s cu_within_10s
       cu_within_30s cu_never t_ach_med t_ach_p10 t_ach_p90 s_ach_med s_ach_p10
       s_ach_p90].
  set (catchups := filter (λ e, 0 ≤ t_catchup_ms e) move_events).
  pose proof (length_filter_split move_events) as Hsplit. fold catchups in Hsplit.
  pose proof (sorted_ascending (t_achieved_pct <$> move_events)) as Hst.
  pose proof (sorted_ascending (s_achieved_pct <$> move_events)) as Hss.
  split; [done|].
  split; [apply length_filter_mono; intros; lia|].
  split; [apply length_filter_mono; intros; lia|].
  split; [apply length_filter_mono; intros; lia|].
  split; [apply length_filter_mono; intros; lia|].
  split.
  { pose proof (length_filter (λ e, t_catchup_ms e ≤ 30000) catchups). lia. }
  split; [apply py_round_monotone; by apply (percentile_ascending _ 10 50 _ _ Hst)|].
  split; [apply py_round_monotone; by apply (percentile_ascending _ 50 90 _ _ Hst)|].
  split; [apply py_round_monotone; by apply (percentile_ascending _ 10 50 _ _ Hss)|].
  split; [apply py_round_monotone; by apply (percentile_ascending _ 50 90 _ _ Hss)|].
  intros qqq tqqq sqqq Hlag. unfold move_lag in Hlag.
  apply collect_moves_catchups in Hlag; [|constructor].
  rewrite filter_all; [lia|].
  apply Forall_forall. intros e He.
  apply list_elem_of_filter in He as [Hpos He].
  rewrite Forall_forall in Hlag. destruct (Hlag e He) as [Hm1|Hin]; [lia|].
  unfold watch_steps in Hin. rewrite !elem_of_cons, elem_of_nil in Hin. lia.
Qed.

Lemma move_report_consistent_witness :
  move_lag qqq_up tqqq_lag sqqq_late = Ok [lagging_event]
  ∧ ∃ rep, move_report [lagging_event] = Ok (Some rep)
           ∧ mr_detected rep = 1%nat
           ∧ cu_immediate rep = 0%nat ∧ cu_within_5s rep = 1%nat
           ∧ (cu_within_30s rep + cu_never rep)%nat = mr_detected rep.
Proof.
  assert (Hlag : move_lag qqq_up tqqq_lag sqqq_late = Ok [lagging_event])
    by by vm_compute.
  split; [done|].
  destruct (move_report [lagging_event]) as [[rep|]|e] eqn:Hrep;
    [|by vm_compute in Hrep|by vm_compute in Hrep].
  exists rep.
  destruct (move_report_consistent [lagging_event] rep Hrep)
    as (Hn & _ & _ & _ & _ & _ & _ & _ & _ & _ & Hsum).
  split; [done|]. split; [done|].
  vm_compute in Hrep. injection Hrep as <-.
  split; [done|]. split; [done|].
  by apply (Hsum qqq_up tqqq_lag sqqq_late).
Defined.

Section worst_first.
Context {A : Type} (key : A → Q).

Lemma key_leb_total (x y : A) :
  Qle_bool (key x) (key y) = true ∨ Qle_bool (key y) (key x) = true.
Proof. rewrite !Qle_bool_iff. destruct (Qlt_le_dec (key x) (key y)); [left; lra | by right]. Qed.

Lemma key_leb_trans (x y z : A) :
  Qle_bool (key x) (key y) = true → Qle_bool (key y) (key z) = true →
  Qle_bool (key x) (key z) = true.
Proof. rewrite !Qle_bool_iff. apply Qle_trans. Qed.

(** The first [n] elements of the list sorted by key are [n] elements of
    least key, in ascending order. *)
Lemma take_sorted_least (n : nat) (l : list A) :
  let worst := take n (stable_sort (λ a b, Qle_bool (key a) (key b)) l) in
  length worst = Nat.min n (length l)
  ∧ (∃ others,
       l ≡ₚ worst ++ others
       ∧ ∀ w o, w ∈ worst → o ∈ others → (key w <= key o)%Q)
  ∧ (∀ i j a b, (i ≤ j)%nat → worst !! i = Some a → worst !! j = Some b →
       (key a <= key b)%Q).
Proof.
  intros worst.
  set (s := stable_sort (λ a b, Qle_bool (key a) (key b)) l) in *.
  pose proof (stable_sort_sorted _ key_leb_total key_leb_trans l) as Hs. fold s in Hs.
  pose proof (stable_sort_Permutation (λ a b, Qle_bool (key a) (key b)) l) as Hp.
  fold s in Hp.
  split; [|split].
  - unfold worst. rewrite length_take. by rewrite Hp.
  - exists (drop n s). split.
    + unfold worst. by rewrite take_drop.
    + intros w o Hw Ho. apply Qle_bool_iff.
      rewrite <- (take_drop n s) in Hs.
      by apply (StronglySorted_app_1_elem_of _ _ _ w o Hs).
  - intros i j a b Hij Ha Hb. unfold worst in Ha, Hb.
    apply lookup_take_Some in Ha as [Ha _]. apply lookup_take_Some in Hb as [Hb _].
    clear -Hs Hij Ha Hb. revert i j Hij Ha Hb.
    induction Hs as [|x rest Hs IH Hall]; intros i j Hij Ha Hb.
    + by rewrite lookup_nil in Ha.
    + destruct i as [|i], j as [|j]; simpl in *.
      * assert (a = b) as -> by congruence. apply Qle_refl.
      * assert (x = a) as -> by congruence. rewrite Forall_forall in Hall.
        apply Qle_bool_iff, Hall. by eapply list_elem_of_lookup_2.
      * lia.
      * apply (IH i j); [lia | done | done].
Qed.

End worst_first.

(** X16. The two lists of worst events hold the five events (all of them
    when fewer were recorded) with the lowest achieved percentage of their
    series, lowest first: no event left out has a lower achieved percentage
    than a listed one. *)
Theorem move_report_worst (move_events : list MoveEvent) (rep : MoveReport) :
  move_report move_events = Ok (Some rep) →
  (length (worst_t rep) = Nat.min 5 (length move_events)
   ∧ (∃ others,
        move_events ≡ₚ worst_t rep ++ others
        ∧ ∀ w o, w ∈ worst_t rep → o ∈ others →
                 (t_achieved_pct w <= t_achieved_pct o)%Q)
   ∧ (∀ i j a b, (i ≤ j)%nat →
        worst_t rep !! i = Some a → worst_t rep !! j = Some b →
        (t_achieved_pct a <= t_achieved_pct b)%Q))
  ∧ (length (worst_s rep) = Nat.min 5 (length move_events)
     ∧ (∃ others,
          move_events ≡ₚ worst_s rep ++ others
          ∧ ∀ w o, w ∈ worst_s rep → o ∈ others →
                   (s_achieved_pct w <= s_achieved_pct o)%Q)
     ∧ (∀ i j a b, (i ≤ j)%nat →
          worst_s rep !! i = Some a → worst_s rep !! j = Some b →
          (s_achieved_pct a <= s_achieved_pct b)%Q)).
Proof.
  unfold move_report. intros H.
  destruct move_events as [|e0 rest] eqn:Hevs; [done|]. rewrite <- Hevs in *.
  repeat (bind_inv H). injection H as <-. cbn [worst_t worst_s].
  split.
  - apply (take_sorted_least t_achieved_pct 5 move_events).
  - apply (take_sorted_least s_achieved_pct 5 move_events).
Qed.

Lemma move_report_worst_witness :
  ∃ rep, move_report [lagging_event] = Ok (Some rep)
         ∧ worst_t rep = [lagging_event] ∧ worst_s rep = [lagging_event]
         ∧ length (worst_t rep) = Nat.min 5 1.
Proof.
  destruct (move_report [lagging_event]) as [[rep|]|e] eqn:Hrep;
    [|by vm_compute in Hrep|by vm_compute in Hrep].
  exists rep. split; [done|].
  destruct (move_report_worst [lagging_event] rep Hrep) as [(Hlen & _) _].
  vm_compute in Hrep. injection Hrep as <-. done.
Defined.

(** * The report of the stop-trigger simulator *)

Lemma Qsum_bounds (a b : Q) (xs : list Q) :
  Forall (λ x, (a <= x)%Q ∧ (x <= b)%Q) xs →
  (inject_Z (Z.of_nat (length xs)) * a <= Qsum xs)%Q
  ∧ (Qsum xs <= inject_Z (Z.of_nat (length xs)) * b)%Q.
Proof.
  induction 1 as [|x xs [Hax Hxb] _ [IHa IHb]].
  - change (inject_Z (Z.of_nat (length (@nil Q)))) with 0%Q.
    change (Qsum []) with 0%Q. split; lra.
  - change (Qsum (x :: xs)) with (x + Qsum xs)%Q.
    cbn [length]. rewrite Nat2Z.inj_succ. unfold Z.succ.
    rewrite inject_Z_plus. change (inject_Z 1) with 1%Q.
    split; lra.
Qed.

Lemma mean_between (a b m : Q) (xs : list Q) :
  Forall (λ x, (a <= x)%Q ∧ (x <= b)%Q) xs → mean xs = Ok m →
  (a <= m)%Q ∧ (m <= b)%Q.
Proof.
  intros Hall Hm. destruct xs as [|x rest] eqn:Hxs; [done|]. rewrite <- Hxs in *.
  assert (mean xs = Ok (Qsum xs / inject_Z (Z.of_nat (length xs)))%Q) as Hmean
    by (by rewrite Hxs).
  rewrite Hmean in Hm. injection Hm as <-.
  destruct (Qsum_bounds a b xs Hall) as [Hlo Hhi].
  assert (0 < inject_Z (Z.of_nat (length xs)))%Q as Hn.
  { rewrite Hxs. unfold Qlt. simpl. lia. }
  split.
  - apply Qle_shift_div_l; [done|]. lra.
  - apply Qle_shift_div_r; [done|]. lra.
Qed.

(** What [stop_report] returns for a non-empty list of events. *)
Lemma stop_report_spec (trigger_events : list TriggerEvent) :
  trigger_events ≠ [] →
  ∃ rep,
    stop_report trigger_events = Ok (Some rep)
    ∧ sr_n rep = length trigger_events
    ∧ (r_min rep <= r_med rep)%Q ∧ (r_med rep <= r_max rep)%Q
    ∧ (r_min rep <= r_mean rep)%Q ∧ (r_mean rep <= r_max rep)%Q.
Proof.
  intros Hne. unfold stop_report.
  destruct trigger_events as [|e0 rest] eqn:Hevs; [done|]. rewrite <- Hevs in *.
  set (ratios := sorted (ratio <$> trigger_events)).
  pose proof (sorted_ascending (ratio <$> trigger_events)) as Hs. fold ratios in Hs.
  assert (length ratios = length trigger_events) as Hlen
    by (unfold ratios; by rewrite sorted_length, length_fmap).
  assert (0 < length ratios)%nat as Hpos by (rewrite Hlen, Hevs; simpl; lia).
  assert (ratios ≠ []) as Hrne by (intros Hnil; rewrite Hnil in Hpos; simpl in Hpos; lia).
  destruct (percentile_at ratios 50 Hrne) as (Hidx & med & Hmed & ->).
  destruct (lookup_lt_is_Some_2 ratios 0 Hpos) as [lo Hlo].
  destruct (lookup_lt_is_Some_2 ratios (pred (length ratios)) ltac:(lia)) as [hi Hhi].
  unfold float_at, float_last. rewrite Hlo, last_lookup, Hhi.
  cbn [mbind result_bind].
  assert (Hrange : Forall (λ x, (lo <= x)%Q ∧ (x <= hi)%Q) ratios).
  { apply Forall_forall. intros x Hx. apply list_elem_of_lookup_1 in Hx as [k Hk].
    pose proof (lookup_lt_Some _ _ _ Hk). split.
    - apply (StronglySorted_lookup_le ratios 0 k); [done | lia | done | done].
    - apply (StronglySorted_lookup_le ratios k (pred (length ratios)));
        [done | lia | done | done]. }
  destruct (mean ratios) as [avg|e] eqn:Hmean.
  2: { destruct ratios; [done | discriminate Hmean]. }
  destruct (mean_between lo hi avg ratios Hrange Hmean) as [Hlo_avg Havg_hi].
  cbn [mbind result_bind]. eexists. split; [done|].
  cbn [sr_n r_min r_med r_max r_mean]. split; [done|].
  rewrite Forall_forall in Hrange.
  destruct (Hrange med ltac:(by eapply list_elem_of_lookup_2)) as [Hlm Hmh].
  repeat split; by apply py_round_monotone.
Qed.

(** X17. The report of a stop threshold says "no trigger events" exactly
    for the empty list; otherwise it never raises, counts every event, and
    its figures are consistent: the minimum ratio is at most the median and
    the mean, which are at most the maximum. *)
Theorem stop_report_consistent (trigger_events : list TriggerEvent) :
  (stop_report trigger_events = Ok None ↔ trigger_events = [])
  ∧ (trigger_events ≠ [] →
     ∃ rep,
       stop_report trigger_events = Ok (Some rep)
       ∧ sr_n rep = length trigger_events
       ∧ (r_min rep <= r_med rep)%Q ∧ (r_med rep <= r_max rep)%Q
       ∧ (r_min rep <= r_mean rep)%Q ∧ (r_mean rep <= r_max rep)%Q).
Proof.
  split; [|apply stop_report_spec].
  split.
  - intros Hnone. destruct trigger_events as [|e0 rest]; [done|].
    destruct (stop_report_spec (e0 :: rest)) as (rep & Hrep & _); [done|]. congruence.
  - by intros ->.
Qed.

Example stop_report_cool :
  ∃ st rep, stop_trigger 0.5 qqq_cool tqqq_cool = Ok st
            ∧ stop_report (trigger_events st) = Ok (Some rep)
            ∧ sr_n rep = 2%nat ∧ (r_min rep == 3)%Q ∧ (r_max rep == 3.046)%Q.
Proof.
  eexists _, _. split; [by vm_compute|]. split; [by vm_compute|].
  split; [done|]. split; reflexivity.
Qed.

(** * One session *)

Lemma move_report_total (move_events : list MoveEvent) :
  is_Ok (move_report move_events).
Proof.
  unfold move_report. destruct move_events as [|e0 rest]; [by eexists|].
  repeat match goal with
         | |- context [percentile ?l ?p] =>
             destruct (percentile_is_Ok l p) as [? ->]; cbn [mbind result_bind]
         end.
  by eexists.
Qed.

Lemma stop_report_total (trigger_events : list TriggerEvent) :
  is_Ok (stop_report trigger_events).
Proof.
  destruct trigger_events as [|e0 rest]; [by eexists|].
  destruct (stop_report_spec (e0 :: rest)) as (rep & -> & _); [done | by eexists].
Qed.

Lemma nonempty_of_length {A : Type} (l : list A) (n : nat) :
  (n < length l)%nat → l ≠ [].
Proof. intros Hlen ->. simpl in Hlen. lia. Qed.

(** X18. A session in which some series has fewer than 100 ticks is skipped
    before any lookup is made.  Otherwise, when all prices are positive, the
    session runs its three parts to the end without raising: it reports the
    four windows, the detector's figures and the two stop thresholds. *)
Theorem analyse_session_completes (qqq tqqq sqqq : list Tick) :
  ((length qqq < 100 ∨ length tqqq < 100 ∨ length sqqq < 100)%nat →
   analyse_session qqq tqqq sqqq = Ok TooFewTicks)
  ∧ (Forall (λ tk : Tick, (0 < tk.2)%Q) qqq →
     Forall (λ tk : Tick, (0 < tk.2)%Q) tqqq →
     Forall (λ tk : Tick, (0 < tk.2)%Q) sqqq →
     (100 ≤ length qqq)%nat → (100 ≤ length tqqq)%nat → (100 ≤ length sqqq)%nat →
     ∃ windows moves stops,
       analyse_session qqq tqqq sqqq = Ok (Analysed windows moves stops)
       ∧ length windows = 4%nat ∧ length stops = 2%nat).
Proof.
  unfold analyse_session. split.
  - intros Hfew. by destruct (decide _).
  - intros Hq Ht Hs Hlq Hlt Hls.
    destruct (decide _) as [Hfew|_]; [lia|].
    assert (qqq ≠ []) as Hq_ne by (apply (nonempty_of_length _ 0); lia).
    assert (tqqq ≠ []) as Ht_ne by (apply (nonempty_of_length _ 0); lia).
    assert (sqqq ≠ []) as Hs_ne by (apply (nonempty_of_length _ 0); lia).
    pose proof (rolling_ratio_total qqq tqqq sqqq Hq Ht Hs Ht_ne Hs_ne) as Hroll.
    destruct (Hroll 5) as [w5 Hw5], (Hroll 10) as [w10 Hw10],
             (Hroll 30) as [w30 Hw30], (Hroll 60) as [w60 Hw60].
    cbn [mapM]. rewrite Hw5, Hw10, Hw30, Hw60. cbn [mbind result_bind mret result_ret].
    destruct (move_lag_total qqq tqqq sqqq Hq Ht Hs Ht_ne Hs_ne) as [evs ->].
    cbn [mbind result_bind].
    destruct (move_report_total evs) as [moves ->]. cbn [mbind result_bind].
    destruct (stop_trigger_total qqq tqqq Hq Ht Ht_ne 0.2 Hq_ne) as [st2 ->].
    destruct (stop_trigger_total qqq tqqq Hq Ht Ht_ne 0.5 Hq_ne) as [st5 ->].
    cbn [mbind result_bind].
    destruct (stop_report_total (trigger_events st2)) as [r2 ->].
    destruct (stop_report_total (trigger_events st5)) as [r5 ->].
    cbn [mbind result_bind mret result_ret].
    by eexists _, _, _.
Qed.

Lemma analyse_session_completes_witness :
  (length qqq_ramp < 100 ∨ length tqqq_ramp < 100 ∨ length sqqq_ramp < 100)%nat
  ∧ analyse_session qqq_ramp tqqq_ramp sqqq_ramp = Ok TooFewTicks
  ∧ Forall (λ tk : Tick, (0 < tk.2)%Q) qqq_100
  ∧ Forall (λ tk : Tick, (0 < tk.2)%Q) tqqq_100
  ∧ Forall (λ tk : Tick, (0 < tk.2)%Q) sqqq_100
  ∧ (100 ≤ length qqq_100)%nat ∧ (100 ≤ length tqqq_100)%nat
  ∧ (100 ≤ length sqqq_100)%nat
  ∧ ∃ windows moves stops,
      analyse_session qqq_100 tqqq_100 sqqq_100 = Ok (Analysed windows moves stops)
      ∧ length windows = 4%nat ∧ length stops = 2%nat.
Proof.
  assert (Hfew : (length qqq_ramp < 100 ∨ length tqqq_ramp < 100
                  ∨ length sqqq_ramp < 100)%nat) by (left; vm_compute; lia).
  assert (Hq : Forall (λ tk : Tick, (0 < tk.2)%Q) qqq_100)
    by (apply Forall_forall; intros tk Hin; vm_compute in Hin;
        repeat (apply elem_of_cons in Hin as [->|Hin]; [done|]);
        by apply elem_of_nil in Hin).
  assert (Ht : Forall (λ tk : Tick, (0 < tk.2)%Q) tqqq_100)
    by (apply Forall_forall; intros tk Hin; vm_compute in Hin;
        repeat (apply elem_of_cons in Hin as [->|Hin]; [done|]);
        by apply elem_of_nil in Hin).
  assert (Hs : Forall (λ tk : Tick, (0 < tk.2)%Q) sqqq_100)
    by (apply Forall_forall; intros tk Hin; vm_compute in Hin;
        repeat (apply elem_of_cons in Hin as [->|Hin]; [done|]);
        by apply elem_of_nil in Hin).
  destruct (analyse_session_completes qqq_ramp tqqq_ramp sqqq_ramp) as [Hskip _].
  destruct (analyse_session_completes qqq_100 tqqq_100 sqqq_100) as [_ Hrun].
  split; [done|]. split; [by apply Hskip|].
  split; [done|]. split; [done|]. split; [done|].
  assert (Hlq : (100 ≤ length qqq_100)%nat) by (vm_compute; lia).
  assert (Hlt : (100 ≤ length tqqq_100)%nat) by (vm_compute; lia).
  assert (Hls : (100 ≤ length sqqq_100)%nat) by (vm_compute; lia).
  split; [done|]. split; [done|]. split; [done|].
  by apply Hrun.
Defined.

(** * The engine on binary64 floats: properties *)

Lemma F64_tick_at_Ok (ticks : list F64.Tick) (i : nat) (tk : F64.Tick) :
  F64.tick_at ticks i = Ok tk ↔ ticks !! i = Some tk.
Proof. unfold F64.tick_at. destruct (ticks !! i); naive_solver. Qed.

(** A price is a positive finite float. *)
Lemma is_price_finite (x : float) :
  F64.is_price x = true → ∃ m e, Prim2SF x = S754_finite false m e.
Proof.
  unfold F64.is_price. rewrite andb_true_iff, !FloatAxioms.ltb_spec.
  change (Prim2SF 0) with (S754_zero false).
  change (Prim2SF infinity) with (S754_infinity false).
  destruct (Prim2SF x) as [s|s| |s m e]; intros [H0 Hinf].
  - discriminate.
  - destruct s; discriminate.
  - discriminate.
  - destruct s; [discriminate|]. by eexists _, _.
Qed.

(** The drawdown of a price from itself is [0.0], and computing it raises
    nothing. *)
Lemma F64_drawdown_self (x : float) :
  F64.is_price x = true → F64.drawdown x x = Ok 0%float.
Proof.
  intros Hx. destruct (is_price_finite x Hx) as (m & e & Hsf).
  unfold F64.drawdown, F64.fdiv.
  assert ((x =? 0)%float = false) as ->.
  { rewrite FloatAxioms.eqb_spec, Hsf. reflexivity. }
  cbn [mbind result_bind]. f_equal.
  apply Prim2SF_inj.
  rewrite FloatAxioms.mul_spec, FloatAxioms.div_spec, FloatAxioms.sub_spec, Hsf.
  unfold SF64sub, SFsub. rewrite Z.sub_diag. reflexivity.
Qed.

(** ** Lookups *)

(** The lookup of the float series is the lookup of the rational series of
    the same timestamps: the search reads timestamps only. *)
Lemma F64_tick_at_exact (ticks : list F64.Tick) (i : nat) :
  tick_at (F64.exact_ticks ticks) i
  = F64.tick_at ticks i ≫= λ tk, Ok (tk.1, default 0%Q (F64.exact tk.2)).
Proof.
  unfold tick_at, F64.tick_at, F64.exact_ticks. rewrite list_lookup_fmap.
  by destruct (ticks !! i).
Qed.

Lemma F64_bisect_loop_exact (ticks : list F64.Tick) (target_ms : Z) (fuel : nat) :
  ∀ lo hi,
    F64.bisect_loop fuel ticks target_ms lo hi
    = bisect_loop fuel (F64.exact_ticks ticks) target_ms lo hi.
Proof.
  induction fuel as [|fuel IH]; intros lo hi; cbn -[Nat.div].
  - done.
  - destruct (decide (lo < hi)%nat); [|done].
    rewrite F64_tick_at_exact.
    destruct (F64.tick_at ticks ((lo + hi) / 2)) as [tk|e]; cbn -[Nat.div]; [|done].
    destruct (decide (tk.1 < target_ms)); apply IH.
Qed.

Lemma F64_find_nearest_idx_exact (ticks : list F64.Tick) (target_ms : Z) :
  F64.find_nearest_idx ticks target_ms
  = find_nearest_idx (F64.exact_ticks ticks) target_ms.
Proof.
  unfold F64.find_nearest_idx, find_nearest_idx.
  assert (length (F64.exact_ticks ticks) = length ticks) as ->
    by apply length_fmap.
  destruct (decide (length ticks = 0)%nat); [done|].
  rewrite F64_bisect_loop_exact.
  destruct (bisect_loop _ _ _ _ _) as [lo|e]; simpl; [|done].
  destruct (decide (0 < lo)%nat); [|done].
  rewrite !F64_tick_at_exact.
  destruct (F64.tick_at ticks lo) as [t_lo|e]; simpl; [|done].
  destruct (F64.tick_at ticks (lo - 1)) as [t_prev|e]; done.
Qed.

(** On a non-empty series the lookup returns one of its ticks. *)
Lemma F64_price_at_time_total (ticks : list F64.Tick) (ms : Z) :
  ticks ≠ [] → ∃ tk, F64.price_at_time ticks ms = Ok tk ∧ tk ∈ ticks.
Proof.
  intros Hne. unfold F64.price_at_time. rewrite F64_find_nearest_idx_exact.
  assert (F64.exact_ticks ticks ≠ []) as Hne'.
  { destruct ticks; [done|]. done. }
  destruct (find_nearest_idx_bound (F64.exact_ticks ticks) ms Hne') as (r & Hr & Hlt).
  rewrite Hr. simpl. unfold F64.exact_ticks in Hlt. rewrite length_fmap in Hlt.
  destruct (lookup_lt_is_Some_2 ticks r Hlt) as [tk Htk].
  exists tk. unfold F64.tick_at. rewrite Htk. split; [done|].
  by eapply list_elem_of_lookup_2.
Qed.

(** ** The stop-trigger simulator *)

Lemma F64_not_fired_same (st st' : F64.StopState) :
  F64.trigger_events st' = F64.trigger_events st → ¬ F64.fired st st'.
Proof.
  intros Heq [ev Hev]. rewrite Heq in Hev.
  apply (f_equal length) in Hev. rewrite length_app in Hev. simpl in Hev. lia.
Qed.

Lemma F64_trigger_cond_true (stop_pct q_drop : float) (q_ms last : Z) :
  F64.trigger_cond stop_pct q_drop q_ms last = true
  ↔ (stop_pct <=? q_drop)%float = true
    ∧ (q_drop <? stop_pct + 0.05)%float = true
    ∧ q_ms - last > 60000.
Proof.
  unfold F64.trigger_cond. rewrite !andb_true_iff, bool_decide_eq_true.
  unfold cooldown_ms. tauto.
Qed.

Section stop_trigger_f64.

Variable round : float → Z → float.

(** The two outcomes of an iteration that raises nothing. *)
Lemma F64_stop_step_inv (stop_pct : float) (qqq tqqq : list F64.Tick)
    (st st' : F64.StopState) (i : nat) :
  F64.stop_step round stop_pct qqq tqqq st i = Ok st' →
  ∃ q_ms q_p t_cur h th q_drop,
    F64.tick_at qqq i = Ok (q_ms, q_p)
    ∧ F64.price_at_time tqqq q_ms = Ok t_cur
    ∧ F64.update_hwms (F64.hwm st) (F64.t_hwm st) q_p t_cur.2 = (h, th)
    ∧ F64.drawdown h q_p = Ok q_drop
    ∧ ((F64.trigger_cond stop_pct q_drop q_ms (F64.last_trigger_ms st) = true
        ∧ ∃ t_drop r,
            F64.drawdown th t_cur.2 = Ok t_drop
            ∧ (if (0 <? q_drop)%float then F64.fdiv t_drop q_drop else Ok 0%float)
              = Ok r
            ∧ st' = {| F64.hwm := q_p;
                       F64.t_hwm := t_cur.2;
                       F64.last_trigger_ms := q_ms;
                       F64.trigger_events := F64.trigger_events st ++ [ {|
                         F64.qqq_drop := round q_drop 4;
                         F64.tqqq_drop := round t_drop 4;
                         F64.ratio := round r 3;
                         F64.tick_gap_ms := Z.abs (t_cur.1 - q_ms) |} ] |})
       ∨ (F64.trigger_cond stop_pct q_drop q_ms (F64.last_trigger_ms st) = false
          ∧ st' = {| F64.hwm := h;
                     F64.t_hwm := th;
                     F64.last_trigger_ms := F64.last_trigger_ms st;
                     F64.trigger_events := F64.trigger_events st |})).
Proof.
  unfold F64.stop_step. intros H.
  bind_inv H. destruct a as [q_ms q_p].
  bind_inv H. rename a into t_cur.
  destruct (F64.update_hwms (F64.hwm st) (F64.t_hwm st) q_p t_cur.2)
    as [h th] eqn:Hupd.
  bind_inv H. rename a into q_drop.
  exists q_ms, q_p, t_cur, h, th, q_drop.
  repeat (split; [done|]).
  destruct (F64.trigger_cond stop_pct q_drop q_ms (F64.last_trigger_ms st))
    eqn:Hcond.
  - left. split; [done|].
    bind_inv H. rename a into t_drop.
    bind_inv H. rename a into r.
    injection H as <-. by exists t_drop, r.
  - right. split; [done|]. by injection H as <-.
Qed.

(** The list of recorded triggers only grows. *)
Lemma F64_stop_step_events (stop_pct : float) (qqq tqqq : list F64.Tick)
    (st st' : F64.StopState) (i : nat) :
  F64.stop_step round stop_pct qqq tqqq st i = Ok st' →
  (F64.fired st st'
   ∧ length (F64.trigger_events st') = S (length (F64.trigger_events st)))
  ∨ (F64.trigger_events st' = F64.trigger_events st ∧ ¬ F64.fired st st').
Proof.
  intros H. apply F64_stop_step_inv in H
    as (q_ms & q_p & t_cur & h & th & q_drop & _ & _ & _ & _
        & [(_ & t_drop & r & _ & _ & ->) | (_ & ->)]).
  - left. split; [by eexists|]. simpl. rewrite length_app. simpl. lia.
  - right. split; [done|]. by apply F64_not_fired_same.
Qed.

Lemma F64_trigger_times_spaced (stop_pct : float) (qqq tqqq : list F64.Tick)
    (idxs : list nat) :
  ∀ st, spaced (F64.last_trigger_ms st)
          (F64.trigger_times round stop_pct qqq tqqq st idxs).
Proof.
  induction idxs as [|i rest IH]; intros st; [done|].
  simpl. destruct (F64.stop_step round stop_pct qqq tqqq st i) as [st'|e] eqn:Hstep;
    [|done].
  destruct (F64_stop_step_inv _ _ _ _ _ _ Hstep)
    as (q_ms & q_p & t_cur & h & th & q_drop & Hq & _ & _ & _ & Hcase).
  rewrite Hq. specialize (IH st').
  destruct Hcase as [(Hcond & t_drop & r & _ & _ & ->) | (_ & ->)].
  - apply F64_trigger_cond_true in Hcond as (_ & _ & Hcool). simpl in *.
    destruct (decide (length (F64.trigger_events st)
                      < length (F64.trigger_events st ++ [_]))%nat) as [_|Hn].
    + simpl. unfold cooldown_ms. done.
    + rewrite length_app in Hn. simpl in Hn. lia.
  - simpl in *.
    destruct (decide (length (F64.trigger_events st)
                      < length (F64.trigger_events st))%nat);
      [lia | done].
Qed.

(** [trigger_times] lists exactly the ticks at which the loop appends. *)
Lemma F64_trigger_times_length (stop_pct : float) (qqq tqqq : list F64.Tick)
    (idxs : list nat) :
  ∀ st st',
    F64.stop_loop round stop_pct qqq tqqq st idxs = Ok st' →
    length (F64.trigger_events st')
    = (length (F64.trigger_events st)
       + length (F64.trigger_times round stop_pct qqq tqqq st idxs))%nat.
Proof.
  induction idxs as [|i rest IH]; intros st st' H.
  - simpl in H. injection H as <-. simpl. lia.
  - simpl in H. bind_inv H. rename a into st1.
    simpl. rewrite Ha. specialize (IH _ _ H).
    destruct (F64_stop_step_inv _ _ _ _ _ _ Ha)
      as (q_ms & q_p & t_cur & h & th & q_drop & Hq & _).
    rewrite Hq.
    destruct (F64_stop_step_events _ _ _ _ _ _ Ha) as [[_ Hlen] | [Heq _]].
    + destruct (decide (length (F64.trigger_events st)
                        < length (F64.trigger_events st1))%nat);
        [|lia]. rewrite length_app. simpl. lia.
    + destruct (decide (length (F64.trigger_events st)
                        < length (F64.trigger_events st1))%nat)
        as [Hlt|_].
      * rewrite Heq in Hlt. lia.
      * simpl. rewrite IH, Heq. done.
Qed.

End stop_trigger_f64.

(** C3, amended.  At a sampled reference tick a trigger is recorded if and
    only if the reference drawdown from its HWM, as the program computes it
    in binary64, compares [>=] the threshold and [<] the computed sum
    threshold + 0.05, and strictly more than 60 s separate the tick from the
    cooldown clock (the time of the last trigger, 0 before the first); hence
    any two triggers of a run are more than 60 s apart. *)
Theorem trigger_iff_band_and_cooldown (round : float → Z → float)
    (stop_pct : float) (qqq tqqq : list F64.Tick) :
  (∀ st i st',
     F64.stop_step round stop_pct qqq tqqq st i = Ok st' →
     ∃ q_ms q_p t_cur h th q_drop,
       F64.tick_at qqq i = Ok (q_ms, q_p)
       ∧ F64.price_at_time tqqq q_ms = Ok t_cur
       ∧ F64.update_hwms (F64.hwm st) (F64.t_hwm st) q_p t_cur.2 = (h, th)
       ∧ F64.drawdown h q_p = Ok q_drop
       ∧ (F64.fired st st'
          ↔ (stop_pct <=? q_drop)%float = true
            ∧ (q_drop <? stop_pct + 0.05)%float = true
            ∧ q_ms - F64.last_trigger_ms st > 60000))
  ∧ (∀ st idxs st',
       F64.stop_loop round stop_pct qqq tqqq st idxs = Ok st' →
       let times := F64.trigger_times round stop_pct qqq tqqq st idxs in
       length (F64.trigger_events st')
       = (length (F64.trigger_events st) + length times)%nat
       ∧ ∀ k l a b, (k < l)%nat → times !! k = Some a → times !! l = Some b →
           b - a > 60000).
Proof.
  split.
  - intros st i st' H.
    apply F64_stop_step_inv in H
      as (q_ms & q_p & t_cur & h & th & q_drop & Hq & Ht & Hupd & Hdrop & Hcase).
    exists q_ms, q_p, t_cur, h, th, q_drop. repeat (split; [done|]).
    destruct Hcase as [(Hcond & t_drop & r & _ & _ & ->) | (Hcond & ->)].
    + split; [intros _; by apply F64_trigger_cond_true | intros _; by eexists].
    + split.
      * intros Hf. exfalso. by apply (F64_not_fired_same st _ eq_refl).
      * intros Hc. apply F64_trigger_cond_true in Hc. congruence.
  - intros st idxs st' H times. split.
    + by apply F64_trigger_times_length.
    + pose proof (F64_trigger_times_spaced round stop_pct qqq tqqq idxs st) as Hsp.
      destruct (spaced_pairwise _ _ Hsp) as [_ Hpair]. exact Hpair.
Qed.

Lemma trigger_iff_band_and_cooldown_witness :
  (∃ st', F64.stop_step F64.py_round 0.5 F64.qqq_cool F64.tqqq_cool F64.cool_start 1
          = Ok st'
          ∧ F64.fired F64.cool_start st')
  ∧ ∃ st',
      F64.stop_loop F64.py_round 0.5 F64.qqq_cool F64.tqqq_cool F64.cool_start
        [1; 2; 3]%nat = Ok st'
      ∧ F64.trigger_times F64.py_round 0.5 F64.qqq_cool F64.tqqq_cool F64.cool_start
          [1; 2; 3]%nat
        = [100000; 160001]
      ∧ length (F64.trigger_events st') = 2%nat
      ∧ 160001 - 100000 > 60000.
Proof.
  destruct (trigger_iff_band_and_cooldown F64.py_round 0.5 F64.qqq_cool F64.tqqq_cool)
    as [Hstep Hrun].
  split.
  - destruct (F64.stop_step F64.py_round 0.5 F64.qqq_cool F64.tqqq_cool
                F64.cool_start 1) as [st'|e] eqn:Hs;
      [|by vm_compute in Hs].
    exists st'. split; [done|].
    destruct (Hstep F64.cool_start 1%nat st' Hs)
      as (q_ms & q_p & t_cur & h & th & q_drop & Hq & Ht & Hupd & Hdrop & Hiff).
    apply Hiff.
    vm_compute in Hq. injection Hq as <- <-.
    vm_compute in Ht. injection Ht as <-.
    vm_compute in Hupd. injection Hupd as <- <-.
    vm_compute in Hdrop. injection Hdrop as <-.
    split; [by vm_compute|]. split; [by vm_compute|]. simpl. lia.
  - destruct (F64.stop_loop F64.py_round 0.5 F64.qqq_cool F64.tqqq_cool
                F64.cool_start [1; 2; 3]%nat)
      as [st'|e] eqn:Hl; [|by vm_compute in Hl].
    exists st'. split; [done|].
    destruct (Hrun F64.cool_start [1; 2; 3]%nat st' Hl) as [Hlen Hpair].
    assert (Htimes : F64.trigger_times F64.py_round 0.5 F64.qqq_cool F64.tqqq_cool
                       F64.cool_start [1; 2; 3]%nat
                     = [100000; 160001]) by by vm_compute.
    split; [done|]. rewrite Htimes in Hlen, Hpair. split; [done|].
    apply (Hpair 0%nat 1%nat 100000 160001); [lia | done | done].
Defined.

(** The cooldown boundary on floats: at 160000 ms, exactly 60 s after the
    first trigger, the computed drawdown 0.5000000000000022 is in the band
    and no trigger is recorded. *)
Example cooldown_boundary_computed :
  ∃ st1 st2,
    F64.stop_step F64.py_round 0.5 F64.qqq_cool F64.tqqq_cool F64.cool_start 1
    = Ok st1
    ∧ F64.fired F64.cool_start st1
    ∧ F64.last_trigger_ms st1 = 100000
    ∧ F64.stop_step F64.py_round 0.5 F64.qqq_cool F64.tqqq_cool st1 2 = Ok st2
    ∧ F64.drawdown (F64.hwm st1) 99.0025 = Ok 0.50000000000000222%float
    ∧ (0.5 <=? 0.50000000000000222)%float = true
    ∧ (0.50000000000000222 <? 0.5 + 0.05)%float = true
    ∧ F64.trigger_events st2 = F64.trigger_events st1.
Proof.
  eexists _, _. split; [by vm_compute|]. split; [by eexists|].
  split; [done|]. split; [by vm_compute|]. by vm_compute.
Qed.

(** The band is the one the program computes: a drop of 2000 to 1989 is
    0.55% in real arithmetic, outside [0.5, 0.55), but computes to
    0.5499999999999999, below the computed bound 0.55000000000000004, and
    is recorded. *)
Example stop_trigger_computed_band :
  F64.drawdown 2000 1989 = Ok 0.5499999999999999%float
  ∧ (0.5 + 0.05 = 0.55000000000000004)%float
  ∧ ∃ st ev,
      F64.stop_trigger F64.py_round 0.5
        [(0, 2000%float); (70000, 1989%float)] [(0, 400%float); (70000, 399%float)]
      = Ok st
      ∧ F64.trigger_events st = [ev] ∧ F64.last_trigger_ms st = 70000.
Proof.
  split; [by vm_compute|]. split; [by vm_compute|].
  eexists _, _. split; [by vm_compute|]. done.
Qed.

(** ** High-water marks between resets *)

Lemma F64_hwm_run_snoc (h th : float) (obs : list (float * float))
    (o : float * float) :
  F64.hwm_run h th (obs ++ [o])
  = F64.update_hwms (F64.hwm_run h th obs).1 (F64.hwm_run h th obs).2 o.1 o.2.
Proof. unfold F64.hwm_run. by rewrite foldl_app. Qed.

Lemma F64_running_max_snoc (start : float) (prices : list float) (p : float) :
  F64.running_max start (prices ++ [p])
  = if (F64.running_max start prices <? p)%float then p
    else F64.running_max start prices.
Proof. unfold F64.running_max. by rewrite foldl_app. Qed.

(** The reference HWM is the running maximum of the reference prices. *)
Lemma F64_hwm_run_fst (h th : float) (obs : list (float * float)) :
  (F64.hwm_run h th obs).1 = F64.running_max h obs.*1.
Proof.
  induction obs as [|o obs IH] using rev_ind; [done|].
  replace ((obs ++ [o]).*1) with (obs.*1 ++ [o.1]) by (by rewrite fmap_app).
  rewrite F64_hwm_run_snoc, F64_running_max_snoc, <- IH.
  unfold F64.update_hwms. by destruct ((F64.hwm_run h th obs).1 <? o.1)%float.
Qed.

(** The derived HWM restarts from the derived price at every new high of
    the reference, and is a running maximum from there on. *)
Lemma F64_hwm_run_snd (h th : float) (obs : list (float * float)) :
  (Forall (λ o, (h <? o.1)%float = false) obs
   ∧ (F64.hwm_run h th obs).1 = h
   ∧ (F64.hwm_run h th obs).2 = F64.running_max th obs.*2)
  ∨ (∃ pre q t post,
       obs = pre ++ (q, t) :: post
       ∧ (F64.running_max h pre.*1 <? q)%float = true
       ∧ Forall (λ o, (q <? o.1)%float = false) post
       ∧ (F64.hwm_run h th obs).1 = q
       ∧ (F64.hwm_run h th obs).2 = F64.running_max t post.*2).
Proof.
  induction obs as [|[q t] obs IH] using rev_ind.
  - left. by repeat split.
  - rewrite F64_hwm_run_snoc. simpl.
    pose proof (F64_hwm_run_fst h th obs) as Hfst.
    destruct (F64.hwm_run h th obs) as [h' th'] eqn:Hrun. simpl in *.
    unfold F64.update_hwms. destruct (h' <? q)%float eqn:Hhigh.
    + right. exists obs, q, t, []. rewrite <- Hfst. simpl.
      repeat (split; [done|]). by destruct (t <? t)%float.
    + simpl.
      destruct IH as [(Hall & -> & ->)
                     | (pre & q0 & t0 & post & -> & Hnew & Hall & -> & ->)].
      * left. split; [|split; [done|]].
        -- apply Forall_app. split; [done|]. by constructor.
        -- replace ((obs ++ [(q, t)]).*2) with (obs.*2 ++ [t])
             by (by rewrite fmap_app).
           by rewrite F64_running_max_snoc.
      * right. exists pre, q0, t0, (post ++ [(q, t)]).
        rewrite <- app_assoc. simpl. split; [done|]. split; [done|]. split.
        -- apply Forall_app. split; [done|]. by constructor.
        -- split; [done|].
           replace ((post ++ [(q, t)]).*2) with (post.*2 ++ [t])
             by (by rewrite fmap_app).
           by rewrite F64_running_max_snoc.
Qed.

Section hwm_f64.

Variable round : float → Z → float.

Lemma F64_stop_loop_events_length (stop_pct : float) (qqq tqqq : list F64.Tick)
    (idxs : list nat) :
  ∀ st st',
    F64.stop_loop round stop_pct qqq tqqq st idxs = Ok st' →
    (length (F64.trigger_events st) ≤ length (F64.trigger_events st'))%nat.
Proof.
  induction idxs as [|i rest IH]; intros st st' H.
  - simpl in H. by injection H as <-.
  - simpl in H. bind_inv H. rename a into st1.
    specialize (IH _ _ H).
    destruct (F64_stop_step_events round _ _ _ _ _ _ Ha) as [[_ Hlen] | [Heq _]].
    + lia.
    + by rewrite <- Heq.
Qed.

(** A run that records no trigger only updates the two HWMs. *)
Lemma F64_stop_loop_quiet (stop_pct : float) (qqq tqqq : list F64.Tick)
    (idxs : list nat) :
  ∀ st st',
    F64.stop_loop round stop_pct qqq tqqq st idxs = Ok st' →
    F64.trigger_events st' = F64.trigger_events st →
    ∃ obs,
      Forall2 (λ i o, F64.observe qqq tqqq i = Ok o) idxs obs
      ∧ (F64.hwm st', F64.t_hwm st') = F64.hwm_run (F64.hwm st) (F64.t_hwm st) obs.
Proof.
  induction idxs as [|i rest IH]; intros st st' H Hsame.
  - simpl in H. injection H as <-. exists []. split; [constructor | done].
  - simpl in H. bind_inv H. rename a into st1, Ha into Hstep.
    pose proof (F64_stop_loop_events_length _ _ _ _ _ _ H) as Hlen.
    destruct (F64_stop_step_events round _ _ _ _ _ _ Hstep) as [[_ Hgrow] | [Heq _]].
    { rewrite Hsame in Hlen. lia. }
    destruct (IH st1 st' H) as (obs & Hobs & Hrun); [congruence|].
    apply F64_stop_step_inv in Hstep
      as (q_ms & q_p & t_cur & h & th & q_drop & Hq & Ht & Hupd & _ & Hcase).
    destruct Hcase as [(_ & t_drop & r & _ & _ & ->) | (_ & ->)].
    { simpl in Heq. apply (f_equal length) in Heq. rewrite length_app in Heq.
      simpl in Heq. lia. }
    exists ((q_p, t_cur.2) :: obs). split.
    + constructor; [|done]. unfold F64.observe. rewrite Hq. simpl. by rewrite Ht.
    + rewrite Hrun. unfold F64.hwm_run. simpl. by rewrite Hupd.
Qed.

End hwm_f64.

(** C2, amended.  Over a run of the simulator that records no trigger, the
    reference HWM is the running maximum of its start value and the sampled
    reference prices.  The derived HWM is not updated independently of the
    reference: when the reference made a new high during the run, the
    derived HWM is the running maximum of the derived prices looked up
    since the last such tick, starting from the derived price at that tick;
    when no sampled reference price compared above the reference HWM the
    run started with, it is the running maximum of its start value and all
    looked-up derived prices. *)
Theorem hwm_between_resets (round : float → Z → float) (stop_pct : float)
    (qqq tqqq : list F64.Tick) (st st' : F64.StopState) (idxs : list nat) :
  F64.stop_loop round stop_pct qqq tqqq st idxs = Ok st' →
  F64.trigger_events st' = F64.trigger_events st →
  ∃ obs,
    Forall2 (λ i o, F64.observe qqq tqqq i = Ok o) idxs obs
    ∧ F64.hwm st' = F64.running_max (F64.hwm st) obs.*1
    ∧ ((Forall (λ o, (F64.hwm st <? o.1)%float = false) obs
        ∧ F64.t_hwm st' = F64.running_max (F64.t_hwm st) obs.*2)
       ∨ (∃ pre q t post,
            obs = pre ++ (q, t) :: post
            ∧ (F64.running_max (F64.hwm st) pre.*1 <? q)%float = true
            ∧ Forall (λ o, (q <? o.1)%float = false) post
            ∧ F64.t_hwm st' = F64.running_max t post.*2)).
Proof.
  intros H Hsame.
  destruct (F64_stop_loop_quiet round _ _ _ _ _ _ H Hsame) as (obs & Hobs & Hrun).
  exists obs. split; [done|].
  pose proof (F64_hwm_run_fst (F64.hwm st) (F64.t_hwm st) obs) as Hfst.
  pose proof (F64_hwm_run_snd (F64.hwm st) (F64.t_hwm st) obs) as Hsnd.
  rewrite <- Hrun in Hfst, Hsnd. simpl in Hfst, Hsnd.
  split; [done|].
  destruct Hsnd as [(Hall & _ & Hth)
                   | (pre & q & t & post & Hobs' & Hnew & Hall & _ & Hth)].
  - by left.
  - right. by exists pre, q, t, post.
Qed.

Lemma hwm_between_resets_witness :
  let st := {| F64.hwm := 100; F64.t_hwm := 50; F64.last_trigger_ms := 0;
               F64.trigger_events := [] |} in
  ∃ st',
    F64.stop_loop F64.py_round 0.5 F64.qqq_new_high F64.tqqq_off_peak st [1; 2]%nat
    = Ok st'
    ∧ F64.trigger_events st' = F64.trigger_events st
    ∧ F64.hwm st' = 101%float ∧ F64.t_hwm st' = 55%float
    ∧ ∃ obs,
        Forall2 (λ i o, F64.observe F64.qqq_new_high F64.tqqq_off_peak i = Ok o)
          [1; 2]%nat obs
        ∧ F64.hwm st' = F64.running_max (F64.hwm st) obs.*1
        ∧ ((Forall (λ o, (F64.hwm st <? o.1)%float = false) obs
            ∧ F64.t_hwm st' = F64.running_max (F64.t_hwm st) obs.*2)
           ∨ (∃ pre q t post,
                obs = pre ++ (q, t) :: post
                ∧ (F64.running_max (F64.hwm st) pre.*1 <? q)%float = true
                ∧ Forall (λ o, (q <? o.1)%float = false) post
                ∧ F64.t_hwm st' = F64.running_max t post.*2)).
Proof.
  intros st.
  destruct (F64.stop_loop F64.py_round 0.5 F64.qqq_new_high F64.tqqq_off_peak st
              [1; 2]%nat) as [st'|e] eqn:Hl; [|by vm_compute in Hl].
  assert (Hst : st' = {| F64.hwm := 101; F64.t_hwm := 55; F64.last_trigger_ms := 0;
                         F64.trigger_events := [] |}).
  { vm_compute in Hl. by injection Hl as <-. }
  assert (Hsame : F64.trigger_events st' = F64.trigger_events st) by (by rewrite Hst).
  exists st'. split; [done|]. split; [done|].
  split; [by rewrite Hst|]. split; [by rewrite Hst|].
  by apply (hwm_between_resets F64.py_round 0.5 F64.qqq_new_high F64.tqqq_off_peak
              st st' [1; 2]%nat).
Defined.

(** The derived HWM on floats: the long series is seen at 60 and then at
    55, the reference making a new high at the second tick, and the derived
    HWM ends at 55 although the running maximum of the derived prices is
    60; when the long series rises to 60 with the new high instead, the two
    coincide. *)
Example derived_hwm_restarts :
  (∃ st, F64.stop_trigger F64.py_round 0.5 F64.qqq_new_high F64.tqqq_off_peak = Ok st
         ∧ F64.trigger_events st = []
         ∧ F64.t_hwm st = 55%float
         ∧ F64.running_max 50 [60; 55]%float = 60%float)
  ∧ ∃ st, F64.stop_trigger F64.py_round 0.5
            [(0, 100%float); (1000, 101%float)] [(0, 50%float); (1000, 60%float)]
          = Ok st
          ∧ F64.t_hwm st = 60%float
          ∧ F64.running_max 50 [60]%float = 60%float.
Proof.
  split; eexists; (split; [by vm_compute|]); done.
Qed.

(** C5. Whenever a trigger is recorded, the event holds the reference
    drawdown, the simultaneous derived drawdown from the derived HWM and
    their ratio, each as the program computes it in binary64 and rounded by
    [round] to 4, 4 and 3 decimals; both HWMs are then the current reference
    and derived prices and the cooldown clock is the current timestamp, so
    that the reference drawdown computed against the reset HWM is 0. *)
Theorem trigger_records_and_resets (round : float → Z → float)
    (stop_pct : float) (qqq tqqq : list F64.Tick)
    (st st' : F64.StopState) (i : nat) :
  Forall (λ tk : F64.Tick, F64.is_price tk.2 = true) qqq →
  F64.stop_step round stop_pct qqq tqqq st i = Ok st' →
  F64.fired st st' →
  ∃ q_ms q_p t_cur h th q_drop t_drop r,
    F64.tick_at qqq i = Ok (q_ms, q_p)
    ∧ F64.price_at_time tqqq q_ms = Ok t_cur
    ∧ F64.update_hwms (F64.hwm st) (F64.t_hwm st) q_p t_cur.2 = (h, th)
    ∧ F64.drawdown h q_p = Ok q_drop
    ∧ F64.drawdown th t_cur.2 = Ok t_drop
    ∧ (if (0 <? q_drop)%float then F64.fdiv t_drop q_drop else Ok 0%float) = Ok r
    ∧ F64.trigger_events st' = F64.trigger_events st ++ [ {|
        F64.qqq_drop := round q_drop 4;
        F64.tqqq_drop := round t_drop 4;
        F64.ratio := round r 3;
        F64.tick_gap_ms := Z.abs (t_cur.1 - q_ms) |} ]
    ∧ F64.hwm st' = q_p
    ∧ F64.t_hwm st' = t_cur.2
    ∧ F64.last_trigger_ms st' = q_ms
    ∧ F64.drawdown (F64.hwm st') q_p = Ok 0%float.
Proof.
  intros Hpos H Hfired. apply F64_stop_step_inv in H
    as (q_ms & q_p & t_cur & h & th & q_drop & Hq & Ht & Hupd & Hdrop
        & [(_ & t_drop & r & Htdrop & Hr & ->) | (_ & ->)]).
  - exists q_ms, q_p, t_cur, h, th, q_drop, t_drop, r.
    repeat (split; [done|]). simpl.
    apply F64_drawdown_self.
    apply F64_tick_at_Ok in Hq. apply list_elem_of_lookup_2 in Hq.
    rewrite Forall_forall in Hpos. apply (Hpos _ Hq).
  - exfalso. by apply (F64_not_fired_same st _ eq_refl).
Qed.

Lemma trigger_records_and_resets_witness :
  Forall (λ tk : F64.Tick, F64.is_price tk.2 = true) F64.qqq_cool
  ∧ ∃ st',
      F64.stop_step F64.py_round 0.5 F64.qqq_cool F64.tqqq_cool F64.cool_start 1
      = Ok st'
      ∧ F64.fired F64.cool_start st'
      ∧ F64.hwm st' = 99.5%float ∧ F64.t_hwm st' = 98.5%float
      ∧ F64.last_trigger_ms st' = 100000
      ∧ F64.drawdown (F64.hwm st') 99.5 = Ok 0%float.
Proof.
  assert (Hpos : Forall (λ tk : F64.Tick, F64.is_price tk.2 = true) F64.qqq_cool)
    by (repeat constructor).
  split; [done|].
  destruct (F64.stop_step F64.py_round 0.5 F64.qqq_cool F64.tqqq_cool
              F64.cool_start 1) as [st'|e] eqn:Hstep;
    [|by vm_compute in Hstep].
  assert (Hfired : F64.fired F64.cool_start st').
  { vm_compute in Hstep. injection Hstep as <-. by eexists. }
  exists st'. split; [done|]. split; [done|].
  destruct (trigger_records_and_resets F64.py_round 0.5 F64.qqq_cool F64.tqqq_cool
              F64.cool_start st' 1 Hpos Hstep Hfired)
    as (q_ms & q_p & t_cur & h & th & q_drop & t_drop & r & Hq & Ht & _ & _ & _ & _
        & _ & Hh & Hth & Hlast & Hd).
  vm_compute in Hq. injection Hq as <- <-.
  vm_compute in Ht. injection Ht as <-.
  done.
Defined.

(** The recorded figures are those of the float computation: for a
    reference drop of 401 to 400 against a long series dropping 400 to 399
    the ratio computes to 1.0025000000000002 and is recorded as 1.003. *)
Example stop_trigger_recorded_ratio :
  ∃ st,
    F64.stop_trigger F64.py_round 0.2
      [(0, 401%float); (100000, 400%float)] [(0, 400%float); (100000, 399%float)]
    = Ok st
    ∧ F64.trigger_events st
      = [ {| F64.qqq_drop := 0.2494; F64.tqqq_drop := 0.25; F64.ratio := 1.003;
             F64.tick_gap_ms := 0 |} ].
Proof. eexists. split; [by vm_compute|]. done. Qed.

(** ** The move/lag detector *)

(** After the loop each ladder offset is a key of both dicts, bound to the
    computed response of its series at that offset. *)
Lemma F64_fill_responses_other tqqq sqqq q0_ms t0_p s0_p offsets :
  ∀ (t_responses s_responses t_responses' s_responses' : gmap Z float) (o : Z),
    F64.fill_responses tqqq sqqq q0_ms t0_p s0_p offsets t_responses s_responses
    = Ok (t_responses', s_responses') →
    o ∉ offsets →
    t_responses' !! o = t_responses !! o ∧ s_responses' !! o = s_responses !! o.
Proof.
  induction offsets as [|offset rest IH]; intros tr sr tr' sr' o H Hnotin.
  - simpl in H. by injection H as <- <-.
  - simpl in H.
    bind_inv H. bind_inv H. bind_inv H. bind_inv H.
    apply not_elem_of_cons in Hnotin as [Hne Hnotin].
    destruct (IH _ _ _ _ o H Hnotin) as [Ht Hs].
    rewrite lookup_insert_ne in Ht by done.
    rewrite lookup_insert_ne in Hs by done. done.
Qed.

Lemma F64_fill_responses_lookup tqqq sqqq q0_ms t0_p s0_p offsets :
  ∀ (t_responses s_responses t_responses' s_responses' : gmap Z float) (o : Z),
    F64.fill_responses tqqq sqqq q0_ms t0_p s0_p offsets t_responses s_responses
    = Ok (t_responses', s_responses') →
    o ∈ offsets →
    (∃ chk v, F64.price_at_time tqqq (q0_ms + move_window_ms + o) = Ok chk
              ∧ F64.pct_change t0_p chk.2 = Ok v ∧ t_responses' !! o = Some v)
    ∧ (∃ chk v, F64.price_at_time sqqq (q0_ms + move_window_ms + o) = Ok chk
                ∧ F64.pct_change s0_p chk.2 = Ok v ∧ s_responses' !! o = Some v).
Proof.
  induction offsets as [|offset rest IH]; intros tr sr tr' sr' o H Hin.
  - by apply elem_of_nil in Hin.
  - simpl in H.
    bind_inv H. rename a into t_check, Ha into Ht_check.
    bind_inv H. rename a into s_check, Ha into Hs_check.
    bind_inv H. rename a into t_actual, Ha into Ht_actual.
    bind_inv H. rename a into s_actual, Ha into Hs_actual.
    destruct (decide (o ∈ rest)) as [Hrest|Hnrest].
    + by apply (IH _ _ _ _ o H).
    + apply elem_of_cons in Hin as [->|?]; [|done].
      destruct (F64_fill_responses_other _ _ _ _ _ _ _ _ _ _ offset H Hnrest)
        as [Ht Hs].
      rewrite lookup_insert_eq in Ht. rewrite lookup_insert_eq in Hs.
      split; [by exists t_check, t_actual | by exists s_check, s_actual].
Qed.

(** The scan of the detector is the first-reaching search of any ratio
    function that agrees with the dict on the ladder. *)
Lemma F64_catchup_scan_refines (t_responses : gmap Z float) (expected : float)
    (ratio_at : Z → result float) (offsets : list Z) :
  (∀ o, o ∈ offsets →
     ∃ v, t_responses !! o = Some v
          ∧ ratio_at o = F64.pct_of_expected v expected) →
  F64.catchup_scan t_responses expected offsets
  = F64.first_reaching ratio_at offsets.
Proof.
  induction offsets as [|offset rest IH]; intros Hall; [done|].
  simpl. destruct (Hall offset) as (v & Hv & ->); [by left|].
  unfold F64.dict_get. rewrite Hv. simpl.
  destruct (F64.pct_of_expected v expected) as [r|e]; [|done]. simpl.
  destruct (90 <=? r)%float; [done|].
  apply IH. intros o Ho. apply Hall. by right.
Qed.

Lemma F64_first_reaching_spec (ratio_at : Z → result float) (offsets : list Z)
    (r : Z) :
  F64.first_reaching ratio_at offsets = Ok r →
  (∃ pre post ρ,
     offsets = pre ++ r :: post ∧ ratio_at r = Ok ρ ∧ (90 <=? ρ)%float = true
     ∧ ∀ o, o ∈ pre → ∃ ρ', ratio_at o = Ok ρ' ∧ (90 <=? ρ')%float = false)
  ∨ (r = -1
     ∧ ∀ o, o ∈ offsets → ∃ ρ', ratio_at o = Ok ρ' ∧ (90 <=? ρ')%float = false).
Proof.
  revert r. induction offsets as [|offset rest IH]; intros r H.
  - simpl in H. injection H as <-. right. split; [done|].
    intros o Ho. by apply elem_of_nil in Ho.
  - simpl in H. bind_inv H. rename a into ρ0.
    destruct (90 <=? ρ0)%float eqn:Hreach.
    + injection H as <-. left. exists [], rest, ρ0.
      split; [done|]. split; [done|]. split; [done|].
      intros o Ho. by apply elem_of_nil in Ho.
    + destruct (IH r H) as [(pre & post & ρ & -> & Hρ & Hge & Hpre) | [-> Hall]].
      * left. exists (offset :: pre), post, ρ.
        split; [done|]. split; [done|]. split; [done|].
        intros o Ho. apply elem_of_cons in Ho as [->|Ho]; [by exists ρ0 | by apply Hpre].
      * right. split; [done|].
        intros o Ho. apply elem_of_cons in Ho as [->|Ho]; [by exists ρ0 | by apply Hall].
Qed.

Section detector_f64.

Variable round : float → Z → float.

(** What holds of the intermediate values when [detect_move] appends an
    event. *)
Lemma F64_detect_move_inv (qqq tqqq sqqq : list F64.Tick) (i : nat)
    (ev : F64.MoveEvent) :
  F64.detect_move round qqq tqqq sqqq i = Ok (Some ev) →
  ∃ q0_ms q0_p q1_ms q1_p q_pct t0_ms t0_p s0_ms s0_p t_responses s_responses
    t_at_end s_at_end t_achieved s_achieved t_catchup,
    F64.tick_at qqq i = Ok (q0_ms, q0_p)
    ∧ F64.price_at_time qqq (q0_ms + move_window_ms) = Ok (q1_ms, q1_p)
    ∧ 5000 ≤ q1_ms - q0_ms ≤ 15000
    ∧ F64.pct_change q0_p q1_p = Ok q_pct
    ∧ (PrimFloat.abs q_pct <? F64.move_threshold_pct)%float = false
    ∧ F64.price_at_time tqqq q0_ms = Ok (t0_ms, t0_p)
    ∧ F64.price_at_time sqqq q0_ms = Ok (s0_ms, s0_p)
    ∧ F64.fill_responses tqqq sqqq q0_ms t0_p s0_p watch_steps ∅ ∅
      = Ok (t_responses, s_responses)
    ∧ F64.dict_get t_responses 0 = Ok t_at_end
    ∧ F64.dict_get s_responses 0 = Ok s_at_end
    ∧ F64.pct_of_expected t_at_end (q_pct * 3)%float = Ok t_achieved
    ∧ F64.pct_of_expected s_at_end (q_pct * -3)%float = Ok s_achieved
    ∧ F64.catchup_scan t_responses (q_pct * 3)%float watch_steps = Ok t_catchup
    ∧ ev = {| F64.direction := if (0 <? q_pct)%float then UP else DOWN;
              F64.qqq_move_pct := round q_pct 4;
              F64.expected_tqqq := round (q_pct * 3)%float 4;
              F64.tqqq_at_end := round t_at_end 4;
              F64.t_achieved_pct := round t_achieved 1;
              F64.t_catchup_ms := t_catchup;
              F64.expected_sqqq := round (q_pct * -3)%float 4;
              F64.sqqq_at_end := round s_at_end 4;
              F64.s_achieved_pct := round s_achieved 1 |}.
Proof.
  unfold F64.detect_move. intros H.
  bind_inv H. destruct a as [q0_ms q0_p].
  bind_inv H. destruct a as [q1_ms q1_p].
  destruct (decide (q1_ms - q0_ms < 5000 ∨ q1_ms - q0_ms > 15000)) as [|Hgap];
    [done|].
  bind_inv H. rename a into q_pct.
  destruct (PrimFloat.abs q_pct <? F64.move_threshold_pct)%float eqn:Hmove; [done|].
  bind_inv H. destruct a as [t0_ms t0_p].
  bind_inv H. destruct a as [s0_ms s0_p].
  bind_inv H. destruct a as [t_responses s_responses].
  bind_inv H. rename a into t_at_end.
  bind_inv H. rename a into s_at_end.
  bind_inv H. rename a into t_achieved.
  bind_inv H. rename a into s_achieved.
  bind_inv H. rename a into t_catchup.
  injection H as <-.
  exists q0_ms, q0_p, q1_ms, q1_p, q_pct, t0_ms, t0_p, s0_ms, s0_p,
    t_responses, s_responses, t_at_end, s_at_end, t_achieved, s_achieved, t_catchup.
  repeat (split; [first [done | lia] |]). done.
Qed.

(** For an accepted detection the quantities of the record are the
    reference notions: the reference move, the responses of both series at
    offset 0, their computed ratios at offset 0, and the first ladder offset
    at which the long series' computed ratio reaches 90. *)
Lemma F64_detect_move_spec (qqq tqqq sqqq : list F64.Tick) (i : nat)
    (ev : F64.MoveEvent) :
  F64.detect_move round qqq tqqq sqqq i = Ok (Some ev) →
  ∃ q_pct rt rs ρt ρs,
    F64.reference_move qqq i = Ok q_pct
    ∧ (PrimFloat.abs q_pct <? F64.move_threshold_pct)%float = false
    ∧ F64.response_at qqq tqqq i 0 = Ok rt
    ∧ F64.response_at qqq sqqq i 0 = Ok rs
    ∧ F64.ratio_at qqq tqqq 3 i 0 = Ok ρt
    ∧ F64.ratio_at qqq sqqq (-3) i 0 = Ok ρs
    ∧ F64.catchup_offset_ms qqq tqqq 3 i = Ok (F64.t_catchup_ms ev)
    ∧ ev = {| F64.direction := if (0 <? q_pct)%float then UP else DOWN;
              F64.qqq_move_pct := round q_pct 4;
              F64.expected_tqqq := round (q_pct * 3)%float 4;
              F64.tqqq_at_end := round rt 4;
              F64.t_achieved_pct := round ρt 1;
              F64.t_catchup_ms := F64.t_catchup_ms ev;
              F64.expected_sqqq := round (q_pct * -3)%float 4;
              F64.sqqq_at_end := round rs 4;
              F64.s_achieved_pct := round ρs 1 |}.
Proof.
  intros H. apply F64_detect_move_inv in H
    as (q0_ms & q0_p & q1_ms & q1_p & q_pct & t0_ms & t0_p & s0_ms & s0_p
        & t_responses & s_responses & t_at_end & s_at_end & t_achieved & s_achieved
        & t_catchup & Hq0 & Hq1 & Hgap & Hqpct & Hmove & Ht0 & Hs0 & Hfill
        & Htend & Hsend & Htach & Hsach & Hscan & ->).
  cbn [F64.t_catchup_ms].
  assert (Href : F64.reference_move qqq i = Ok q_pct).
  { unfold F64.reference_move. rewrite Hq0. simpl. rewrite Hq1. simpl. done. }
  assert (Hresp : ∀ o, o ∈ watch_steps →
            (∃ v, F64.response_at qqq tqqq i o = Ok v ∧ t_responses !! o = Some v)
            ∧ (∃ v, F64.response_at qqq sqqq i o = Ok v ∧ s_responses !! o = Some v)).
  { intros o Ho.
    destruct (F64_fill_responses_lookup _ _ _ _ _ _ _ _ _ _ o Hfill Ho)
      as [(tc & tv & Htc & Htv & Htl) (sc & sv & Hsc & Hsv & Hsl)].
    unfold F64.response_at. rewrite Hq0. simpl. rewrite Ht0, Hs0. simpl.
    rewrite Htc, Hsc. simpl. split; [by exists tv | by exists sv]. }
  destruct (Hresp 0 ltac:(by left)) as [(rt & Hrt & Hrtl) (rs & Hrs & Hrsl)].
  unfold F64.dict_get in Htend, Hsend. rewrite Hrtl in Htend. rewrite Hrsl in Hsend.
  injection Htend as ->. injection Hsend as ->.
  exists q_pct, t_at_end, s_at_end, t_achieved, s_achieved.
  split; [done|]. split; [done|]. split; [done|]. split; [done|].
  split. { unfold F64.ratio_at. rewrite Href, Hrt. done. }
  split. { unfold F64.ratio_at. rewrite Href, Hrs. done. }
  split; [|done].
  unfold F64.catchup_offset_ms. rewrite <- Hscan. symmetry.
  apply F64_catchup_scan_refines. intros o Ho.
  destruct (Hresp o Ho) as [(v & Hv & Hvl) _].
  exists v. split; [done|].
  unfold F64.ratio_at. rewrite Href, Hv. done.
Qed.

End detector_f64.

(** The record says nothing of the inverse series' catch-up: computed in
    binary64 as well, an inverse series that never reaches 90% within the
    ladder and one that reaches it at offset 5000 give the same record. *)
Example inverse_catchup_not_in_record :
  F64.catchup_offset_ms F64.qqq_up F64.sqqq_stuck (-3) 0 = Ok (-1)
  ∧ F64.catchup_offset_ms F64.qqq_up F64.sqqq_late (-3) 0 = Ok 5000
  ∧ F64.detect_move F64.py_round F64.qqq_up F64.tqqq_lag F64.sqqq_stuck 0
    = F64.detect_move F64.py_round F64.qqq_up F64.tqqq_lag F64.sqqq_late 0.
Proof. by vm_compute. Qed.

(** C4, as stated, fails.  A reference move of 150 to 152
    against a long series moving 250 to 259 is a response of 3.6% where 4%
    is expected: in real arithmetic on these very prices the ratio at offset
    0 is 90, at least 90, yet the program computes 89.99999999999999, finds
    no ladder offset and records the sentinel. *)
Lemma exact_ninety_not_caught_up :
  (∃ ρ, spec_ratio_at (F64.exact_ticks F64.qqq_ninety)
          (F64.exact_ticks F64.tqqq_ninety) 3 0 0 = Ok ρ
        ∧ (ρ == 90)%Q)
  ∧ F64.exact_ticks F64.qqq_ninety = [(0, 150%Q); (10000, 152%Q)]
  ∧ F64.exact_ticks F64.tqqq_ninety = [(0, 250%Q); (10000, 259%Q)]
  ∧ F64.ratio_at F64.qqq_ninety F64.tqqq_ninety 3 0 0 = Ok 89.99999999999999%float
  ∧ ∃ ev,
      F64.detect_move F64.py_round F64.qqq_ninety F64.tqqq_ninety F64.sqqq_ninety 0
      = Ok (Some ev)
      ∧ F64.t_catchup_ms ev = -1.
Proof.
  split.
  { destruct (spec_ratio_at (F64.exact_ticks F64.qqq_ninety)
                (F64.exact_ticks F64.tqqq_ninety) 3 0 0) as [ρ|e] eqn:Hρ;
      [|by vm_compute in Hρ].
    exists ρ. split; [done|]. vm_compute in Hρ. injection Hρ as <-. reflexivity. }
  split; [by vm_compute|]. split; [by vm_compute|]. split; [by vm_compute|].
  destruct (F64.detect_move F64.py_round F64.qqq_ninety F64.tqqq_ninety
              F64.sqqq_ninety 0) as [[ev|]|e] eqn:Hdet;
    [|by vm_compute in Hdet|by vm_compute in Hdet].
  exists ev. split; [done|]. vm_compute in Hdet. by injection Hdet as <-.
Qed.

(** C4, amended.  For every accepted detection, [t_catchup_ms] is the first
    offset of the ascending ladder 0, 1s, 2s, 5s, 10s, 20s, 30s at which the
    ratio the program computes in binary64 for the long series (response
    divided by expected move, times 100, each operation rounded; 100 when
    the expected move equals zero) compares [>= 90]; when no ladder offset
    qualifies it is [-1], which is no ladder offset. *)
Theorem catchup_first_ladder_offset (round : float → Z → float)
    (qqq tqqq sqqq : list F64.Tick) (i : nat) (ev : F64.MoveEvent) :
  F64.detect_move round qqq tqqq sqqq i = Ok (Some ev) →
  let ratio_at := F64.ratio_at qqq tqqq 3 i in
  watch_steps = [0; 1000; 2000; 5000; 10000; 20000; 30000]
  ∧ ((∃ pre post ρ,
        watch_steps = pre ++ F64.t_catchup_ms ev :: post
        ∧ ratio_at (F64.t_catchup_ms ev) = Ok ρ ∧ (90 <=? ρ)%float = true
        ∧ ∀ o, o ∈ pre → ∃ ρ', ratio_at o = Ok ρ' ∧ (90 <=? ρ')%float = false)
     ∨ (F64.t_catchup_ms ev = -1
        ∧ ¬ (-1) ∈ watch_steps
        ∧ ∀ o, o ∈ watch_steps →
            ∃ ρ', ratio_at o = Ok ρ' ∧ (90 <=? ρ')%float = false)).
Proof.
  intros H ratio_at. split; [done|].
  apply F64_detect_move_spec in H
    as (q_pct & rt & rs & ρt & ρs & _ & _ & _ & _ & _ & _ & Hcatch & _).
  destruct (F64_first_reaching_spec _ _ _ Hcatch) as [Hfirst | [Hnone Hall]].
  - by left.
  - right. split; [done|]. split; [|done].
    unfold watch_steps. rewrite !not_elem_of_cons. repeat split; try lia.
    apply not_elem_of_nil.
Qed.

Lemma catchup_first_ladder_offset_witness :
  ∃ ev,
    F64.detect_move F64.py_round F64.qqq_up F64.tqqq_lag F64.sqqq_late 0
    = Ok (Some ev)
    ∧ F64.t_catchup_ms ev = 5000
    ∧ F64.ratio_at F64.qqq_up F64.tqqq_lag 3 0 0 = Ok 50%float
    ∧ let ratio_at := F64.ratio_at F64.qqq_up F64.tqqq_lag 3 0 in
      watch_steps = [0; 1000; 2000; 5000; 10000; 20000; 30000]
      ∧ ((∃ pre post ρ,
            watch_steps = pre ++ F64.t_catchup_ms ev :: post
            ∧ ratio_at (F64.t_catchup_ms ev) = Ok ρ ∧ (90 <=? ρ)%float = true
            ∧ ∀ o, o ∈ pre → ∃ ρ', ratio_at o = Ok ρ' ∧ (90 <=? ρ')%float = false)
         ∨ (F64.t_catchup_ms ev = -1
            ∧ ¬ (-1) ∈ watch_steps
            ∧ ∀ o, o ∈ watch_steps →
                ∃ ρ', ratio_at o = Ok ρ' ∧ (90 <=? ρ')%float = false)).
Proof.
  destruct (F64.detect_move F64.py_round F64.qqq_up F64.tqqq_lag F64.sqqq_late 0)
    as [[ev|]|e] eqn:Hdet; [|by vm_compute in Hdet|by vm_compute in Hdet].
  exists ev. split; [done|].
  split. { vm_compute in Hdet. by injection Hdet as <-. }
  split; [by vm_compute|].
  by apply (catchup_first_ladder_offset F64.py_round F64.qqq_up F64.tqqq_lag
              F64.sqqq_late 0 ev).
Defined.

(** C7, amended.  Every accepted detection emits a record holding the
    catch-up offset of the 3x long series only (the first ladder offset at
    which its computed ratio compares [>= 90], else [-1]).  Of the inverse
    series it holds the expected move, the response at offset 0 and the
    achieved percentage at offset 0, rounded by [round] like those of the
    long series. *)
Theorem move_event_records_long_catchup (round : float → Z → float)
    (qqq tqqq sqqq : list F64.Tick) (i : nat) (ev : F64.MoveEvent) :
  F64.detect_move round qqq tqqq sqqq i = Ok (Some ev) →
  F64.catchup_offset_ms qqq tqqq 3 i = Ok (F64.t_catchup_ms ev)
  ∧ ∃ q_pct rt rs ρt ρs,
      F64.reference_move qqq i = Ok q_pct
      ∧ F64.response_at qqq tqqq i 0 = Ok rt
      ∧ F64.response_at qqq sqqq i 0 = Ok rs
      ∧ F64.ratio_at qqq tqqq 3 i 0 = Ok ρt
      ∧ F64.ratio_at qqq sqqq (-3) i 0 = Ok ρs
      ∧ F64.expected_tqqq ev = round (q_pct * 3)%float 4
      ∧ F64.tqqq_at_end ev = round rt 4
      ∧ F64.t_achieved_pct ev = round ρt 1
      ∧ F64.expected_sqqq ev = round (q_pct * -3)%float 4
      ∧ F64.sqqq_at_end ev = round rs 4
      ∧ F64.s_achieved_pct ev = round ρs 1.
Proof.
  intros H. apply F64_detect_move_spec in H
    as (q_pct & rt & rs & ρt & ρs & Href & _ & Hrt & Hrs & Hρt & Hρs & Hcatch & Hev).
  split; [done|]. exists q_pct, rt, rs, ρt, ρs.
  repeat (split; [done|]). by rewrite Hev.
Qed.

Lemma move_event_records_long_catchup_witness :
  ∃ ev,
    F64.detect_move F64.py_round F64.qqq_up F64.tqqq_lag F64.sqqq_late 0
    = Ok (Some ev)
    ∧ F64.catchup_offset_ms F64.qqq_up F64.tqqq_lag 3 0 = Ok 5000
    ∧ F64.catchup_offset_ms F64.qqq_up F64.tqqq_lag 3 0 = Ok (F64.t_catchup_ms ev)
    ∧ F64.expected_sqqq ev = (-3)%float
    ∧ F64.sqqq_at_end ev = (-1.5)%float
    ∧ F64.s_achieved_pct ev = 50%float.
Proof.
  destruct (F64.detect_move F64.py_round F64.qqq_up F64.tqqq_lag F64.sqqq_late 0)
    as [[ev|]|e] eqn:Hdet; [|by vm_compute in Hdet|by vm_compute in Hdet].
  exists ev. split; [done|]. split; [by vm_compute|].
  split.
  { by apply (move_event_records_long_catchup F64.py_round F64.qqq_up F64.tqqq_lag
                F64.sqqq_late 0 ev). }
  vm_compute in Hdet. by injection Hdet as <-.
Defined.

(** X7. A detection records an event exactly when the nearest reference
    tick ten seconds on lies 5 to 15 seconds away and the computed move does
    not compare below the threshold 0.03; the direction is UP exactly when
    the computed move compares above zero, and the recorded move and
    expectations are the computed move, three times it and minus three
    times it, rounded by [round] to four decimals. *)
Theorem detect_move_accepts (round : float → Z → float)
    (qqq tqqq sqqq : list F64.Tick) (i : nat) (r : option F64.MoveEvent) :
  F64.detect_move round qqq tqqq sqqq i = Ok r →
  ∃ q0_ms q0_p q1_ms q1_p,
    F64.tick_at qqq i = Ok (q0_ms, q0_p)
    ∧ F64.price_at_time qqq (q0_ms + 10000) = Ok (q1_ms, q1_p)
    ∧ match r with
      | Some ev =>
          5000 ≤ q1_ms - q0_ms ≤ 15000
          ∧ ∃ q_pct,
              F64.pct_change q0_p q1_p = Ok q_pct
              ∧ (PrimFloat.abs q_pct <? 0.03)%float = false
              ∧ (F64.direction ev = UP ↔ (0 <? q_pct)%float = true)
              ∧ F64.qqq_move_pct ev = round q_pct 4
              ∧ F64.expected_tqqq ev = round (q_pct * 3)%float 4
              ∧ F64.expected_sqqq ev = round (q_pct * -3)%float 4
      | None =>
          q1_ms - q0_ms < 5000 ∨ 15000 < q1_ms - q0_ms
          ∨ ∃ q_pct,
              F64.pct_change q0_p q1_p = Ok q_pct
              ∧ (PrimFloat.abs q_pct <? 0.03)%float = true
      end.
Proof.
  destruct r as [ev|]; intros H.
  - apply F64_detect_move_inv in H
      as (q0_ms & q0_p & q1_ms & q1_p & q_pct & t0_ms & t0_p & s0_ms & s0_p
          & t_responses & s_responses & t_at_end & s_at_end & t_achieved & s_achieved
          & t_catchup & Hq0 & Hq1 & Hgap & Hqpct & Hmove & _ & _ & _
          & _ & _ & _ & _ & _ & ->).
    exists q0_ms, q0_p, q1_ms, q1_p. repeat (split; [done|]).
    exists q_pct. repeat (split; [done|]). cbn [F64.direction].
    split; [|done]. by destruct (0 <? q_pct)%float.
  - unfold F64.detect_move in H.
    bind_inv H. destruct a as [q0_ms q0_p].
    bind_inv H. destruct a as [q1_ms q1_p].
    exists q0_ms, q0_p, q1_ms, q1_p. repeat (split; [done|]).
    destruct (decide (q1_ms - q0_ms < 5000 ∨ q1_ms - q0_ms > 15000)) as [Hgap|Hgap];
      [lia|].
    right. right.
    bind_inv H. rename a into q_pct. exists q_pct. split; [done|].
    destruct (PrimFloat.abs q_pct <? F64.move_threshold_pct)%float eqn:Hmove; [done|].
    bind_inv H. destruct a as [t0_ms t0_p].
    bind_inv H. destruct a as [s0_ms s0_p].
    bind_inv H. destruct a as [t_responses s_responses].
    repeat bind_inv H. done.
Qed.

Lemma detect_move_accepts_witness :
  ∃ ev,
    F64.detect_move F64.py_round F64.qqq_up F64.tqqq_lag F64.sqqq_late 0
    = Ok (Some ev)
    ∧ F64.direction ev = UP
    ∧ F64.qqq_move_pct ev = 1%float
    ∧ ∃ q_pct,
        F64.pct_change 100 101 = Ok q_pct
        ∧ (PrimFloat.abs q_pct <? 0.03)%float = false
        ∧ (F64.direction ev = UP ↔ (0 <? q_pct)%float = true).
Proof.
  destruct (F64.detect_move F64.py_round F64.qqq_up F64.tqqq_lag F64.sqqq_late 0)
    as [[ev|]|e] eqn:Hdet; [|by vm_compute in Hdet|by vm_compute in Hdet].
  exists ev. split; [done|].
  destruct (detect_move_accepts F64.py_round F64.qqq_up F64.tqqq_lag F64.sqqq_late
              0 (Some ev) Hdet)
    as (q0_ms & q0_p & q1_ms & q1_p & Hq0 & Hq1 & _ & q_pct & Hpct & Hthr & Hdir & _).
  vm_compute in Hq0. injection Hq0 as <- <-.
  vm_compute in Hq1. injection Hq1 as <- <-.
  vm_compute in Hdet. injection Hdet as <-.
  split; [done|]. split; [done|]. by exists q_pct.
Defined.

(** A move the reals put below the threshold can still be recorded, and
    the recorded figure is the rounding of the computed one: the move of 640
    to 663 is 3.59375% and computes to 3.5937499999999996, recorded as
    3.5937. *)
Example detect_move_computed_move :
  F64.pct_change 640 663 = Ok 3.5937499999999996%float
  ∧ F64.py_round 3.5937499999999996 4 = 3.5937%float
  ∧ F64.py_round 3.59375 4 = 3.5938%float.
Proof. by vm_compute. Qed.

(** The threshold is the double nearest 0.03: a move that computes to
    exactly that double is recorded. *)
Example detect_move_at_threshold :
  F64.pct_change 101.04872926807693 101.07904388685735 = Ok F64.move_threshold_pct
  ∧ (PrimFloat.abs F64.move_threshold_pct <? F64.move_threshold_pct)%float = false
  ∧ ∃ ev,
      F64.detect_move F64.py_round
        [(0, 101.04872926807693%float); (10000, 101.07904388685735%float)]
        [(0, 100%float); (10000, 100.09%float)]
        [(0, 100%float); (10000, 99.91%float)] 0
      = Ok (Some ev)
      ∧ F64.qqq_move_pct ev = 0.03%float.
Proof.
  split; [by vm_compute|]. split; [by vm_compute|].
  eexists. split; [by vm_compute|]. done.
Qed.

Lemma F64_first_reaching_cons (ratio_at : Z → result float) (offset : Z)
    (rest : list Z) :
  F64.first_reaching ratio_at (offset :: rest)
  = ratio_at offset ≫= λ r,
      if (90 <=? r)%float then Ok offset else F64.first_reaching ratio_at rest.
Proof. done. Qed.

(** X8. The recorded catch-up offset is -1 or a ladder offset, and it is 0
    exactly when the ratio the program computes for the long series at
    offset 0, whose rounding is the recorded achieved percentage, compares
    [>= 90]. *)
Theorem catchup_immediate_iff (round : float → Z → float)
    (qqq tqqq sqqq : list F64.Tick) (i : nat) (ev : F64.MoveEvent) :
  F64.detect_move round qqq tqqq sqqq i = Ok (Some ev) →
  ∃ ρ,
    F64.ratio_at qqq tqqq 3 i 0 = Ok ρ
    ∧ F64.t_achieved_pct ev = round ρ 1
    ∧ (F64.t_catchup_ms ev = 0 ↔ (90 <=? ρ)%float = true)
    ∧ (F64.t_catchup_ms ev = -1 ∨ F64.t_catchup_ms ev ∈ watch_steps).
Proof.
  intros H. apply F64_detect_move_spec in H
    as (q_pct & rt & rs & ρ & ρs & _ & _ & _ & _ & Hρ & _ & Hscan & Hev).
  exists ρ. split; [done|]. split; [by rewrite Hev|].
  unfold F64.catchup_offset_ms in Hscan. split.
  - change watch_steps with (0 :: [1000; 2000; 5000; 10000; 20000; 30000]) in Hscan.
    rewrite F64_first_reaching_cons in Hscan.
    rewrite Hρ in Hscan. cbn [mbind result_bind] in Hscan.
    destruct (90 <=? ρ)%float.
    + injection Hscan as <-. done.
    + split; [|done]. intros Hzero.
      apply F64_first_reaching_spec in Hscan
        as [(pre & post & ρ' & Heq & _) | [Hm1 _]].
      * assert (F64.t_catchup_ms ev ∈ [1000; 2000; 5000; 10000; 20000; 30000])
          as Hin.
        { rewrite Heq. apply elem_of_app. right. by left. }
        rewrite Hzero in Hin. rewrite !elem_of_cons in Hin.
        rewrite elem_of_nil in Hin. lia.
      * lia.
  - apply F64_first_reaching_spec in Hscan
      as [(pre & post & ρ' & Heq & _) | [Hm1 _]]; [right | by left].
    rewrite Heq. apply elem_of_app. right. by left.
Qed.

Lemma catchup_immediate_iff_witness :
  ∃ ev,
    F64.detect_move F64.py_round F64.qqq_up [(0, 100%float); (10000, 103%float)]
      F64.sqqq_late 0 = Ok (Some ev)
    ∧ F64.t_catchup_ms ev = 0
    ∧ F64.t_achieved_pct ev = 100%float
    ∧ ∃ ρ, F64.ratio_at F64.qqq_up [(0, 100%float); (10000, 103%float)] 3 0 0 = Ok ρ
           ∧ (F64.t_catchup_ms ev = 0 ↔ (90 <=? ρ)%float = true).
Proof.
  destruct (F64.detect_move F64.py_round F64.qqq_up
              [(0, 100%float); (10000, 103%float)] F64.sqqq_late 0)
    as [[ev|]|e] eqn:Hdet; [|by vm_compute in Hdet|by vm_compute in Hdet].
  exists ev. split; [done|].
  destruct (catchup_immediate_iff F64.py_round _ _ _ _ _ Hdet)
    as (ρ & Hρ & _ & Hiff & _).
  vm_compute in Hdet. injection Hdet as <-.
  split; [done|]. split; [done|]. by exists ρ.
Defined.

(** ** percentile *)

(** [int] of a finite float that is not negative is the floor of its
    value. *)
Lemma F64_int_of_float_floor (x : float) (q : Q) :
  F64.exact x = Some q → (0 <= q)%Q → F64.int_of_float x = Ok (Qfloor q).
Proof.
  unfold F64.int_of_float, F64.exact.
  destruct (Prim2SF x) as [s|s| |s m e]; intros Hq Hpos; try done.
  - injection Hq as <-. done.
  - simpl. injection Hq as <-. f_equal. by apply py_int_floor.
Qed.

(** On a non-empty list, whenever [int] returns, the clamped index is in
    range and [percentile] returns its element; whatever [int] raises,
    [percentile] raises. *)
Lemma F64_percentile_at (sorted_list : list float) (pct : float) :
  sorted_list ≠ [] →
  let len := Z.of_nat (length sorted_list) in
  match F64.int_of_float (F64.float_of_nat (length sorted_list) * pct / 100)%float with
  | Ok idx =>
      let k := Z.max 0 (Z.min idx (len - 1)) in
      0 ≤ k ≤ len - 1
      ∧ ∃ x, sorted_list !! Z.to_nat k = Some x
             ∧ F64.percentile sorted_list pct = Ok x
  | Raise e => F64.percentile sorted_list pct = Raise e
  end.
Proof.
  intros Hne len.
  assert (0 < len) as Hlen by (destruct sorted_list; [done | unfold len; simpl; lia]).
  assert (Hunfold : F64.percentile sorted_list pct
            = F64.int_of_float
                (F64.float_of_nat (length sorted_list) * pct / 100)%float
              ≫= λ idx,
                match sorted_list !! Z.to_nat (Z.max 0 (Z.min idx (len - 1))) with
                | Some x => Ok x
                | None => Raise IndexError
                end).
  { by destruct sorted_list. }
  rewrite Hunfold.
  destruct (F64.int_of_float _) as [idx|e]; [|done].
  cbn [mbind result_bind]. cbv zeta.
  set (k := Z.max 0 (Z.min idx (len - 1))).
  assert (0 ≤ k ≤ len - 1) as Hk by (unfold k; lia).
  split; [done|].
  destruct (lookup_lt_is_Some_2 sorted_list (Z.to_nat k)) as [x Hx].
  { unfold len in *. lia. }
  exists x. split; [done|]. by rewrite Hx.
Qed.

(** ** No overflow in the rank quotient *)

Lemma digits2_pos_size (p : positive) : digits2_pos p = Pos.size p.
Proof. induction p; simpl; congruence. Qed.

Lemma Zdigits2_nonneg (m : Z) : 0 ≤ Zdigits2 m.
Proof. destruct m; simpl; lia. Qed.

Lemma Zdigits2_gt (m : Z) : 0 ≤ m → m < 2 ^ Zdigits2 m.
Proof.
  destruct m as [|p|p]; intros Hm; [done| |lia].
  simpl Zdigits2. rewrite digits2_pos_size.
  pose proof (Pos.size_gt p) as H.
  apply Pos2Z.pos_lt_pos in H. by rewrite Pos2Z.inj_pow in H.
Qed.

Lemma Zdigits2_le (m : Z) : 0 < m → 2 ^ Zdigits2 m ≤ 2 * m.
Proof.
  destruct m as [|p|p]; intros Hm; [lia| |lia].
  simpl Zdigits2. rewrite digits2_pos_size.
  pose proof (Pos.size_le p) as H.
  apply Pos2Z.pos_le_pos in H. rewrite Pos2Z.inj_pow in H. lia.
Qed.

(** A number below [2 ^ k] has at most [k] digits. *)
Lemma Zdigits2_bound (m k : Z) : 0 ≤ m → 0 ≤ k → m < 2 ^ k → Zdigits2 m ≤ k.
Proof.
  intros Hm Hk Hlt.
  destruct (Z.eq_dec m 0) as [->|Hne]; [done|].
  pose proof (Zdigits2_le m ltac:(lia)) as Hle.
  pose proof (Zdigits2_nonneg m) as Hd.
  destruct (Z.le_gt_cases (Zdigits2 m) k) as [|Hgt]; [done|].
  assert (2 ^ (k + 1) ≤ 2 ^ Zdigits2 m) by (apply Z.pow_le_mono_r; lia).
  rewrite Z.pow_add_r in H by lia. lia.
Qed.

Lemma Zdigits2_mono (a b : Z) : 0 ≤ a ≤ b → Zdigits2 a ≤ Zdigits2 b.
Proof.
  intros [Ha Hab]. apply Zdigits2_bound; [done | apply Zdigits2_nonneg |].
  pose proof (Zdigits2_gt b ltac:(lia)). lia.
Qed.

Lemma Zdigits2_succ (m : Z) : 0 ≤ m → Zdigits2 (m + 1) ≤ Zdigits2 m + 1.
Proof.
  intros Hm. pose proof (Zdigits2_nonneg m).
  apply Zdigits2_bound; [lia | lia |].
  pose proof (Zdigits2_gt m Hm). rewrite Z.pow_add_r by lia. lia.
Qed.

Lemma Zdigits2_mul (a b : Z) :
  0 ≤ a → 0 ≤ b → Zdigits2 (a * b) ≤ Zdigits2 a + Zdigits2 b.
Proof.
  intros Ha Hb. pose proof (Zdigits2_nonneg a). pose proof (Zdigits2_nonneg b).
  apply Zdigits2_bound; [lia | lia |].
  pose proof (Zdigits2_gt a Ha). pose proof (Zdigits2_gt b Hb).
  rewrite Z.pow_add_r by lia. nia.
Qed.

Lemma Zdigits2_shift (m k : Z) :
  0 ≤ m → 0 ≤ k → Zdigits2 (m * 2 ^ k) ≤ Zdigits2 m + k.
Proof.
  intros Hm Hk. pose proof (Zdigits2_nonneg m).
  apply Zdigits2_bound; [nia | lia |].
  pose proof (Zdigits2_gt m Hm). rewrite Z.pow_add_r by lia.
  assert (0 < 2 ^ k) by (apply Z.pow_pos_nonneg; lia). nia.
Qed.

(** One step of the right shift halves the mantissa. *)
Lemma shr_1_m (mrs : shr_record) :
  0 ≤ shr_m mrs → 0 ≤ shr_m (shr_1 mrs) ∧ 2 * shr_m (shr_1 mrs) ≤ shr_m mrs.
Proof.
  destruct mrs as [m r s]. simpl. intros Hm.
  destruct m as [|[p|p|]|p]; simpl; lia.
Qed.

Lemma iter_shr_1_m (p : positive) :
  ∀ mrs, 0 ≤ shr_m mrs →
    0 ≤ shr_m (SpecFloat.iter_pos shr_1 p mrs)
    ∧ 2 ^ Z.pos p * shr_m (SpecFloat.iter_pos shr_1 p mrs) ≤ shr_m mrs.
Proof.
  induction p as [p IH|p IH|]; intros mrs Hm; simpl SpecFloat.iter_pos.
  - destruct (shr_1_m mrs Hm) as [H1 H1'].
    destruct (IH _ H1) as [H2 H2']. destruct (IH _ H2) as [H3 H3'].
    split; [done|].
    replace (Z.pos p~1) with (Z.pos p + Z.pos p + 1) by lia.
    rewrite !Z.pow_add_r by lia.
    assert (0 < 2 ^ Z.pos p) by (apply Z.pow_pos_nonneg; lia). nia.
  - destruct (IH _ Hm) as [H2 H2']. destruct (IH _ H2) as [H3 H3'].
    split; [done|].
    replace (Z.pos p~0) with (Z.pos p + Z.pos p) by lia.
    rewrite !Z.pow_add_r by lia.
    assert (0 < 2 ^ Z.pos p) by (apply Z.pow_pos_nonneg; lia). nia.
  - destruct (shr_1_m mrs Hm) as [H1 H1']. split; [done|].
    change (2 ^ 1) with 2. lia.
Qed.

Lemma shr_record_of_loc_m (m : Z) (l : location) :
  shr_m (shr_record_of_loc m l) = m.
Proof. by destruct l as [|[| |]]. Qed.

(** The exponent and the size of the mantissa after [shr_fexp]. *)
Lemma shr_fexp_spec (mx ex : Z) (lx : location) :
  0 ≤ mx →
  0 ≤ shr_m (shr_fexp prec emax mx ex lx).1
  ∧ Zdigits2 (shr_m (shr_fexp prec emax mx ex lx).1) ≤ 53
  ∧ (shr_fexp prec emax mx ex lx).2
    = Z.max ex (fexp prec emax (Zdigits2 mx + ex)).
Proof.
  intros Hm. unfold shr_fexp, shr.
  pose proof (Zdigits2_nonneg mx) as Hd.
  pose proof (Zdigits2_gt mx Hm) as Hlt.
  assert (Hf : fexp prec emax (Zdigits2 mx + ex)
               = Z.max (Zdigits2 mx + ex - 53) (-1074)) by done.
  destruct (fexp prec emax (Zdigits2 mx + ex) - ex) as [|p|p] eqn:Hn; simpl.
  - rewrite shr_record_of_loc_m. repeat split; lia.
  - pose proof (iter_shr_1_m p (shr_record_of_loc mx lx)) as Hit.
    rewrite shr_record_of_loc_m in Hit. destruct (Hit Hm) as [H0 Hle].
    split; [done|]. split; [|lia].
    apply Zdigits2_bound; [done | lia |].
    assert (0 < 2 ^ Z.pos p) by (apply Z.pow_pos_nonneg; lia).
    assert (2 ^ Zdigits2 mx ≤ 2 ^ (53 + Z.pos p)) by (apply Z.pow_le_mono_r; lia).
    rewrite Z.pow_add_r in H1 by lia. nia.
  - rewrite shr_record_of_loc_m. repeat split; lia.
Qed.

Lemma round_nearest_even_bounds (m : Z) (l : location) :
  m ≤ round_nearest_even m l ≤ m + 1.
Proof.
  destruct l as [|[| |]]; simpl; try lia. destruct (Z.even m); lia.
Qed.

(** Rounding a mantissa short of the overflow threshold gives a zero or a
    finite float, whose exponent is at most one above that of the input's
    format. *)
Lemma binary_round_aux_finite (sx : bool) (mx ex : Z) (lx : location) :
  0 ≤ mx →
  Z.max ex (fexp prec emax (Zdigits2 mx + ex)) + 1 ≤ 971 →
  binary_round_aux prec emax sx mx ex lx = S754_zero sx
  ∨ ∃ m e, binary_round_aux prec emax sx mx ex lx = S754_finite sx m e
           ∧ e ≤ Z.max ex (fexp prec emax (Zdigits2 mx + ex)) + 1.
Proof.
  intros Hm Hb. unfold binary_round_aux.
  destruct (shr_fexp_spec mx ex lx Hm) as (H0 & Hd & He).
  destruct (shr_fexp prec emax mx ex lx) as [mrs' e']. simpl in H0, Hd, He.
  set (m1 := round_nearest_even (shr_m mrs') (loc_of_shr_record mrs')).
  assert (0 ≤ m1 ∧ Zdigits2 m1 ≤ 54) as [Hm1 Hd1].
  { pose proof (round_nearest_even_bounds (shr_m mrs') (loc_of_shr_record mrs')).
    fold m1 in H. split; [lia|].
    pose proof (Zdigits2_mono m1 (shr_m mrs' + 1) ltac:(lia)).
    pose proof (Zdigits2_succ (shr_m mrs') H0). lia. }
  destruct (shr_fexp_spec m1 e' loc_Exact Hm1) as (H0' & _ & He').
  destruct (shr_fexp prec emax m1 e' loc_Exact) as [mrs'' e'']. simpl in H0', He'.
  assert (fexp prec emax (Zdigits2 m1 + e') = Z.max (Zdigits2 m1 + e' - 53) (-1074))
    as Hf1 by done.
  assert (fexp prec emax (Zdigits2 mx + ex) = Z.max (Zdigits2 mx + ex - 53) (-1074))
    as Hf by done.
  assert (e'' ≤ e' + 1) as Hle by lia.
  destruct (shr_m mrs'') as [|m|m]; [by left| |lia].
  right. exists m, e''.
  assert ((e'' <=? emax - prec) = true) as ->.
  { apply Z.leb_le. change (emax - prec) with 971. lia. }
  split; [done | lia].
Qed.

(** The mantissa of a float has at most 53 digits. *)
Lemma Prim2SF_digits (x : float) (s : bool) (m : positive) (e : Z) :
  Prim2SF x = S754_finite s m e → Zdigits2 (Z.pos m) ≤ 53.
Proof.
  intros Hx. pose proof (Prim2SF_valid x) as Hv. rewrite Hx in Hv.
  simpl in Hv. unfold bounded, canonical_mantissa in Hv.
  apply andb_true_iff in Hv as [Hc _]. apply Z.eqb_eq in Hc.
  change (fexp prec emax (Z.pos (digits2_pos m) + e))
    with (Z.max (Z.pos (digits2_pos m) + e - 53) (-1074)) in Hc.
  simpl Zdigits2. lia.
Qed.

Lemma Pos_iter_xO (m d : positive) : Z.pos (Pos.iter xO m d) = Z.pos m * 2 ^ Z.pos d.
Proof.
  induction d as [|d IH] using Pos.peano_ind.
  - simpl. lia.
  - rewrite Pos.iter_succ, Pos2Z.inj_xO, IH, Pos2Z.inj_succ, Z.pow_succ_r by lia.
    lia.
Qed.

(** The float of a list length is not negative and below [2 ^ 64]. *)
Lemma float_of_nat_bounded (n : nat) : F64.nonneg_below 11 (F64.float_of_nat n).
Proof.
  unfold F64.nonneg_below, F64.float_of_nat. rewrite of_uint63_spec.
  pose proof (Uint63.to_Z_bounded (Uint63.of_Z (Z.of_nat n))) as Hz.
  change Uint63.wB with (2 ^ 63) in Hz.
  change Uint63Axioms.to_Z with Uint63.to_Z.
  destruct (Uint63.to_Z (Uint63.of_Z (Z.of_nat n))) as [|m|m]; [done| |lia].
  simpl binary_normalize. unfold binary_round, shl_align.
  assert (Hd : Zdigits2 (Z.pos m) ≤ 63) by (apply Zdigits2_bound; lia).
  simpl Zdigits2 in Hd.
  assert (Hf : fexp prec emax (Z.pos (digits2_pos m) + 0)
               = Z.max (Z.pos (digits2_pos m) - 53) (-1074))
    by (unfold fexp, SpecFloat.emin; f_equal; simpl; lia).
  rewrite Hf.
  destruct (Z.max (Z.pos (digits2_pos m) - 53) (-1074) - 0) as [|d|d] eqn:Hsub.
  - destruct (binary_round_aux_finite false (Z.pos m) 0 loc_Exact) as [->|(m' & e' & -> & He)];
      [lia | | done |].
    + simpl Zdigits2. rewrite Hf. lia.
    + split; [done|]. simpl Zdigits2 in He. rewrite Hf in He. lia.
  - destruct (binary_round_aux_finite false (Z.pos m) 0 loc_Exact) as [->|(m' & e' & -> & He)];
      [lia | | done |].
    + simpl Zdigits2. rewrite Hf. lia.
    + split; [done|]. simpl Zdigits2 in He. rewrite Hf in He. lia.
  - set (f := Z.max (Z.pos (digits2_pos m) - 53) (-1074)) in *.
    assert (Hmz : Zdigits2 (Z.pos (Pos.iter xO m d)) + f ≤ Z.pos (digits2_pos m)).
    { rewrite Pos_iter_xO.
      pose proof (Zdigits2_shift (Z.pos m) (Z.pos d) ltac:(lia) ltac:(lia)) as Hs.
      simpl Zdigits2 in Hs at 2. lia. }
    assert (Hfz : fexp prec emax (Zdigits2 (Z.pos (Pos.iter xO m d)) + f) ≤ 10).
    { change (fexp prec emax (Zdigits2 (Z.pos (Pos.iter xO m d)) + f))
        with (Z.max (Zdigits2 (Z.pos (Pos.iter xO m d)) + f - 53) (-1074)). lia. }
    destruct (binary_round_aux_finite false (Z.pos (Pos.iter xO m d)) f loc_Exact)
      as [->|(m' & e' & -> & He)]; [lia | lia | done |].
    split; [done | lia].
Qed.

(** A percentage in [0, 100] is not negative and below [2 ^ 7]. *)
Lemma percentage_bounded (p : float) :
  (0 <=? p)%float = true → (p <=? 100)%float = true → F64.nonneg_below (-46) p.
Proof.
  rewrite !FloatAxioms.leb_spec. unfold F64.nonneg_below.
  change (Prim2SF 0) with (S754_zero false).
  change (Prim2SF 100) with (S754_finite false 7036874417766400 (-46)).
  destruct (Prim2SF p) as [s|s| |s m e]; intros H0 H100; try done.
  - destruct s; discriminate.
  - destruct s; [discriminate|]. split; [done|].
    unfold SFleb, SFcompare in H100.
    destruct (Z.compare_spec e (-46)); [lia | lia | discriminate].
Qed.

(** The product of two bounded floats does not overflow. *)
Lemma mul_bounded (a b : Z) (x y : float) :
  F64.nonneg_below a x → F64.nonneg_below b y → -1074 ≤ a + b + 53 ≤ 970 →
  F64.nonneg_below (a + b + 54) (x * y)%float.
Proof.
  unfold F64.nonneg_below. rewrite FloatAxioms.mul_spec.
  destruct (Prim2SF x) as [sx|sx| |sx mx ex] eqn:Hx; [|done|done|];
    destruct (Prim2SF y) as [sy|sy| |sy my ey] eqn:Hy; try done.
  intros [-> Hex] [-> Hey] Hab.
  pose proof (Prim2SF_digits _ _ _ _ Hx) as Hdx.
  pose proof (Prim2SF_digits _ _ _ _ Hy) as Hdy.
  unfold SF64mul, SFmul.
  pose proof (Zdigits2_mul (Z.pos mx) (Z.pos my) ltac:(lia) ltac:(lia)) as Hd.
  change (Z.pos mx * Z.pos my) with (Z.pos (mx * my)) in Hd.
  assert (Hf : fexp prec emax (Zdigits2 (Z.pos (mx * my)) + (ex + ey))
               = Z.max (Zdigits2 (Z.pos (mx * my)) + (ex + ey) - 53) (-1074)) by done.
  destruct (binary_round_aux_finite (xorb false false) (Z.pos (mx * my)) (ex + ey)
              loc_Exact) as [->|(m' & e' & -> & He)]; [lia | lia | done |].
  split; [done | lia].
Qed.

(** What the core of the division returns. *)
Lemma SFdiv_core_binary_spec (m1 m2 : positive) (e1 e2 : Z) :
  let r := SFdiv_core_binary prec emax (Z.pos m1) e1 (Z.pos m2) e2 in
  0 ≤ r.1.1
  ∧ r.1.2 ≤ e1 - e2
  ∧ Zdigits2 r.1.1 + r.1.2 ≤ Zdigits2 (Z.pos m1) + e1 - e2.
Proof.
  unfold SFdiv_core_binary.
  remember (Z.min (fexp prec emax (Zdigits2 (Z.pos m1) + e1 - (Zdigits2 (Z.pos m2) + e2)))
              (e1 - e2)) as e' eqn:He'.
  remember (e1 - e2 - e') as s eqn:Hs.
  assert (0 ≤ s) as Hs0 by lia.
  remember (match s with
            | Z.pos _ => Z.shiftl (Z.pos m1) s
            | 0 => Z.pos m1
            | Z.neg _ => 0
            end) as m' eqn:Hm'.
  assert (0 ≤ m' ∧ Zdigits2 m' ≤ Zdigits2 (Z.pos m1) + s) as [Hm0 Hdm'].
  { rewrite Hm'. destruct s as [|ps|ps]; [lia| |lia].
    rewrite Z.shiftl_mul_pow2 by lia. split; [lia|].
    apply Zdigits2_shift; lia. }
  pose proof (Z_div_mod m' (Z.pos m2) ltac:(lia)) as Hdiv.
  destruct (Z.div_eucl m' (Z.pos m2)) as [q r]. cbn [fst snd].
  destruct Hdiv as [Heq Hr].
  assert (0 ≤ q ≤ m') as Hq by nia.
  split; [lia|]. split; [lia|].
  pose proof (Zdigits2_mono q m' Hq). lia.
Qed.

(** Dividing a bounded float by 100 does not overflow. *)
Lemma div_100_bounded (a : Z) (x : float) :
  F64.nonneg_below a x → -1074 ≤ a + 46 ≤ 970 →
  F64.nonneg_below (a + 47) (x / 100)%float.
Proof.
  unfold F64.nonneg_below. rewrite FloatAxioms.div_spec.
  change (Prim2SF 100) with (S754_finite false 7036874417766400 (-46)).
  destruct (Prim2SF x) as [sx|sx| |sx mx ex] eqn:Hx; try done.
  intros [-> Hex] Ha.
  pose proof (Prim2SF_digits _ _ _ _ Hx) as Hdx.
  unfold SF64div, SFdiv.
  pose proof (SFdiv_core_binary_spec mx 7036874417766400 ex (-46)) as Hcore.
  destruct (SFdiv_core_binary prec emax (Z.pos mx) ex 7036874417766400 (-46))
    as [[mz ez] lz]. cbn [fst snd] in Hcore. destruct Hcore as (Hmz & Hez & Hdz).
  assert (Hf : fexp prec emax (Zdigits2 mz + ez)
               = Z.max (Zdigits2 mz + ez - 53) (-1074)) by done.
  destruct (binary_round_aux_finite (xorb false false) mz ez lz)
    as [->|(m' & e' & -> & He)]; [lia | lia | done |].
  split; [done | lia].
Qed.

(** [int] of a bounded float returns the floor of its value. *)
Lemma int_of_float_bounded (k : Z) (x : float) :
  F64.nonneg_below k x →
  ∃ q, F64.exact x = Some q ∧ (0 <= q)%Q ∧ F64.int_of_float x = Ok (Qfloor q).
Proof.
  unfold F64.nonneg_below. intros Hx.
  assert (∃ q, F64.exact x = Some q ∧ (0 <= q)%Q) as (q & Hq & Hpos).
  { unfold F64.exact. destruct (Prim2SF x) as [s|s| |s m e]; try done.
    - by exists 0%Q.
    - destruct Hx as [-> _]. eexists. split; [done|].
      destruct (0 <=? e) eqn:He.
      + apply Z.leb_le in He. unfold Qle. simpl.
        assert (0 < 2 ^ e) by (apply Z.pow_pos_nonneg; lia). nia.
      + rewrite Qred_correct. unfold Qle. simpl. lia. }
  exists q. split; [done|]. split; [done|].
  by apply F64_int_of_float_floor.
Qed.

(** For a percentage in [0, 100] the quotient [len * pct / 100] computes to
    a finite float that is not negative, whatever the length: [int] returns
    its floor. *)
Lemma rank_quotient_finite (n : nat) (pct : float) :
  (0 <=? pct)%float = true → (pct <=? 100)%float = true →
  ∃ q, F64.exact (F64.float_of_nat n * pct / 100)%float = Some q
       ∧ (0 <= q)%Q
       ∧ F64.int_of_float (F64.float_of_nat n * pct / 100)%float = Ok (Qfloor q).
Proof.
  intros H0 H100. apply (int_of_float_bounded 66).
  apply (div_100_bounded 19); [|lia].
  apply (mul_bounded 11 (-46)); [apply float_of_nat_bounded | | lia].
  by apply percentage_bounded.
Qed.

(** C6, as stated, fails.  For a list of seven elements and
    p = 14.285714285714285, within [0, 100], the index floor(len × p / 100)
    is 0, but the product 7 × p computes to 100.0, the index to 1, and
    [percentile] returns the second element. *)
Lemma percentile_rank_above_floor :
  (0 <=? 14.285714285714285)%float = true
  ∧ (14.285714285714285 <=? 100)%float = true
  ∧ (∃ p, F64.exact 14.285714285714285 = Some p
          ∧ (p < 100 / 7)%Q ∧ Qfloor (7 * p / 100) = 0)
  ∧ (F64.float_of_nat 7 * 14.285714285714285 = 100)%float
  ∧ F64.percentile [1; 2; 3; 4; 5; 6; 7]%float 14.285714285714285 = Ok 2%float.
Proof.
  split; [by vm_compute|]. split; [by vm_compute|].
  split.
  { destruct (F64.exact 14.285714285714285) as [p|] eqn:Hp; [|by vm_compute in Hp].
    exists p. split; [done|]. vm_compute in Hp. injection Hp as <-.
    split; [reflexivity | by vm_compute]. }
  split; by vm_compute.
Qed.

(** C6, amended.  On a non-empty list, for every [p] in [0, 100],
    [percentile] returns the element at index [floor q] clamped to
    [0, len - 1], where [q] is the value of [len * p / 100] as the program
    computes it in binary64 (the product rounded, then the quotient
    rounded), which is finite and not negative; on the empty list it
    returns 0 for every [p] without failing; [percentile [1,2,3,4,5] 50]
    is 3. *)
Theorem percentile_nearest_rank :
  (∀ (sorted_list : list float) (pct : float),
     (0 <=? pct)%float = true → (pct <=? 100)%float = true →
     sorted_list ≠ [] →
     ∃ q,
       F64.exact (F64.float_of_nat (length sorted_list) * pct / 100)%float = Some q
       ∧ (0 <= q)%Q
       ∧ let len := Z.of_nat (length sorted_list) in
         let idx := Z.max 0 (Z.min (Qfloor q) (len - 1)) in
         0 ≤ idx ≤ len - 1
         ∧ ∃ x, sorted_list !! Z.to_nat idx = Some x
                ∧ F64.percentile sorted_list pct = Ok x)
  ∧ (∀ pct : float, F64.percentile [] pct = Ok 0%float)
  ∧ F64.percentile [1; 2; 3; 4; 5]%float 50 = Ok 3%float.
Proof.
  split; [|split; [done | by vm_compute]].
  intros sorted_list pct H0 H100 Hne.
  destruct (rank_quotient_finite (length sorted_list) pct H0 H100)
    as (q & Hq & Hpos & Hint).
  exists q. split; [done|]. split; [done|].
  pose proof (F64_percentile_at sorted_list pct Hne) as H.
  rewrite Hint in H. exact H.
Qed.

Lemma percentile_nearest_rank_witness :
  (0 <=? 90)%float = true ∧ (90 <=? 100)%float = true
  ∧ [1; 2; 3; 4; 5]%float ≠ []
  ∧ ∃ q,
      F64.exact (F64.float_of_nat 5 * 90 / 100)%float = Some q
      ∧ (q == 4.5)%Q
      ∧ ∃ x, [1; 2; 3; 4; 5]%float !! Z.to_nat (Z.max 0 (Z.min (Qfloor q) (5 - 1)))
             = Some x
             ∧ F64.percentile [1; 2; 3; 4; 5]%float 90 = Ok x.
Proof.
  split; [by vm_compute|]. split; [by vm_compute|]. split; [done|].
  destruct percentile_nearest_rank as [Hrank _].
  destruct (Hrank [1; 2; 3; 4; 5]%float 90%float) as (q & Hq & _ & _ & Hx);
    [by vm_compute | by vm_compute | done |].
  exists q. split; [done|]. split; [|done].
  vm_compute in Hq. injection Hq as <-. reflexivity.
Defined.

(** X4. [percentile] never raises [IndexError] and never indexes from the
    end of the list: on the empty list it returns 0; on a non-empty list it
    raises only what [int] raises on the computed quotient ([OverflowError]
    for an infinity, [ValueError] for a NaN), and otherwise returns an
    element of the list, the first one when the index is negative or zero
    and the last one when it reaches the length. *)
Theorem percentile_never_index_error (sorted_list : list float) (pct : float) :
  match F64.percentile sorted_list pct with
  | Ok x =>
      (sorted_list = [] ∧ x = 0%float)
      ∨ (x ∈ sorted_list
         ∧ ∃ idx,
             F64.int_of_float
               (F64.float_of_nat (length sorted_list) * pct / 100)%float = Ok idx
             ∧ (idx ≤ 0 → head sorted_list = Some x)
             ∧ (Z.of_nat (length sorted_list) - 1 ≤ idx → last sorted_list = Some x))
  | Raise e =>
      sorted_list ≠ []
      ∧ F64.int_of_float
          (F64.float_of_nat (length sorted_list) * pct / 100)%float = Raise e
      ∧ F64.exact (F64.float_of_nat (length sorted_list) * pct / 100)%float = None
      ∧ (e = OverflowError ∨ e = ValueError)
  end.
Proof.
  destruct sorted_list as [|y rest] eqn:Hl.
  { simpl. by left. }
  rewrite <- Hl. assert (sorted_list ≠ []) as Hne by (by rewrite Hl).
  pose proof (F64_percentile_at sorted_list pct Hne) as H. simpl in H.
  destruct (F64.int_of_float _) as [idx|e] eqn:Hint.
  - destruct H as (Hk & x & Hx & ->). right.
    split; [by eapply list_elem_of_lookup_2|].
    exists idx. split; [done|]. split.
    + intros Hle. rewrite head_lookup.
      replace (Z.to_nat _) with 0%nat in Hx by lia. done.
    + intros Hge. rewrite last_lookup.
      replace (Z.to_nat _) with (pred (length sorted_list)) in Hx by lia. done.
  - rewrite H. split; [done|]. split; [done|].
    unfold F64.int_of_float in Hint. unfold F64.exact.
    destruct (Prim2SF _) as [s|s| |s m e']; try done.
    + injection Hint as <-. split; [done | by left].
    + injection Hint as <-. split; [done | by right].
Qed.

Example percentile_overflow :
  F64.percentile [1; 2; 3; 4; 5]%float 1e308 = Raise OverflowError
  ∧ F64.percentile [1; 2; 3; 4; 5]%float nan = Raise ValueError
  ∧ F64.percentile [1; 2; 3; 4; 5]%float (-30) = Ok 1%float
  ∧ F64.percentile [1; 2; 3; 4; 5]%float 250 = Ok 5%float.
Proof. by vm_compute. Qed.
